(** * mrnet: reaction enumeration, bipartite graph embedding and
      pathway reconstruction

    A shallow embedding of the parts of
    - [mrnet/core/mol_entry.py]   (molecule entries and their free energy),
    - [mrnet/core/reactions.py]   (reaction archetypes, graph embedding,
                                   bucketing of entries),
    - [mrnet/stochastic/analyze.py] (trajectory analysis)
    that the specification makes statements about.

    Conventions.
    - Python floats are modelled by the real numbers [R]; [None] is
      [option]'s [None].
    - Python integers (species indices, reaction indices, charges) are [Z]
      or [nat] where the code only ever counts upwards from zero.
    - An exception raised by the Python code is an error value of the
      embedding ([None], or a constructor of an error type).
    - A Python [dict] whose iteration order is observable is an
      insertion-ordered association list; one that is only looked up is a
      [gmap]. *)

From Stdlib Require Import ZArith Reals Lra Lia.
From Stdlib Require Import Strings.String Strings.Ascii.
From Stdlib Require Import Sorting.Permutation.
From stdpp Require Import base option list gmap strings sorting pretty.

Set Default Proof Using "Type".
Set Warnings "-clear-no-such-hyp".

(** ** Python runtime conventions *)

(** Exceptions the modelled code can raise. *)
Inductive exn :=
  | IndexError
  | KeyError
  | TypeError
  | ValueError (msg : string)
  | RuntimeError (msg : string).

(** The outcome of running a piece of Python: a value, a raised exception,
    or [OutOfFuel] when a [while] loop was cut off by the step budget of
    the embedding. *)
Inductive outcome (A : Type) :=
  | Ok (a : A)
  | Raise (e : exn)
  | OutOfFuel.
Arguments Ok {A} a.
Arguments Raise {A} e.
Arguments OutOfFuel {A}.

#[global] Instance outcome_ret : MRet outcome := @Ok.
#[global] Instance outcome_bind : MBind outcome := λ A B f m,
  match m with
  | Ok a => f a
  | Raise e => Raise e
  | OutOfFuel => OutOfFuel
  end.

(** [lookup_or e o]: the value of a subscript expression, raising [e] when
    the index or key is missing. *)
Definition lookup_or {A} (e : exn) (o : option A) : outcome A :=
  match o with Some a => Ok a | None => Raise e end.

(** A [for] loop whose body threads a state and may raise. *)
Fixpoint for_each {A S} (body : S → A → outcome S) (s : S) (l : list A)
    : outcome S :=
  match l with
  | [] => Ok s
  | x :: l' => s' ← body s x; for_each body s' l'
  end.

Lemma for_each_app {A S} (body : S → A → outcome S) s l1 l2 :
  for_each body s (l1 ++ l2) = s' ← for_each body s l1; for_each body s' l2.
Proof.
  revert s. induction l1 as [|x l1 IH]; intros s; simpl; [done|].
  destruct (body s x); simpl; auto.
Qed.

(** Floats are compared with the classical decision procedures of [R]. *)
#[global] Instance R_eq_dec : EqDecision R := Req_dec_T.
#[global] Instance Rle_decision (x y : R) : Decision (x <= y)%R := Rle_dec x y.

(** ** Molecule entries ([mol_entry.py]) *)

Module MolEntry.

Section Entry.
(** The bonding graph of an entry is built by an external structure
    service; the embedding keeps it abstract. *)
Context {Graph : Type}.

(** The attributes of [MoleculeEntry] that the modelled code reads.
    [formula], [charge] and [num_bonds] are properties derived from the
    molecule graph; they are stored here as fields. [ind] is
    [parameters.get("ind")]. *)
Record MoleculeEntry := mkEntry {
  entry_id : string;
  formula : string;
  charge : Z;
  num_bonds : Z;
  uncorrected_energy : R;
  correction : R;
  enthalpy : option R;
  entropy : option R;
  ind : Z;
  graph : Graph
}.

(** [MoleculeEntry.energy] *)
Definition energy (e : MoleculeEntry) : R :=
  (uncorrected_energy e + correction e)%R.

(** [MoleculeEntry.get_free_energy] *)
Definition get_free_energy (e : MoleculeEntry) (temp : R) : option R :=
  match enthalpy e, entropy e with
  | Some h, Some s =>
      Some (energy e * 27.21139 + 0.0433641 * h - temp * s * 0.0000433641)%R
  | _, _ => None
  end.

(** [MoleculeEntry.free_energy], the deprecated alias. *)
Definition free_energy (e : MoleculeEntry) (temp : R) : option R :=
  get_free_energy e temp.

End Entry.

Arguments MoleculeEntry : clear implicits.

End MolEntry.

(** ** Theorems about molecule entries *)

Section EntryFacts.
Import MolEntry.
Context {Graph : Type}.
Implicit Type e : MoleculeEntry Graph.

Lemma get_free_energy_None e temp :
  get_free_energy e temp = None <-> enthalpy e = None \/ entropy e = None.
Proof.
  unfold get_free_energy.
  destruct (enthalpy e), (entropy e); split; intros H; try done;
    try (by left); try (by right); by destruct H.
Qed.

(** C10: [get_free_energy] returns [None] whenever the enthalpy or the
    entropy of the entry is [None]; when both are present it returns
    [energy*27.21139 + 0.0433641*enthalpy - temp*entropy*0.0000433641].
    A caller therefore has to handle a [None] result. *)
Theorem get_free_energy_spec e temp :
  (enthalpy e = None \/ entropy e = None -> get_free_energy e temp = None)
  /\ (forall h s, enthalpy e = Some h -> entropy e = Some s ->
        get_free_energy e temp =
          Some (energy e * 27.21139 + 0.0433641 * h
                - temp * s * 0.0000433641)%R).
Proof.
  split.
  - intros H. by apply get_free_energy_None.
  - intros h s Hh Hs. unfold get_free_energy. by rewrite Hh, Hs.
Qed.

End EntryFacts.

(** ** Trajectory analysis ([stochastic/analyze.py]) *)

Module Analyze.

(** An entry of [rnsd.index_to_reaction]: the species indices consumed and
    produced, with repetition. *)
Record Reaction := mkReaction {
  reactants : list nat;
  products : list nat
}.

(** A record of the dictionary built by [collect_duplicate_pathways]. *)
Record PathRecord := mkPathRecord {
  pathway : list Z;
  frequency : nat
}.

#[global] Instance PathRecord_eq_dec : EqDecision PathRecord.
Proof. solve_decision. Defined.

(** One iteration of the loop of [collect_duplicate_pathways]. *)
Definition collect_step (pathway_dict : gmap (gset Z) PathRecord)
    (p : list Z) : gmap (gset Z) PathRecord :=
  let key : gset Z := list_to_set p in
  match pathway_dict !! key with
  | Some rec =>
      <[key := mkPathRecord (pathway rec) (frequency rec + 1)]> pathway_dict
  | None => <[key := mkPathRecord p 1]> pathway_dict
  end.

Definition collect_duplicate_pathways (pathways : list (list Z))
    : gmap (gset Z) PathRecord :=
  foldl collect_step ∅ pathways.

(** [state[species_index] += d] on a numpy array: an index past the end
    raises. *)
Definition bump (d : Z) (state : list Z) (species_index : nat)
    : outcome (list Z) :=
  x ← lookup_or IndexError (state !! species_index);
  Ok (<[species_index := (x + d)%Z]> state).

(** [update_state(state, reaction)] *)
Definition update_state (state : list Z) (reaction : Reaction)
    : outcome (list Z) :=
  state1 ← for_each (bump (-1)) state (reactants reaction);
  for_each (bump 1) state1 (products reaction).

(** [list(np.where(partial_state < 0)[0])], counting positions from [i]. *)
Fixpoint where_negative (i : nat) (state : list Z) : list nat :=
  match state with
  | [] => []
  | x :: state' =>
      if bool_decide (x < 0)%Z then i :: where_negative (S i) state'
      else where_negative (S i) state'
  end.

Definition negative_species (state : list Z) : list nat :=
  where_negative 0 state.

Section Pathways.
(** [rnsd.index_to_reaction]: the container lives in the serialized
    network; all the analysis does is subscript it, which either yields
    a reaction or raises. *)
Variable index_to_reaction : Z → option Reaction.

(** The inner [for reaction_index in reaction_history: ... break] scan:
    the first reaction of the history that lists [species_index] among
    its products, if there is one. *)
Fixpoint first_producing (reaction_history : list Z) (species_index : nat)
    : outcome (option Z) :=
  match reaction_history with
  | [] => Ok None
  | reaction_index :: rest =>
      reaction ← lookup_or KeyError (index_to_reaction reaction_index);
      if bool_decide (species_index ∈ products reaction)
      then Ok (Some reaction_index)
      else first_producing rest species_index
  end.

(** The body of [for species_index in negative_species]: one resolution
    step on [(partial_state, pathway)]. *)
Definition resolve_species (reaction_history : list Z)
    (st : list Z * list Z) (species_index : nat)
    : outcome (list Z * list Z) :=
  found ← first_producing reaction_history species_index;
  match found with
  | None => Ok st
  | Some reaction_index =>
      reaction ← lookup_or KeyError (index_to_reaction reaction_index);
      partial_state ← update_state st.1 reaction;
      Ok (partial_state, reaction_index :: st.2)
  end.

(** The [while len(negative_species) != 0] loop. *)
Fixpoint resolve_loop (fuel : nat) (reaction_history : list Z)
    (st : list Z * list Z) : outcome (list Z) :=
  match negative_species st.1 with
  | [] => Ok st.2
  | negative =>
      match fuel with
      | O => OutOfFuel
      | S fuel' =>
          st' ← for_each (resolve_species reaction_history) st negative;
          resolve_loop fuel' reaction_history st'
      end
  end.

(** The body of [for reaction_history in self.reaction_histories]:
    [None] when the target was not produced ([continue]), the pathway
    otherwise. *)
Definition pathway_of_history (fuel : nat) (initial_state : list Z)
    (target_species_index : nat) (reaction_history : list Z)
    : outcome (option (list Z)) :=
  found ← first_producing reaction_history target_species_index;
  let reaction_producing_target_index := default (-1)%Z found in
  if bool_decide (reaction_producing_target_index = -1)%Z then Ok None
  else
    let pathway := [reaction_producing_target_index] in
    final_reaction ←
      lookup_or KeyError (index_to_reaction reaction_producing_target_index);
    partial_state ← update_state initial_state final_reaction;
    pathway' ← resolve_loop fuel reaction_history (partial_state, pathway);
    Ok (Some pathway').

(** [extract_reaction_pathways]: the value stored in
    [self.reaction_pathways_dict[target_species_index]]. *)
Definition extract_reaction_pathways (fuel : nat) (initial_state : list Z)
    (reaction_histories : list (list Z)) (target_species_index : nat)
    : outcome (gmap (gset Z) PathRecord) :=
  reaction_pathway_list ←
    for_each (λ acc reaction_history,
                p ← pathway_of_history fuel initial_state
                       target_species_index reaction_history;
                Ok (match p with Some pw => acc ++ [pw] | None => acc end))
             [] reaction_histories;
  Ok (collect_duplicate_pathways reaction_pathway_list).

End Pathways.

End Analyze.

(** ** Theorems about trajectory analysis *)

Section AnalyzeFacts.
Import Analyze.

(** Pathways of the input whose set of reaction indices is [key]. *)
Definition with_key (key : gset Z) (pathways : list (list Z))
    : list (list Z) :=
  filter (λ p, list_to_set p =@{gset Z} key) pathways.

Lemma with_key_cons key p pathways :
  with_key key (p :: pathways) =
    if decide (list_to_set p =@{gset Z} key)
    then p :: with_key key pathways else with_key key pathways.
Proof. unfold with_key. by rewrite filter_cons. Qed.

Lemma collect_step_lookup d p key :
  collect_step d p !! key =
    if decide (list_to_set p =@{gset Z} key) then
      match d !! key with
      | Some rec => Some (mkPathRecord (pathway rec) (frequency rec + 1))
      | None => Some (mkPathRecord p 1)
      end
    else d !! key.
Proof.
  unfold collect_step. case_decide as Hk.
  - subst key. destruct (d !! list_to_set p) as [rec|];
      by rewrite lookup_insert_eq.
  - destruct (d !! list_to_set p) as [rec|];
      by rewrite lookup_insert_ne.
Qed.

(** The loop invariant of [collect_duplicate_pathways], for an arbitrary
    dictionary [d] accumulated so far. *)
Lemma collect_foldl_lookup pathways d key :
  foldl collect_step d pathways !! key =
    match d !! key with
    | Some rec =>
        Some (mkPathRecord (pathway rec)
                (frequency rec + length (with_key key pathways)))
    | None =>
        match with_key key pathways with
        | [] => None
        | p :: rest => Some (mkPathRecord p (S (length rest)))
        end
    end.
Proof.
  revert d. induction pathways as [|p pathways IH]; intros d; simpl.
  - destruct (d !! key) as [[pw n]|]; simpl; [|done].
    by rewrite Nat.add_0_r.
  - rewrite IH, collect_step_lookup, with_key_cons.
    case_decide; [|done].
    destruct (d !! key) as [[pw n]|]; simpl; do 2 f_equal; lia.
Qed.

(** C9: [collect_duplicate_pathways] keys its records by the set of
    reaction indices of a pathway. The record stored under a key holds
    the first input pathway with that index set and, as frequency, the
    number of input pathways with that index set; a key that no input
    pathway has is absent. Consequently two pathways with the same
    index set (differing only in order or in the multiplicity of an
    index) collapse into one record of frequency 2. *)
Theorem collect_duplicate_pathways_spec (pathways : list (list Z)) :
  (∀ key : gset Z,
     collect_duplicate_pathways pathways !! key =
       match with_key key pathways with
       | [] => None
       | p :: rest => Some (mkPathRecord p (S (length rest)))
       end)
  ∧ (∀ p q : list Z, (∀ x, x ∈ p ↔ x ∈ q) →
       collect_duplicate_pathways [p; q] =
         {[ list_to_set p := mkPathRecord p 2 ]}).
Proof.
  split.
  - intros key. unfold collect_duplicate_pathways.
    by rewrite collect_foldl_lookup, lookup_empty.
  - intros p q Hpq.
    assert (list_to_set q =@{gset Z} list_to_set p) as Hset.
    { apply set_eq. intros x. rewrite !elem_of_list_to_set. by rewrite Hpq. }
    unfold collect_duplicate_pathways; simpl.
    unfold collect_step at 2. rewrite lookup_empty.
    unfold collect_step. rewrite Hset, insert_empty, lookup_singleton_eq.
    simpl. by rewrite insert_singleton_eq.
Qed.

End AnalyzeFacts.
(** *** Resolution steps *)

Section ResolutionFacts.
Import Analyze.

(** Number of times [x] is listed in [l]. *)
Definition occurrences (x : nat) (l : list nat) : Z :=
  Z.of_nat (length (filter (λ y, y = x) l)).

Lemma occurrences_cons x y l :
  occurrences x (y :: l) =
    ((if decide (y = x) then 1 else 0) + occurrences x l)%Z.
Proof.
  unfold occurrences. rewrite filter_cons.
  case_decide; simpl length; lia.
Qed.

Lemma occurrences_nonneg x l : (0 ≤ occurrences x l)%Z.
Proof. unfold occurrences. lia. Qed.

Lemma occurrences_pos x l : x ∈ l → (1 ≤ occurrences x l)%Z.
Proof.
  induction 1 as [x l|x y l _ IH]; rewrite occurrences_cons.
  - rewrite decide_True by done. pose proof (occurrences_nonneg x l). lia.
  - case_decide; lia.
Qed.

Lemma bind_Ok {A B} (m : outcome A) (f : A → outcome B) b :
  m ≫= f = Ok b → ∃ a, m = Ok a ∧ f a = Ok b.
Proof. destruct m as [a| |]; cbn; [by eauto|done..]. Qed.

Lemma bump_Ok d state i state' :
  bump d state i = Ok state' →
  ∃ c, state !! i = Some c ∧ state' = <[i := (c + d)%Z]> state.
Proof.
  unfold bump. intros (c & Hc & [= <-])%bind_Ok.
  destruct (state !! i); [|done]. injection Hc as ->. by eauto.
Qed.

(** [for i in l: state[i] += d] moves every in-range count by [d] per
    listing, and keeps the length of the array. *)
Lemma for_each_bump d l : ∀ state state',
  for_each (bump d) state l = Ok state' →
  length state' = length state
  ∧ ∀ i c, state !! i = Some c →
      state' !! i = Some (c + d * occurrences i l)%Z.
Proof.
  induction l as [|y l IH]; intros state state' Hrun; simpl in Hrun.
  - injection Hrun as <-. split; [done|]. intros i c Hi.
    rewrite Hi. f_equal. unfold occurrences; simpl. lia.
  - apply bind_Ok in Hrun as (state1 & Hbump & Hrun).
    apply bump_Ok in Hbump as (cy & Hy & ->).
    apply IH in Hrun as [Hlen Hget]. rewrite length_insert in Hlen.
    split; [done|]. intros i c Hi. rewrite occurrences_cons.
    destruct (decide (y = i)) as [->|Hne].
    + rewrite (Hget i (cy + d)%Z).
      * f_equal. rewrite Hi in Hy. injection Hy as ->. lia.
      * apply list_lookup_insert_eq. by eapply lookup_lt_Some.
    + rewrite (Hget i c); [f_equal; lia|].
      by rewrite list_lookup_insert_ne.
Qed.

(** The stoichiometry update: each count moves by the number of listings
    among the products minus the number among the reactants. *)
Lemma update_state_lookup state reaction state' :
  update_state state reaction = Ok state' →
  length state' = length state
  ∧ ∀ i c, state !! i = Some c →
      state' !! i = Some (c - occurrences i (reactants reaction)
                          + occurrences i (products reaction))%Z.
Proof.
  unfold update_state. intros (state1 & H1 & Hrun)%bind_Ok.
  apply for_each_bump in H1 as [Hlen1 Hget1].
  apply for_each_bump in Hrun as [Hlen2 Hget2].
  split; [congruence|]. intros i c Hi.
  rewrite (Hget2 i _ (Hget1 i c Hi)). f_equal. lia.
Qed.

Lemma elem_of_where_negative state : ∀ i x,
  x ∈ where_negative i state ↔
  ∃ c, i ≤ x ∧ state !! (x - i) = Some c ∧ (c < 0)%Z.
Proof.
  induction state as [|c0 state IH]; intros i x; simpl.
  - split; [by intros ?%elem_of_nil|]. by intros (c & _ & ? & _).
  - assert (x ∈ where_negative (S i) state ↔
            ∃ c, i ≤ x ∧ (c0 :: state) !! (x - i) = Some c ∧ (c < 0)%Z
                 ∧ x ≠ i) as Htail.
    { rewrite IH. split.
      - intros (c & Hle & Hc & Hneg). exists c.
        replace (x - i) with (S (x - S i)) by lia. simpl.
        split_and!; [lia|done|done|lia].
      - intros (c & Hle & Hc & Hneg & Hne). exists c.
        replace (x - i) with (S (x - S i)) in Hc by lia.
        split_and!; [lia|done|done]. }
    case_bool_decide as Hc0.
    + rewrite elem_of_cons, Htail. split.
      * intros [->|(c & ? & ? & ? & _)]; [|by eauto].
        exists c0. rewrite Nat.sub_diag. by eauto.
      * intros (c & Hle & Hc & Hneg).
        destruct (decide (x = i)) as [->|]; [by left|right; by eauto 6].
    + rewrite Htail. split; [intros (c & ? & ? & ? & _); by eauto|].
      intros (c & Hle & Hc & Hneg). exists c. repeat split; try done.
      intros ->. rewrite Nat.sub_diag in Hc. simpl in Hc. congruence.
Qed.

Lemma elem_of_negative_species state x :
  x ∈ negative_species state ↔ ∃ c, state !! x = Some c ∧ (c < 0)%Z.
Proof.
  unfold negative_species. rewrite elem_of_where_negative.
  rewrite Nat.sub_0_r. split; intros (c & H); exists c; intuition lia.
Qed.

(** When no count turns negative the number of negative entries cannot
    grow, and it shrinks if some negative entry is cleared. *)
Lemma where_negative_length state state' :
  Forall2 (λ c c', (c' < 0 → c < 0)%Z) state state' →
  ∀ i j,
    length (where_negative j state') ≤ length (where_negative i state)
    ∧ ((∃ x c c', state !! x = Some c ∧ state' !! x = Some c'
                  ∧ (c < 0)%Z ∧ ¬ (c' < 0)%Z) →
       length (where_negative j state') < length (where_negative i state)).
Proof.
  induction 1 as [|c c' state state' Hc _ IH]; intros i j; simpl.
  - split; [done|]. by intros (x & c & c' & ? & _).
  - destruct (IH (S i) (S j)) as [Hle Hlt].
    destruct (decide (c' < 0)%Z) as [Hc'|Hc'];
      [rewrite (bool_decide_eq_true_2 _ Hc'),
               (bool_decide_eq_true_2 _ (Hc Hc'))
      |rewrite (bool_decide_eq_false_2 _ Hc')]; simpl.
    + split; [lia|]. intros ([|x] & d & d' & Hd & Hd' & Hneg & Hnn);
        simplify_eq/=; [done|].
      apply ->Nat.succ_lt_mono. apply Hlt. by eauto 8.
    + case_bool_decide; simpl.
      * split; [lia|]. intros _. lia.
      * split; [lia|]. intros ([|x] & d & d' & Hd & Hd' & Hneg & Hnn);
          simplify_eq/=; [done|]. apply Hlt. by eauto 8.
Qed.

End ResolutionFacts.

Section PathwayFacts.
Import Analyze.
Variable index_to_reaction : Z → option Reaction.

(** The claim of the specification about resolution steps, as worded:
    whenever a step resolves a negative-count species by applying a
    reaction of the history, the number of negative-count species
    strictly drops. *)
Definition resolution_strictly_reduces : Prop :=
  ∀ (index_to_reaction : Z → option Reaction) (reaction_history : list Z)
    (partial_state pathway partial_state' : list Z)
    (species_index : nat) (reaction_index : Z),
    species_index ∈ negative_species partial_state →
    resolve_species index_to_reaction reaction_history
      (partial_state, pathway) species_index
      = Ok (partial_state', reaction_index :: pathway) →
    length (negative_species partial_state')
      < length (negative_species partial_state).

(** The reaction table of the two-step chain [0 -> 1 -> 2]. *)
Definition chain_reactions (reaction_index : Z) : option Reaction :=
  [mkReaction [0] [1]; mkReaction [1] [2]] !! Z.to_nat reaction_index.

Lemma occurrences_notin x l : x ∉ l → occurrences x l = 0%Z.
Proof.
  induction l as [|y l IH]; [done|]. rewrite not_elem_of_cons.
  intros [Hne Hnotin]. rewrite occurrences_cons, IH by done.
  by rewrite decide_False by done.
Qed.

Lemma first_producing_Some history s idx :
  first_producing index_to_reaction history s = Ok (Some idx) →
  ∃ reaction, index_to_reaction idx = Some reaction
              ∧ s ∈ products reaction.
Proof.
  induction history as [|i history IH]; simpl; [done|].
  intros (reaction & Hr & Hrun)%bind_Ok.
  destruct (index_to_reaction i) as [r|] eqn:Hi; [|done].
  injection Hr as ->. case_bool_decide; [|by auto].
  injection Hrun as <-. by eauto.
Qed.

Lemma resolve_species_Ok history st pw s st' pw' :
  resolve_species index_to_reaction history (st, pw) s = Ok (st', pw') →
  (first_producing index_to_reaction history s = Ok None
     ∧ st' = st ∧ pw' = pw)
  ∨ ∃ idx reaction,
      first_producing index_to_reaction history s = Ok (Some idx)
      ∧ index_to_reaction idx = Some reaction
      ∧ s ∈ products reaction
      ∧ update_state st reaction = Ok st'
      ∧ pw' = idx :: pw.
Proof.
  unfold resolve_species. intros ([idx|] & Hfound & Hrun)%bind_Ok.
  - right. destruct (first_producing_Some _ _ _ Hfound) as (r & Hr & Hs).
    rewrite Hr in Hrun. cbn in Hrun.
    apply bind_Ok in Hrun as (st1 & Hupd & [= <- <-]).
    exists idx, r. by eauto 8.
  - left. injection Hrun as <- <-. by eauto.
Qed.

Theorem resolve_species_reduces history partial_state pathway
    species_index partial_state' pathway' reaction_index reaction :
  species_index ∈ negative_species partial_state →
  first_producing index_to_reaction history species_index
    = Ok (Some reaction_index) →
  index_to_reaction reaction_index = Some reaction →
  resolve_species index_to_reaction history
    (partial_state, pathway) species_index = Ok (partial_state', pathway') →
  (pathway' = reaction_index :: pathway
   ∧ ∀ i c, partial_state !! i = Some c →
       partial_state' !! i =
         Some (c - occurrences i (reactants reaction)
               + occurrences i (products reaction))%Z)
  ∧ ((∀ i c, i ∈ reactants reaction → partial_state !! i = Some c →
         (occurrences i (reactants reaction) ≤ c)%Z) →
     (∀ c, partial_state !! species_index = Some c →
         (0 ≤ c + occurrences species_index (products reaction))%Z) →
     length (negative_species partial_state')
       < length (negative_species partial_state)).
Proof.
  intros Hneg Hfound Hreaction Hstep.
  apply resolve_species_Ok in Hstep
    as [(Hnone & _)|(idx & r & Hfound' & Hr & Hprod & Hupd & ->)];
    [congruence|].
  assert (idx = reaction_index) as -> by congruence.
  assert (r = reaction) as -> by congruence.
  apply update_state_lookup in Hupd as [Hlen Hget].
  split; [done|]. intros Hsupply Hdeficit.
  apply elem_of_negative_species in Hneg as (c & Hc & Hcneg).
  assert (species_index ∉ reactants reaction) as Hnotin.
  { intros Hin. pose proof (Hsupply _ _ Hin Hc).
    pose proof (occurrences_nonneg species_index (reactants reaction)). lia. }
  pose proof (occurrences_notin _ _ Hnotin) as Hocc0.
  apply (where_negative_length partial_state partial_state').
  - apply Forall2_same_length_lookup. split; [done|].
    intros i x x' Hx Hx'. rewrite (Hget _ _ Hx) in Hx'.
    injection Hx' as <-. intros Hx'neg.
    destruct (decide (i ∈ reactants reaction)) as [Hin|Hout].
    + pose proof (Hsupply _ _ Hin Hx).
      pose proof (occurrences_nonneg i (products reaction)). lia.
    + pose proof (occurrences_notin _ _ Hout) as Hz.
      pose proof (occurrences_nonneg i (products reaction)). lia.
  - exists species_index, c. eexists. split; [done|].
    split; [by apply Hget|]. split; [done|].
    specialize (Hdeficit _ Hc). lia.
Qed.

Lemma first_producing_cons i history s reaction :
  index_to_reaction i = Some reaction →
  first_producing index_to_reaction (i :: history) s =
    if bool_decide (s ∈ products reaction) then Ok (Some i)
    else first_producing index_to_reaction history s.
Proof. intros Hi. simpl. by rewrite Hi. Qed.

Theorem extract_reaction_pathways_chain (r0 r1 : Z) (fuel : nat) :
  index_to_reaction r0 = Some (mkReaction [0] [1]) →
  index_to_reaction r1 = Some (mkReaction [1] [2]) →
  r1 ≠ (-1)%Z →
  extract_reaction_pathways index_to_reaction (S fuel)
    [1; 0; 0]%Z [[r0; r1]] 2
  = Ok {[ list_to_set [r0; r1] := mkPathRecord [r0; r1] 1 ]}.
Proof.
  intros H0 H1 Hsentinel.
  assert (pathway_of_history index_to_reaction (S fuel) [1; 0; 0]%Z 2
            [r0; r1] = Ok (Some [r0; r1])) as Hpath.
  { unfold pathway_of_history.
    rewrite (first_producing_cons _ _ _ _ H0); simpl bool_decide.
    rewrite (first_producing_cons _ _ _ _ H1); simpl bool_decide.
    cbn [mbind outcome_bind from_option]. unfold Datatypes.id.
    rewrite bool_decide_eq_false_2 by done.
    rewrite H1. cbn [lookup_or mbind outcome_bind].
    change (update_state [1; 0; 0]%Z (mkReaction [1] [2]))
      with (Ok [1; -1; 1]%Z).
    cbn [mbind outcome_bind resolve_loop fst snd].
    change (negative_species [1; -1; 1]%Z) with [1].
    cbn [for_each]. unfold resolve_species at 1.
    rewrite (first_producing_cons _ _ _ _ H0); simpl bool_decide.
    cbn [mbind outcome_bind fst snd]. rewrite H0.
    cbn [lookup_or mbind outcome_bind].
    change (update_state [1; -1; 1]%Z (mkReaction [0] [1]))
      with (Ok [0; 0; 1]%Z).
    cbn [mbind outcome_bind]. by destruct fuel. }
  unfold extract_reaction_pathways. cbn [for_each].
  rewrite Hpath. cbn.
  unfold collect_duplicate_pathways, collect_step; simpl.
  by rewrite lookup_empty, insert_empty.
Qed.

End PathwayFacts.

Section PathwayExamples.
Import Analyze.

Lemma resolution_not_strictly_reducing : ¬ resolution_strictly_reduces.
Proof.
  intros Hclaim.
  specialize (Hclaim chain_reactions [0; 1]%Z
                [0; -1; 1]%Z [1%Z] [-1; 0; 1]%Z 1 0%Z).
  assert (length (negative_species [-1; 0; 1]%Z)
          < length (negative_species [0; -1; 1]%Z)) as Hlt.
  { apply Hclaim; [|reflexivity]. apply elem_of_negative_species.
    exists (-1)%Z. split; [reflexivity|lia]. }
  vm_compute in Hlt. lia.
Qed.

Lemma resolve_species_reduces_witness :
  length (negative_species [0; 0; 1]%Z)
    < length (negative_species [1; -1; 1]%Z).
Proof.
  refine (proj2 (resolve_species_reduces chain_reactions [0; 1]%Z
                   [1; -1; 1]%Z [1%Z] 1 [0; 0; 1]%Z [0; 1]%Z 0%Z
                   (mkReaction [0] [1]) _ _ _ _) _ _).
  - apply elem_of_negative_species. exists (-1)%Z. split; [reflexivity|lia].
  - reflexivity.
  - reflexivity.
  - reflexivity.
  - intros i c Hi Hc. simpl in Hi. apply list_elem_of_singleton in Hi as ->.
    simpl in Hc. injection Hc as <-. vm_compute. discriminate.
  - intros c Hc. simpl in Hc. injection Hc as <-. vm_compute. discriminate.
Defined.

Lemma extract_reaction_pathways_chain_witness :
  extract_reaction_pathways chain_reactions 1 [1; 0; 0]%Z [[0; 1]%Z] 2
  = Ok {[ list_to_set [0; 1]%Z := mkPathRecord [0; 1]%Z 1 ]}.
Proof.
  apply (extract_reaction_pathways_chain chain_reactions 0 1 0);
    [reflexivity|reflexivity|discriminate].
Defined.

End PathwayExamples.



(** ** Loading simulation histories ([SimulationAnalyzer.__init__]) *)

Module Loader.

(** [s.split(sep)] for a one-character separator. *)
Fixpoint split_on (sep : ascii) (s : string) : list string :=
  match s with
  | EmptyString => [EmptyString]
  | String c s' =>
      if Ascii.eqb c sep then EmptyString :: split_on sep s'
      else match split_on sep s' with
           | piece :: rest => String c piece :: rest
           | [] => [String c EmptyString]
           end
  end.

(** The order [sorted] uses on [str]: lexicographic on code points. *)
Definition string_le (s1 s2 : string) : Prop := String.leb s1 s2 = true.

#[global] Instance string_le_dec s1 s2 : Decision (string_le s1 s2).
Proof. unfold string_le. apply _. Defined.

Definition sorted (l : list string) : list string := merge_sort string_le l.

(** [x.split("_")[1]] *)
Definition seed_of (x : string) : outcome string :=
  lookup_or IndexError (split_on "_" x !! 1).

Definition startswith (pre : string) (x : string) : Prop :=
  String.prefix pre x = true.

#[global] Instance startswith_dec pre x : Decision (startswith pre x).
Proof. unfold startswith. apply _. Defined.

Definition seed_error : exn :=
  ValueError "Reactions and times not from same set of initial seeds!".

(** The part of [SimulationAnalyzer.__init__] that inspects the histories
    folder, given the result of [os.listdir]. It returns the names of the
    reaction-history files and of the time-history files, which the
    constructor goes on to read. *)
Definition SimulationAnalyzer_init (listing : list string)
    : outcome (list string * list string) :=
  let histories_contents := sorted listing in
  let reaction_histories_contents :=
    filter (startswith "reactions") histories_contents in
  let time_histories_contents :=
    filter (startswith "times") histories_contents in
  reaction_seeds ← mapM seed_of reaction_histories_contents;
  time_seeds ← mapM seed_of reaction_histories_contents;
  if decide (reaction_seeds ≠ time_seeds) then Raise seed_error
  else Ok (reaction_histories_contents, time_histories_contents).

(** The seed identifiers carried by the files of one kind, as the error
    message and the specification intend them. *)
Definition seeds_of (kind : string) (listing : list string)
    : outcome (list string) :=
  mapM seed_of (filter (startswith kind) (sorted listing)).

End Loader.

Section LoaderFacts.
Import Loader.

(** A comprehension raises only what one of its element computations
    raises. *)
Lemma mapM_Raise {A B} (f : A → outcome B) (l : list A) e :
  mapM f l = Raise e → ∃ x, x ∈ l ∧ f x = Raise e.
Proof.
  induction l as [|x l IH]; cbn; [done|].
  destruct (f x) as [y|e'|] eqn:Hx; cbn; [| |done].
  - destruct (mapM f l) as [k|e'|]; cbn; [done| |done].
    intros [= ->]. destruct IH as (x' & Hin & Hx'); [done|].
    exists x'. split; [by right|done].
  - intros [= ->]. exists x. split; [by left|done].
Qed.

Lemma seed_of_Raise x e : seed_of x = Raise e → e = IndexError.
Proof.
  unfold seed_of, lookup_or. destruct (_ !! 1); [done|]. by intros [= <-].
Qed.

(** C1 (as the code behaves): both seed lists are computed from the
    reaction-history files, so the comparison can never fail; a folder
    whose reaction files carry seed 1 and whose time files carry seed 2 is
    accepted. *)
Theorem init_accepts_mismatched_seeds :
  (∀ listing, SimulationAnalyzer_init listing ≠ Raise seed_error)
  ∧ seeds_of "reactions" ["reactions_1"; "times_2"] = Ok ["1"]
  ∧ seeds_of "times" ["reactions_1"; "times_2"] = Ok ["2"]
  ∧ SimulationAnalyzer_init ["reactions_1"; "times_2"]
    = Ok (["reactions_1"], ["times_2"]).
Proof.
  split; [|by vm_compute].
  intros listing. unfold SimulationAnalyzer_init.
  destruct (mapM seed_of _) as [seeds|e|] eqn:Hseeds; cbn; [| |done].
  - by rewrite decide_False by (by intros []).
  - apply mapM_Raise in Hseeds as (x & _ & ->%seed_of_Raise). done.
Qed.

End LoaderFacts.


(** ** Insertion-ordered dictionaries *)

Module Dict.

Section Dict.
Context {K V : Type} `{EqDecision K}.

(** [d[k]] / [d.get(k)] *)
Fixpoint get (k : K) (d : list (K * V)) : option V :=
  match d with
  | [] => None
  | (k', v) :: d' => if decide (k' = k) then Some v else get k d'
  end.

(** [d[k] = v]: an existing key keeps its position. *)
Fixpoint set (k : K) (v : V) (d : list (K * V)) : list (K * V) :=
  match d with
  | [] => [(k, v)]
  | (k', v') :: d' =>
      if decide (k' = k) then (k', v) :: d' else (k', v') :: set k v d'
  end.

(** [f] applied in place to [d.setdefault(k, dflt)]. *)
Fixpoint update (k : K) (dflt : V) (f : V → V) (d : list (K * V))
    : list (K * V) :=
  match d with
  | [] => [(k, f dflt)]
  | (k', v) :: d' =>
      if decide (k' = k) then (k', f v) :: d' else (k', v) :: update k dflt f d'
  end.

(** A dictionary has one value per key; [Q] holds of every item. *)
Definition wf (Q : K → V → Prop) (d : list (K * V)) : Prop :=
  NoDup d.*1 ∧ ∀ k v, (k, v) ∈ d → Q k v.

End Dict.

End Dict.

(** ** Bucketing of molecule entries ([reactions.py]) *)

Module Bucket.
Import MolEntry.

Section Bucket.
Context {Graph : Type}.
Abbreviation Entry := (MoleculeEntry Graph).

(** [MappingDict]: [bucket[formula][num_bonds][charge] = [entries]]. *)
Definition MappingDict : Type :=
  list (string * list (Z * list (Z * list Entry))).

(** The loop body of [bucket_mol_entries] for the default
    [keys = ["formula", "num_bonds", "charge"]]. *)
Definition bucket_insert (buckets : MappingDict) (m : Entry) : MappingDict :=
  Dict.update (formula m) []
    (Dict.update (num_bonds m) []
       (Dict.update (charge m) [] (λ l, l ++ [m])))
    buckets.

Definition bucket_mol_entries (entries : list Entry) : MappingDict :=
  foldl bucket_insert [] entries.

(** [unbucket_mol_entries]: the leaf lists in key traversal order. *)
Definition unbucket_mol_entries (entries : MappingDict) : list Entry :=
  by_formula ← entries;
  by_bonds ← by_formula.2;
  by_charge ← by_bonds.2;
  by_charge.2.

(** The bucket an entry lands in. *)
Definition bucket_key (m : Entry) : string * Z * Z :=
  (formula m, num_bonds m, charge m).

(** A well-formed bucket dictionary: one item per key at every level, and
    every entry filed under its own formula, bond count and charge. *)
Definition wf_charges (f : string) (n : Z) (by_charge : list (Z * list Entry))
    : Prop :=
  Dict.wf (λ c l, ∀ m, m ∈ l → bucket_key m = (f, n, c)) by_charge.

Definition wf_bonds (f : string) (by_bonds : list (Z * list (Z * list Entry)))
    : Prop :=
  Dict.wf (wf_charges f) by_bonds.

Definition wf_bucket (entries : MappingDict) : Prop :=
  Dict.wf wf_bonds entries.

End Bucket.

End Bucket.

Section DictFacts.
Context {K V E : Type} `{EqDecision K}.
Variable g : V → list E.

(** The items of a dictionary flattened through [g]. *)
Definition flatten (d : list (K * V)) : list E := kv ← d; g kv.2.

Lemma flatten_cons k v d : flatten ((k, v) :: d) = g v ++ flatten d.
Proof. done. Qed.

Lemma update_wf (Q : K → V → Prop) k dflt f d :
  Dict.wf Q d →
  (∀ v, Q k v ∨ v = dflt → Q k (f v)) →
  Dict.wf Q (Dict.update k dflt f d).
Proof.
  intros [Hnodup HQ] Hf. induction d as [|[k' v] d IH]; simpl.
  - split; [apply NoDup_singleton|].
    intros k1 v1 [= -> ->]%list_elem_of_singleton. auto.
  - apply NoDup_cons in Hnodup as [Hk' Hnodup].
    destruct IH as [IHnodup IHQ]; [done|by intros; apply HQ; right|].
    case_decide as Hk; [subst k'|].
    + split; [by apply NoDup_cons|].
      intros k1 v1 [[= -> ->]|Hin]%elem_of_cons.
      * apply Hf. left. apply HQ. by left.
      * apply HQ. by right.
    + split.
      * simpl. apply NoDup_cons. split; [|done].
        intros Hin. apply Hk'. clear -Hin Hk.
        induction d as [|[k2 v2] d IHd]; simpl in *.
        -- apply list_elem_of_singleton in Hin. congruence.
        -- case_decide; simpl in *; [done|].
           apply elem_of_cons in Hin as [->|Hin]; [by left|right; auto].
      * intros k1 v1 [[= -> ->]|Hin]%elem_of_cons; [|by apply IHQ].
        apply HQ. by left.
Qed.

Lemma flatten_update_perm k dflt f d (m : E) :
  g dflt = [] →
  (∀ v, g (f v) ≡ₚ g v ++ [m]) →
  flatten (Dict.update k dflt f d) ≡ₚ flatten d ++ [m].
Proof.
  intros Hdflt Hf. induction d as [|[k' v] d IH]; cbn [Dict.update].
  - by rewrite flatten_cons, Hf, Hdflt.
  - case_decide; rewrite !flatten_cons.
    + rewrite Hf. rewrite <-!(assoc_L (++)).
      f_equiv. apply Permutation_app_comm.
    + by rewrite IH, (assoc_L (++)).
Qed.

Lemma filter_flatten_other (P : E → Prop) `{∀ x, Decision (P x)}
    (Q : K → V → Prop) k d :
  (∀ k' v, Q k' v → k' ≠ k → filter P (g v) = []) →
  (∀ k' v, (k', v) ∈ d → Q k' v) →
  k ∉ d.*1 →
  filter P (flatten d) = [].
Proof.
  intros Hother HQ. induction d as [|[k' v] d IH]; [done|].
  rewrite fmap_cons, not_elem_of_cons; cbn [fst]. intros [Hne Hnotin].
  rewrite flatten_cons, filter_app.
  rewrite (Hother k' v), IH; [done| |done|by apply HQ; left|done].
  intros; apply HQ; by right.
Qed.

Lemma flatten_update_filter (P : E → Prop) `{∀ x, Decision (P x)}
    (Q : K → V → Prop) k dflt f d (extra : list E) :
  g dflt = [] →
  (∀ v, Q k v ∨ v = dflt → filter P (g (f v)) = filter P (g v) ++ extra) →
  (extra ≠ [] → ∀ k' v, Q k' v → k' ≠ k → filter P (g v) = []) →
  Dict.wf Q d →
  filter P (flatten (Dict.update k dflt f d)) = filter P (flatten d) ++ extra.
Proof.
  intros Hdflt Hf Hother [Hnodup HQ].
  induction d as [|[k' v] d IH]; cbn [Dict.update].
  - rewrite flatten_cons, filter_app, Hf, Hdflt by auto.
    change (flatten []) with (@nil E). rewrite !filter_nil.
    by rewrite (right_id_L [] (++)).
  - rewrite fmap_cons in Hnodup. apply NoDup_cons in Hnodup as [Hk' Hnodup].
    simpl in Hk'.
    case_decide as Hk; [subst k'|]; rewrite !flatten_cons, !filter_app.
    + rewrite Hf by (left; apply HQ; by left).
      rewrite <-!(assoc_L (++)). f_equal.
      destruct (decide (extra = [])) as [->|Hextra];
        [by rewrite (right_id_L [] (++))|].
      rewrite (filter_flatten_other P Q k d);
        [by rewrite (right_id_L [] (++))|by apply Hother| |done].
      intros; apply HQ; by right.
    + rewrite IH; [by rewrite (assoc_L (++))|done|].
      intros; apply HQ; by right.
Qed.

End DictFacts.

(** ** Theorems about bucketing *)

Section BucketFacts.
Import MolEntry Bucket.
Context {Graph : Type}.
Implicit Types (m : MoleculeEntry Graph) (xs : list (MoleculeEntry Graph)).
Implicit Types (b : @MappingDict Graph) (key : string * Z * Z).

Lemma unbucket_flatten b :
  unbucket_mol_entries b = flatten (flatten (flatten (λ l, l))) b.
Proof. done. Qed.

Lemma wf_empty {K V} (Q : K → V → Prop) : Dict.wf Q [].
Proof. split; [constructor|]. by intros k v ?%elem_of_nil. Qed.

Lemma bucket_insert_wf b m : wf_bucket b → wf_bucket (bucket_insert b m).
Proof.
  intros Hwf. apply update_wf; [done|].
  intros by_bonds Hbonds. apply update_wf.
  { destruct Hbonds as [?| ->]; [done|apply wf_empty]. }
  intros by_charge Hcharge. apply update_wf.
  { destruct Hcharge as [?| ->]; [done|apply wf_empty]. }
  intros l Hl x [Hx| ->%list_elem_of_singleton]%elem_of_app; [|done].
  destruct Hl as [Hl| ->]; [by apply Hl|by apply elem_of_nil in Hx].
Qed.

Lemma bucket_insert_perm b m :
  unbucket_mol_entries (bucket_insert b m) ≡ₚ unbucket_mol_entries b ++ [m].
Proof.
  rewrite !unbucket_flatten. unfold bucket_insert.
  apply flatten_update_perm; [done|]. intros by_bonds.
  apply flatten_update_perm; [done|]. intros by_charge.
  apply flatten_update_perm; [done|]. by intros l.
Qed.

Lemma bucket_insert_filter b m key :
  wf_bucket b →
  filter (λ x, bucket_key x = key) (unbucket_mol_entries (bucket_insert b m))
  = filter (λ x, bucket_key x = key) (unbucket_mol_entries b)
    ++ (if decide (bucket_key m = key) then [m] else []).
Proof.
  intros Hwf. rewrite !unbucket_flatten. unfold bucket_insert.
  set (P := λ x : MoleculeEntry Graph, bucket_key x = key).
  set (extra := if decide (bucket_key m = key) then [m] else []).
  assert (extra ≠ [] → bucket_key m = key) as Hextra.
  { unfold extra. by case_decide. }
  assert (∀ l : list (MoleculeEntry Graph),
            Forall (λ x, bucket_key x ≠ key) l → filter P l = []) as Hnone.
  { intros l Hl. induction Hl as [|x l Hx _ IH]; [done|].
    rewrite filter_cons. by rewrite decide_False. }
  apply (flatten_update_filter _ P wf_bonds); [done| | |done].
  2:{ intros Hne f' by_bonds Hbonds Hf'. apply Hnone, Forall_forall.
      intros x Hx Hkey. apply Hf'.
      apply list_elem_of_bind in Hx as ([n by_charge] & Hx & Hin1).
      apply list_elem_of_bind in Hx as ([c l] & Hx & Hin2).
      destruct Hbonds as [_ Hb]. destruct (Hb _ _ Hin1) as [_ Hc].
      pose proof (Hc _ _ Hin2 _ Hx) as Hk.
      rewrite <-(Hextra Hne) in Hkey. unfold bucket_key in *. congruence. }
  intros by_bonds Hbonds.
  apply (flatten_update_filter _ P (wf_charges (formula m))); [done| | |].
  3:{ destruct Hbonds as [?| ->]; [done|apply wf_empty]. }
  2:{ intros Hne n' by_charge Hcharge Hn'. apply Hnone, Forall_forall.
      intros x Hx Hkey. apply Hn'.
      apply list_elem_of_bind in Hx as ([c l] & Hx & Hin2).
      destruct Hcharge as [_ Hc]. pose proof (Hc _ _ Hin2 _ Hx) as Hk.
      rewrite <-(Hextra Hne) in Hkey. unfold bucket_key in *. congruence. }
  intros by_charge Hcharge.
  apply (flatten_update_filter _ P
           (λ c l, ∀ x, x ∈ l → bucket_key x = (formula m, num_bonds m, c)));
    [done| | |].
  3:{ destruct Hcharge as [?| ->]; [done|apply wf_empty]. }
  2:{ intros Hne c' l Hl Hc'. apply Hnone, Forall_forall.
      intros x Hx Hkey. apply Hc'. pose proof (Hl _ Hx) as Hk.
      rewrite <-(Hextra Hne) in Hkey. unfold bucket_key in *. congruence. }
  intros l _. rewrite filter_app. f_equal.
Qed.

Lemma bucket_foldl_wf xs : ∀ b,
  wf_bucket b → wf_bucket (foldl bucket_insert b xs).
Proof.
  induction xs as [|m xs IH]; intros b Hwf; [done|].
  simpl. by apply IH, bucket_insert_wf.
Qed.

Lemma bucket_mol_entries_wf xs : wf_bucket (bucket_mol_entries xs).
Proof. apply bucket_foldl_wf, wf_empty. Qed.

Lemma bucket_foldl_perm xs : ∀ b,
  unbucket_mol_entries (foldl bucket_insert b xs)
  ≡ₚ unbucket_mol_entries b ++ xs.
Proof.
  induction xs as [|m xs IH]; intros b; simpl.
  - by rewrite (right_id_L [] (++)).
  - rewrite IH, bucket_insert_perm. by rewrite <-(assoc_L (++)).
Qed.

Lemma bucket_foldl_filter key xs : ∀ b,
  wf_bucket b →
  filter (λ x, bucket_key x = key)
    (unbucket_mol_entries (foldl bucket_insert b xs))
  = filter (λ x, bucket_key x = key) (unbucket_mol_entries b)
    ++ filter (λ x, bucket_key x = key) xs.
Proof.
  induction xs as [|m xs IH]; intros b Hwf; simpl.
  - by rewrite filter_nil, (right_id_L [] (++)).
  - rewrite IH by (by apply bucket_insert_wf).
    rewrite bucket_insert_filter by done.
    rewrite <-(assoc_L (++)). f_equal. rewrite filter_cons. by case_decide.
Qed.

(** C8: un-bucketing a bucketed singleton gives the singleton back;
    un-bucketing a bucketed list gives a permutation of the list in which
    the entries of each (formula, num_bonds, charge) leaf appear in their
    original relative order. *)
Theorem unbucket_bucket_spec :
  (∀ m, unbucket_mol_entries (bucket_mol_entries [m]) = [m])
  ∧ (∀ xs,
       unbucket_mol_entries (bucket_mol_entries xs) ≡ₚ xs
       ∧ ∀ key,
           filter (λ x, bucket_key x = key)
             (unbucket_mol_entries (bucket_mol_entries xs))
           = filter (λ x, bucket_key x = key) xs).
Proof.
  split; [done|]. intros xs. split.
  - unfold bucket_mol_entries. by rewrite bucket_foldl_perm.
  - intros key. unfold bucket_mol_entries.
    by rewrite bucket_foldl_filter by apply wf_empty.
Qed.

End BucketFacts.


(** ** Reaction archetypes ([reactions.py]) *)

Module Reactions.
Import MolEntry.

Section Reactions.
Context {Graph : Type}.
Abbreviation Entry := (MoleculeEntry Graph).

(** [mrnet.utils.mols.mol_free_energy(energy, enthalpy, entropy, temp)]
    is defined outside the modelled files: the free energy of a molecule
    at a temperature, or [None]. *)
Variable mol_free_energy : option R → option R → option R → R → option R.

(** [networkx]'s [GraphMatcher]: the isomorphism test on two bonding
    graphs, and the node mapping it found. *)
Variable GM_is_isomorphic : Graph → Graph → bool.
Variable GM_mapping : Graph → Graph → list (Z * Z).

(** An atom mapping [{atom_index: atom_mapping_number}]. *)
Definition Atom_Mapping_Dict : Type := list (Z * Z).

(** The attributes every reaction object carries: those set by
    [Reaction.__init__] and those set by the [reaction_type], [energy] and
    [free_energy] methods of the subclasses. An attribute that has not
    been assigned yet reads as [None]. *)
Record Base := mkBase {
  reactants : list Entry;
  products : list Entry;
  rct_atom_mapping : option (list Atom_Mapping_Dict);
  pro_atom_mapping : option (list Atom_Mapping_Dict);
  rxn_type_A : string;
  rxn_type_B : string;
  energy_A : option R;
  energy_B : option R;
  base_free_energy_A : option R;
  base_free_energy_B : option R;
  free_energy_A : option R;
  free_energy_B : option R
}.

Definition rct_ids (b : Base) : list string := entry_id <$> reactants b.
Definition pro_ids (b : Base) : list string := entry_id <$> products b.
Definition rct_indices (b : Base) : list Z := ind <$> reactants b.
Definition pro_indices (b : Base) : list Z := ind <$> products b.

Definition set_rxn_type (ab : string * string) (b : Base) : Base :=
  mkBase (reactants b) (products b) (rct_atom_mapping b) (pro_atom_mapping b)
    ab.1 ab.2 (energy_A b) (energy_B b)
    (base_free_energy_A b) (base_free_energy_B b)
    (free_energy_A b) (free_energy_B b).

Definition set_energy (ab : option R * option R) (b : Base) : Base :=
  mkBase (reactants b) (products b) (rct_atom_mapping b) (pro_atom_mapping b)
    (rxn_type_A b) (rxn_type_B b) ab.1 ab.2
    (base_free_energy_A b) (base_free_energy_B b)
    (free_energy_A b) (free_energy_B b).

Definition set_base_free_energy (ab : option R * option R) (b : Base) : Base :=
  mkBase (reactants b) (products b) (rct_atom_mapping b) (pro_atom_mapping b)
    (rxn_type_A b) (rxn_type_B b) (energy_A b) (energy_B b)
    ab.1 ab.2 (free_energy_A b) (free_energy_B b).

Definition set_free_energy (ab : option R * option R) (b : Base) : Base :=
  mkBase (reactants b) (products b) (rct_atom_mapping b) (pro_atom_mapping b)
    (rxn_type_A b) (rxn_type_B b) (energy_A b) (energy_B b)
    (base_free_energy_A b) (base_free_energy_B b) ab.1 ab.2.

(** The molecule attributes a reaction stores for one participant:
    [*_energy], [*_enthalpy], [*_entropy]. *)
Record Thermo := mkThermo {
  th_energy : option R;
  th_enthalpy : option R;
  th_entropy : option R
}.

Definition thermo_of (e : Entry) : Thermo :=
  mkThermo (Some (energy e)) (enthalpy e) (entropy e).

Definition thermo_free_energy (t : Thermo) (temperature : R) : option R :=
  mol_free_energy (th_energy t) (th_enthalpy t) (th_entropy t) temperature.

(** The reaction classes. *)
Inductive Reaction :=
  | RedoxReaction (b : Base) (rct pro : Thermo)
      (electron_free_energy : option R)
  | IntramolSingleBondChangeReaction (b : Base) (rct pro : Thermo)
  | IntermolecularReaction (b : Base) (rct pro0 pro1 : Thermo)
  | CoordinationBondChangeReaction (b : Base) (rct pro0 pro1 : Thermo)
  | ConcertedReaction (b : Base) (rct pro : list Thermo)
      (rct_charge pro_charge : Z) (electron_free_energy : option R).

Definition base_of (r : Reaction) : Base :=
  match r with
  | RedoxReaction b _ _ _ => b
  | IntramolSingleBondChangeReaction b _ _ => b
  | IntermolecularReaction b _ _ _ => b
  | CoordinationBondChangeReaction b _ _ _ => b
  | ConcertedReaction b _ _ _ _ _ => b
  end.

Definition with_base (b : Base) (r : Reaction) : Reaction :=
  match r with
  | RedoxReaction _ rct pro efe => RedoxReaction b rct pro efe
  | IntramolSingleBondChangeReaction _ rct pro =>
      IntramolSingleBondChangeReaction b rct pro
  | IntermolecularReaction _ rct pro0 pro1 =>
      IntermolecularReaction b rct pro0 pro1
  | CoordinationBondChangeReaction _ rct pro0 pro1 =>
      CoordinationBondChangeReaction b rct pro0 pro1
  | ConcertedReaction _ rct pro rc pc efe =>
      ConcertedReaction b rct pro rc pc efe
  end.

(** *** [energy] *)

(** [np.sum] of a list of floats; adding [None] raises. *)
Definition np_sum (l : list (option R)) : outcome R :=
  for_each (λ acc x, match x with
                     | Some v => Ok (acc + v)%R
                     | None => Raise TypeError
                     end) 0%R l.

Definition is_None {A} (o : option A) : bool :=
  match o with None => true | Some _ => false end.

(** [RedoxReaction.energy], [IntramolSingleBondChangeReaction.energy] *)
Definition energy_1_1 (rct pro : Thermo) : option R * option R :=
  match th_energy pro, th_energy rct with
  | Some pro_energy, Some rct_energy =>
      (Some (pro_energy - rct_energy)%R, Some (rct_energy - pro_energy)%R)
  | _, _ => (None, None)
  end.

(** [IntermolecularReaction.energy],
    [CoordinationBondChangeReaction.energy] *)
Definition energy_1_2 (rct pro0 pro1 : Thermo) : option R * option R :=
  match th_energy pro1, th_energy pro0, th_energy rct with
  | Some pro1_energy, Some pro0_energy, Some rct_energy =>
      (Some (pro0_energy + pro1_energy - rct_energy)%R,
       Some (rct_energy - pro0_energy - pro1_energy)%R)
  | _, _, _ => (None, None)
  end.

(** [ConcertedReaction.energy]: the totals are taken when every stored
    energy [is None]. *)
Definition energy_concerted (rct pro : list Thermo)
    : outcome (option R * option R) :=
  if forallb is_None (th_energy <$> rct)
     && forallb is_None (th_energy <$> pro)
  then
    reactant_total_energy ← np_sum (th_energy <$> rct);
    product_total_energy ← np_sum (th_energy <$> pro);
    Ok (Some (product_total_energy - reactant_total_energy)%R,
        Some (reactant_total_energy - product_total_energy)%R)
  else Ok (None, None).

(** The [energy()] method. *)
Definition energy_method (r : Reaction) : outcome Reaction :=
  match r with
  | RedoxReaction b rct pro _
  | IntramolSingleBondChangeReaction b rct pro =>
      Ok (with_base (set_energy (energy_1_1 rct pro) b) r)
  | IntermolecularReaction b rct pro0 pro1
  | CoordinationBondChangeReaction b rct pro0 pro1 =>
      Ok (with_base (set_energy (energy_1_2 rct pro0 pro1) b) r)
  | ConcertedReaction b rct pro _ _ _ =>
      ab ← energy_concerted rct pro;
      Ok (with_base (set_energy ab b) r)
  end.

(** *** [free_energy] *)

(** The values [free_energy_A], [free_energy_B] computed by the method
    bodies. *)
Definition free_energy_1_1 (rct pro : Thermo) (temperature : R)
    : option R * option R :=
  match thermo_free_energy rct temperature,
        thermo_free_energy pro temperature with
  | Some rct_free_energy, Some pro_free_energy =>
      (Some (pro_free_energy - rct_free_energy)%R,
       Some (rct_free_energy - pro_free_energy)%R)
  | _, _ => (None, None)
  end.

Definition free_energy_redox (rxn_type_A : string) (rct pro : Thermo)
    (electron_free_energy : option R) (temperature : R)
    : outcome (option R * option R) :=
  match free_energy_1_1 rct pro temperature with
  | (Some a, Some b) =>
      efe ← lookup_or TypeError electron_free_energy;
      if decide (rxn_type_A = "One electron reduction")
      then Ok (Some (a + - efe)%R, Some (b + efe)%R)
      else Ok (Some (a + efe)%R, Some (b + - efe)%R)
  | _ => Ok (None, None)
  end.

Definition free_energy_1_2 (rct pro0 pro1 : Thermo) (temperature : R)
    : option R * option R :=
  match thermo_free_energy rct temperature,
        thermo_free_energy pro0 temperature,
        thermo_free_energy pro1 temperature with
  | Some rct_free_energy, Some pro0_free_energy, Some pro1_free_energy =>
      (Some (pro0_free_energy + pro1_free_energy - rct_free_energy)%R,
       Some (rct_free_energy - pro0_free_energy - pro1_free_energy)%R)
  | _, _, _ => (None, None)
  end.

Definition free_energy_concerted (rct pro : list Thermo)
    (rct_charge pro_charge : Z) (electron_free_energy : option R)
    (temperature : R) : outcome (option R * option R) :=
  let electron_free := default 0%R electron_free_energy in
  let rct_free_energies := (λ t, thermo_free_energy t temperature) <$> rct in
  let pro_free_energies := (λ t, thermo_free_energy t temperature) <$> pro in
  let cond_rct := forallb (λ el, negb (is_None el)) rct_free_energies in
  let cond_pro := forallb (λ el, negb (is_None el)) pro_free_energies in
  if cond_rct && cond_pro then
    reactant_free_energy ← np_sum rct_free_energies;
    product_free_energy ← np_sum pro_free_energies;
    let total_charge_change := (pro_charge - rct_charge)%Z in
    Ok (Some (product_free_energy - reactant_free_energy
              + IZR total_charge_change * electron_free)%R,
        Some (reactant_free_energy - product_free_energy
              - IZR total_charge_change * electron_free)%R)
  else Ok (None, None).

(** The frame shared by the [free_energy] methods: at 298.15 K the values
    memoised in [base_free_energy_A/B] are used when both are present, and
    freshly computed values are memoised otherwise. Every class but
    [ConcertedReaction] returns right after copying the memoised values;
    [ConcertedReaction] goes on to recompute. *)
Definition free_energy_frame (returns_cached : bool) (temperature : R)
    (compute : outcome (option R * option R)) (b : Base) : outcome Base :=
  let at_reference := bool_decide (temperature = 298.15%R) in
  let cached :=
    negb (is_None (base_free_energy_A b))
    && negb (is_None (base_free_energy_B b)) in
  let set_base := at_reference && negb cached in
  let b0 :=
    if at_reference && cached
    then set_free_energy (base_free_energy_A b, base_free_energy_B b) b
    else b in
  if at_reference && cached && returns_cached then Ok b0
  else
    ab ← compute;
    let b1 := set_free_energy ab b0 in
    Ok (if set_base then set_base_free_energy ab b1 else b1).

(** The [free_energy(temperature)] method. *)
Definition free_energy_method (temperature : R) (r : Reaction)
    : outcome Reaction :=
  match r with
  | RedoxReaction b rct pro efe =>
      b' ← free_energy_frame true temperature
             (free_energy_redox (rxn_type_A b) rct pro efe temperature) b;
      Ok (with_base b' r)
  | IntramolSingleBondChangeReaction b rct pro =>
      b' ← free_energy_frame true temperature
             (Ok (free_energy_1_1 rct pro temperature)) b;
      Ok (with_base b' r)
  | IntermolecularReaction b rct pro0 pro1
  | CoordinationBondChangeReaction b rct pro0 pro1 =>
      b' ← free_energy_frame true temperature
             (Ok (free_energy_1_2 rct pro0 pro1 temperature)) b;
      Ok (with_base b' r)
  | ConcertedReaction b rct pro rct_charge pro_charge efe =>
      b' ← free_energy_frame false temperature
             (free_energy_concerted rct pro rct_charge pro_charge efe
                temperature) b;
      Ok (with_base b' r)
  end.

(** *** Constructors *)

(** [Reaction.__init__] *)
Definition Reaction_init (reactants products : list Entry)
    (reactants_atom_mapping products_atom_mapping
       : option (list Atom_Mapping_Dict)) : Base :=
  mkBase reactants products reactants_atom_mapping products_atom_mapping
    "" "" None None None None None None.

(** [RedoxReaction.reaction_type] *)
Definition redox_reaction_type (reactant product : Entry) : string * string :=
  if bool_decide (charge product < charge reactant)%Z
  then ("One electron reduction", "One electron oxidation")
  else ("One electron oxidation", "One electron reduction").

(** [RedoxReaction.__init__] *)
Definition RedoxReaction_init (reactant product : Entry)
    (electron_free_energy : option R)
    (reactant_atom_mapping product_atom_mapping : option Atom_Mapping_Dict)
    : outcome Reaction :=
  let rcts_mp := (λ mp, [mp]) <$> reactant_atom_mapping in
  let prdts_mp := (λ mp, [mp]) <$> product_atom_mapping in
  let b := Reaction_init [reactant] [product] rcts_mp prdts_mp in
  let b := set_rxn_type (redox_reaction_type reactant product) b in
  let r := RedoxReaction b (thermo_of reactant) (thermo_of product)
             electron_free_energy in
  r ← energy_method r;
  if is_None electron_free_energy then Ok r
  else free_energy_method 298.15 r.

(** [IntramolSingleBondChangeReaction.reaction_type] *)
Definition intramol_reaction_type (reactant product : Entry)
    : string * string :=
  if bool_decide (charge product < charge reactant)%Z
  then ("Intramolecular single bond breakage",
        "Intramolecular single bond formation")
  else ("Intramolecular single bond formation",
        "Intramolecular single bond breakage").

(** [IntramolSingleBondChangeReaction.__init__] (without a transition
    state). *)
Definition IntramolSingleBondChangeReaction_init (reactant product : Entry)
    (reactant_atom_mapping product_atom_mapping : option Atom_Mapping_Dict)
    : outcome Reaction :=
  let rcts_mp := (λ mp, [mp]) <$> reactant_atom_mapping in
  let prdts_mp := (λ mp, [mp]) <$> product_atom_mapping in
  let b := Reaction_init [reactant] [product] rcts_mp prdts_mp in
  let b := set_rxn_type (intramol_reaction_type reactant product) b in
  r ← energy_method
        (IntramolSingleBondChangeReaction b
           (thermo_of reactant) (thermo_of product));
  free_energy_method 298.15 r.

(** [IntermolecularReaction.__init__]; [product] is a list whose first
    two items are used. *)
Definition IntermolecularReaction_init (reactant : Entry)
    (product : list Entry)
    (reactant_atom_mapping : option Atom_Mapping_Dict)
    (products_atom_mapping : option (list Atom_Mapping_Dict))
    : outcome Reaction :=
  product_0 ← lookup_or IndexError (product !! 0);
  product_1 ← lookup_or IndexError (product !! 1);
  let rcts_mp := (λ mp, [mp]) <$> reactant_atom_mapping in
  let b := Reaction_init [reactant] [product_0; product_1]
             rcts_mp products_atom_mapping in
  let b := set_rxn_type
             ("Molecular decomposition breaking one bond A -> B+C",
              "Molecular formation from one new bond A+B -> C") b in
  r ← energy_method
        (IntermolecularReaction b (thermo_of reactant)
           (thermo_of product_0) (thermo_of product_1));
  free_energy_method 298.15 r.

(** [CoordinationBondChangeReaction.__init__] *)
Definition CoordinationBondChangeReaction_init (reactant : Entry)
    (product : list Entry)
    (reactant_atom_mapping : option Atom_Mapping_Dict)
    (products_atom_mapping : option (list Atom_Mapping_Dict))
    : outcome Reaction :=
  product_0 ← lookup_or IndexError (product !! 0);
  product_1 ← lookup_or IndexError (product !! 1);
  let rcts_mp := (λ mp, [mp]) <$> reactant_atom_mapping in
  let b := Reaction_init [reactant] [product_0; product_1]
             rcts_mp products_atom_mapping in
  let b := set_rxn_type ("Coordination bond breaking AM -> A+M",
                         "Coordination bond forming A+M -> AM") b in
  r ← energy_method
        (CoordinationBondChangeReaction b (thermo_of reactant)
           (thermo_of product_0) (thermo_of product_1));
  free_energy_method 298.15 r.

(** [ConcertedReaction.__init__]; it does not call [free_energy]. *)
Definition ConcertedReaction_init (reactant product : list Entry)
    (electron_free_energy : option R) : outcome Reaction :=
  let b := Reaction_init reactant product None None in
  let b := set_rxn_type ("Concerted", "Concerted") b in
  energy_method
    (ConcertedReaction b (thermo_of <$> reactant) (thermo_of <$> product)
       (foldr Z.add 0%Z (charge <$> reactant))
       (foldr Z.add 0%Z (charge <$> product))
       electron_free_energy).

(** [ConcertedReaction.swap_elements] *)
Definition swap_base (b : Base) : Base :=
  mkBase (products b) (reactants b) (pro_atom_mapping b) (rct_atom_mapping b)
    (rxn_type_A b) (rxn_type_B b) (energy_A b) (energy_B b)
    (base_free_energy_B b) (base_free_energy_A b)
    (free_energy_A b) (free_energy_B b).

Definition swap_elements (r : Reaction) : Reaction :=
  match r with
  | ConcertedReaction b rct pro rct_charge pro_charge efe =>
      ConcertedReaction (swap_base b) pro rct pro_charge rct_charge efe
  | _ => r
  end.

(** *** Enumeration of redox reactions *)

(** [is_isomorphic(g1, g2)] *)
Definition is_isomorphic (g1 g2 : Graph) : bool * option (list (Z * Z)) :=
  if GM_is_isomorphic g1 g2 then (true, Some (GM_mapping g1 g2))
  else (false, None).

(** [generate_atom_mapping_1_1(node_mapping)]; iterating over [None]
    raises. *)
Definition generate_atom_mapping_1_1 (node_mapping : option (list (Z * Z)))
    : outcome (Atom_Mapping_Dict * Atom_Mapping_Dict) :=
  node_mapping ← lookup_or TypeError node_mapping;
  let reactant_atom_mapping :=
    foldl (λ d kv, Dict.set kv.1 kv.1 d) [] node_mapping in
  let product_atom_mapping :=
    foldl (λ d kv, Dict.set kv.2 kv.1 d) [] node_mapping in
  Ok (reactant_atom_mapping, product_atom_mapping).

(** [Mapping_Family_Dict] as [RedoxReaction.generate] fills it:
    [families[formula][charge] = [reactions]]. *)
Definition Families : Type := list (string * list (Z * list Reaction)).

(** The state of the loops of [generate]: [(reactions, families)]. *)
Definition GenState : Type := list Reaction * Families.

(** The body of [for entry1 in entries[formula][Nbonds][charge1]]. *)
Definition generate_pair (formula : string) (charge0 : Z) (entry0 : Entry)
    (st : GenState) (entry1 : Entry) : outcome GenState :=
  let '(isomorphic, node_mapping) :=
    is_isomorphic (graph entry0) (graph entry1) in
  if isomorphic then
    '(rct_mp, prdt_mp) ← generate_atom_mapping_1_1 node_mapping;
    r ← RedoxReaction_init entry0 entry1 None (Some rct_mp) (Some prdt_mp);
    by_charge ← lookup_or KeyError (Dict.get formula st.2);
    family ← lookup_or KeyError (Dict.get charge0 by_charge);
    Ok (st.1 ++ [r],
        Dict.set formula (Dict.set charge0 (family ++ [r]) by_charge) st.2)
  else Ok st.

(** The body of [for ii in range(len(charges) - 1)]. *)
Definition generate_charges (formula : string)
    (by_charge : list (Z * list Entry)) (st : GenState) (cc : Z * Z)
    : outcome GenState :=
  let '(charge0, charge1) := cc in
  if bool_decide (charge1 - charge0 = 1)%Z then
    entries0 ← lookup_or KeyError (Dict.get charge0 by_charge);
    for_each (λ st entry0,
                entries1 ← lookup_or KeyError (Dict.get charge1 by_charge);
                for_each (generate_pair formula charge0 entry0) st entries1)
             st entries0
  else Ok st.

(** The body of [for Nbonds in entries[formula]]. *)
Definition generate_bonds (formula : string) (st : GenState)
    (item : Z * list (Z * list Entry)) : outcome GenState :=
  let by_charge := item.2 in
  let charges := merge_sort Z.le by_charge.*1 in
  families_formula ← lookup_or KeyError (Dict.get formula st.2);
  let families_formula :=
    foldl (λ d charge, Dict.set charge [] d) families_formula charges in
  let st := (st.1, Dict.set formula families_formula st.2) in
  if bool_decide (1 < length charges)%nat then
    for_each (generate_charges formula by_charge) st
      (zip charges (drop 1 charges))
  else Ok st.

(** The body of [for formula in entries]. *)
Definition generate_formula (st : GenState)
    (item : string * list (Z * list (Z * list Entry))) : outcome GenState :=
  let formula := item.1 in
  let st := (st.1, Dict.set formula [] st.2) in
  for_each (generate_bonds formula) st item.2.

(** [RedoxReaction.generate(entries)] *)
Definition RedoxReaction_generate
    (entries : list (string * list (Z * list (Z * list Entry))))
    : outcome GenState :=
  for_each generate_formula ([], []) entries.

End Reactions.

Arguments Base : clear implicits.
Arguments Reaction : clear implicits.
Arguments Families : clear implicits.
Arguments GenState : clear implicits.

End Reactions.


(** ** Facts about insertion-ordered dictionaries *)

Section DictLookupFacts.
Context {K V : Type} `{EqDecision K}.
Implicit Types (k : K) (v : V) (d : list (K * V)).

Lemma get_set_eq k v d : Dict.get k (Dict.set k v d) = Some v.
Proof.
  induction d as [|[k' v'] d IH]; simpl.
  - by rewrite decide_True.
  - case_decide as Hk; simpl; [by rewrite decide_True|].
    by rewrite decide_False.
Qed.

Lemma get_set_ne k k' v d :
  k ≠ k' → Dict.get k' (Dict.set k v d) = Dict.get k' d.
Proof.
  intros Hne. induction d as [|[k1 v1] d IH]; simpl.
  - by rewrite decide_False.
  - case_decide as Hk; simpl.
    + subst k1. by rewrite !decide_False.
    + case_decide; [done|apply IH].
Qed.

Lemma elem_of_set k v d k' v' :
  (k', v') ∈ Dict.set k v d → (k', v') = (k, v) ∨ (k', v') ∈ d.
Proof.
  induction d as [|[k1 v1] d IH]; simpl.
  - intros ->%list_elem_of_singleton. by left.
  - case_decide as Hk.
    + subst k1. intros [->|Hin]%elem_of_cons; [by left|right; by right].
    + intros [->|Hin]%elem_of_cons; [right; by left|].
      destruct (IH Hin) as [?|?]; [by left|right; by right].
Qed.

Lemma get_Some_elem k v d : Dict.get k d = Some v → (k, v) ∈ d.
Proof.
  induction d as [|[k1 v1] d IH]; simpl; [done|].
  case_decide as Hk; [intros [= ->]; subst; by left|].
  intros Hget. right. by apply IH.
Qed.

Lemma get_is_Some k d : k ∈ d.*1 → is_Some (Dict.get k d).
Proof.
  induction d as [|[k1 v1] d IH]; simpl; [by intros ?%elem_of_nil|].
  intros [->|Hin]%elem_of_cons; [by rewrite decide_True|].
  case_decide; [done|by apply IH].
Qed.

End DictLookupFacts.

(** A loop whose body cannot fail and keeps an invariant runs to the end
    and establishes the invariant. *)
Lemma for_each_invariant {A S} (Inv : S → Prop) (body : S → A → outcome S)
    (l : list A) (s : S) :
  Inv s →
  (∀ s x, x ∈ l → Inv s → ∃ s', body s x = Ok s' ∧ Inv s') →
  ∃ s', for_each body s l = Ok s' ∧ Inv s'.
Proof.
  revert s. induction l as [|x l IH]; intros s Hs Hbody; simpl.
  - by eauto.
  - destruct (Hbody s x) as (s1 & -> & Hs1); [by left|done|]. cbn.
    apply IH; [done|]. intros s2 y Hy. apply Hbody. by right.
Qed.

(** ** Theorems about the enumeration of redox reactions *)

Section RedoxFacts.
Import MolEntry Bucket Reactions.
Context {Graph : Type}.
Variable mol_free_energy : option R → option R → option R → R → option R.
Variable GM_is_isomorphic : Graph → Graph → bool.
Variable GM_mapping : Graph → Graph → list (Z * Z).

(** What the specification states of an enumerated redox reaction: one
    reactant and one product with the same formula and bond count,
    isomorphic graphs, and charges one apart. *)
Definition redox_pair (r : Reaction Graph) : Prop :=
  ∃ b rct pro efe reactant product,
    r = RedoxReaction b rct pro efe
    ∧ reactants b = [reactant] ∧ products b = [product]
    ∧ formula product = formula reactant
    ∧ num_bonds product = num_bonds reactant
    ∧ GM_is_isomorphic (graph reactant) (graph product) = true
    ∧ Z.abs (charge product - charge reactant) = 1%Z.

(** Loop invariant of [generate]: every reaction collected so far, in the
    list and in the families, is such a pair. *)
Definition all_redox (st : GenState Graph) : Prop :=
  (∀ r, r ∈ st.1 → redox_pair r)
  ∧ (∀ f d c l r, (f, d) ∈ st.2 → (c, l) ∈ d → r ∈ l → redox_pair r).

(** The family lists that the loops append to exist. *)
Definition has_families (f : string) (cs : list Z) (st : GenState Graph) : Prop :=
  ∃ fam, Dict.get f st.2 = Some fam
         ∧ ∀ c, c ∈ cs → is_Some (Dict.get c fam).

Lemma generate_pair_ok f n c0 c1 cs entry0 entry1 (st : GenState Graph) :
  bucket_key entry0 = (f, n, c0) →
  bucket_key entry1 = (f, n, c1) →
  (c1 - c0 = 1)%Z →
  c0 ∈ cs →
  all_redox st → has_families f cs st →
  ∃ st', generate_pair mol_free_energy GM_is_isomorphic GM_mapping
           f c0 entry0 st entry1 = Ok st'
         ∧ all_redox st' ∧ has_families f cs st'.
Proof.
  intros [= Hf0 Hn0 Hc0] [= Hf1 Hn1 Hc1] Hdiff Hin [Hlist Hfam]
    (fam & Hget & Hcs).
  unfold generate_pair, is_isomorphic.
  destruct (GM_is_isomorphic (graph entry0) (graph entry1)) eqn:Hiso;
    [|exists st; split; [done|split; [by split|by exists fam]]].
  cbn. rewrite Hget. cbn.
  destruct (Hcs c0 Hin) as [family Hfamily]. rewrite Hfamily. cbn.
  eexists. split; [done|].
  match goal with |- context [st.1 ++ [?x]] => set (r := x) end.
  assert (redox_pair r) as Hr.
  { eexists _, _, _, _, entry0, entry1. split; [done|].
    repeat split; simpl; try congruence. rewrite Hc0, Hc1, Hdiff. done. }
  split; [split|]; simpl.
  - intros r' [?| ->%list_elem_of_singleton]%elem_of_app; auto.
  - intros f' d c l r' [[= -> ->]|Hd]%elem_of_set Hl Hr'; [|by eauto].
    apply elem_of_set in Hl as [[= -> ->]|Hl].
    + apply elem_of_app in Hr' as [?| ->%list_elem_of_singleton]; [|done].
      eapply Hfam; [by apply get_Some_elem| |done].
      by apply get_Some_elem.
    + eapply Hfam; [by apply get_Some_elem|done..].
  - eexists. split; [apply get_set_eq|]. intros c Hc.
    destruct (decide (c0 = c)) as [->|Hne]; [by rewrite get_set_eq|].
    rewrite get_set_ne by done. by apply Hcs.
Qed.

Lemma generate_charges_ok f n by_charge cs c0 c1 (st : GenState Graph) :
  wf_charges f n by_charge →
  c0 ∈ by_charge.*1 → c1 ∈ by_charge.*1 → c0 ∈ cs →
  all_redox st → has_families f cs st →
  ∃ st', generate_charges mol_free_energy GM_is_isomorphic GM_mapping
           f by_charge st (c0, c1) = Ok st'
         ∧ all_redox st' ∧ has_families f cs st'.
Proof.
  intros [_ Hwf] Hk0 Hk1 Hin Hinv Hfam. unfold generate_charges.
  case_bool_decide as Hdiff; [|by eauto].
  destruct (get_is_Some _ _ Hk0) as [entries0 Hget0].
  destruct (get_is_Some _ _ Hk1) as [entries1 Hget1].
  rewrite Hget0. cbn.
  destruct (for_each_invariant (λ st, all_redox st ∧ has_families f cs st)
              (λ st entry0,
                 entries1 ← lookup_or KeyError (Dict.get c1 by_charge);
                 for_each (generate_pair mol_free_energy GM_is_isomorphic
                             GM_mapping f c0 entry0) st entries1)
              entries0 st) as (st' & Hrun & Hst'); [done| |by eauto].
  intros st0 entry0 Hentry0 Hst0. rewrite Hget1. cbn.
  apply for_each_invariant; [done|].
  intros st1 entry1 Hentry1 [Hinv1 Hfam1].
  eapply (generate_pair_ok f n c0 c1); try done.
  - eapply Hwf; [by apply get_Some_elem|done].
  - eapply Hwf; [by apply get_Some_elem|done].
Qed.

Lemma foldl_set_nil {A} (cs : list Z) : ∀ fam : list (Z * list A),
  (∀ c l, (c, l) ∈ foldl (λ d c, Dict.set c [] d) fam cs →
          l = [] ∨ (c, l) ∈ fam)
  ∧ (∀ c, c ∈ cs ∨ is_Some (Dict.get c fam) →
          is_Some (Dict.get c (foldl (λ d c, Dict.set c [] d) fam cs))).
Proof.
  induction cs as [|c0 cs IH]; intros fam; simpl.
  - split; [by auto|]. by intros c [?%elem_of_nil|?].
  - destruct (IH (Dict.set c0 [] fam)) as [IH1 IH2]. split.
    + intros c l [->|[[= -> ->]|?]%elem_of_set]%IH1; auto.
    + intros c Hc. apply IH2.
      destruct (decide (c0 = c)) as [->|Hne];
        [right; by rewrite get_set_eq|].
      rewrite get_set_ne by done.
      destruct Hc as [[?|?]%elem_of_cons|?]; [congruence|by left|by right].
Qed.

Lemma generate_bonds_ok f n by_charge (st : GenState Graph) :
  wf_charges f n by_charge →
  all_redox st → is_Some (Dict.get f st.2) →
  ∃ st', generate_bonds mol_free_energy GM_is_isomorphic GM_mapping
           f st (n, by_charge) = Ok st'
         ∧ all_redox st' ∧ is_Some (Dict.get f st'.2).
Proof.
  intros Hwf [Hlist Hfam] [fam Hget]. unfold generate_bonds. simpl.
  rewrite Hget. cbn.
  set (charges := merge_sort Z.le by_charge.*1).
  set (fam' := foldl (λ d c, Dict.set c [] d) fam charges).
  set (st0 := (st.1, Dict.set f fam' st.2)).
  destruct (foldl_set_nil charges fam) as [Hnil Hkeys]. fold fam' in Hnil, Hkeys.
  assert (all_redox st0) as Hinv0.
  { split; [done|]. simpl.
    intros f' d c l r [[= -> ->]|Hd]%elem_of_set Hl Hr; [|by eauto].
    apply Hnil in Hl as [->|Hl]; [by apply elem_of_nil in Hr|].
    eapply Hfam; [by apply get_Some_elem|done..]. }
  assert (has_families f charges st0) as Hfam0.
  { exists fam'. split; [apply get_set_eq|]. intros c Hc. apply Hkeys. by left. }
  assert (∀ st', all_redox st' ∧ has_families f charges st' →
                 all_redox st' ∧ is_Some (Dict.get f st'.2)) as Hweaken.
  { intros st' [? (fam1 & -> & _)]. by eauto. }
  case_bool_decide; [|by exists st0; eauto].
  destruct (for_each_invariant
              (λ st, all_redox st ∧ has_families f charges st)
              (generate_charges mol_free_energy GM_is_isomorphic GM_mapping
                 f by_charge)
              (zip charges (drop 1 charges)) st0)
    as (st' & Hrun & Hst'); [done| |by exists st'; eauto].
  intros st1 [c0 c1] Hcc [Hinv1 Hfam1].
  assert (c0 ∈ charges) as Hc0 by (by eapply elem_of_zip_l).
  assert (c1 ∈ charges) as Hc1.
  { apply elem_of_zip_r in Hcc. by eapply subseteq_drop. }
  apply (generate_charges_ok f n); try done.
  - by rewrite <-(merge_sort_Permutation Z.le).
  - by rewrite <-(merge_sort_Permutation Z.le).
Qed.

Lemma generate_formula_ok f by_bonds (st : GenState Graph) :
  wf_bonds f by_bonds →
  all_redox st →
  ∃ st', generate_formula mol_free_energy GM_is_isomorphic GM_mapping
           st (f, by_bonds) = Ok st'
         ∧ all_redox st'.
Proof.
  intros [_ Hwf] [Hlist Hfam]. unfold generate_formula. simpl.
  destruct (for_each_invariant
              (λ st, all_redox st ∧ is_Some (Dict.get f st.2))
              (generate_bonds mol_free_energy GM_is_isomorphic GM_mapping f)
              by_bonds (st.1, Dict.set f [] st.2))
    as (st' & Hrun & Hst' & _); [| |by eauto].
  - split; [|simpl; by rewrite get_set_eq]. split; [done|]. simpl.
    intros f' d c l r [[= -> ->]|Hd]%elem_of_set Hl Hr; [|by eauto].
    by apply elem_of_nil in Hl.
  - intros st1 [n by_charge] Hin [Hinv1 Hsome1].
    apply (generate_bonds_ok f n); [by apply Hwf|done..].
Qed.

(** C6: on a bucketed population, [RedoxReaction.generate] returns, and
    every reaction it returns (in the list and in the families) pairs a
    reactant and a product with the same alphabetical formula, the same
    bond count, isomorphic graphs, and charges differing by exactly 1. *)
Theorem RedoxReaction_generate_spec
    (entries : @MappingDict Graph) :
  wf_bucket entries →
  ∃ reactions families,
    RedoxReaction_generate mol_free_energy GM_is_isomorphic GM_mapping
      entries = Ok (reactions, families)
    ∧ (∀ r, r ∈ reactions → redox_pair r)
    ∧ (∀ f d c l r,
         (f, d) ∈ families → (c, l) ∈ d → r ∈ l → redox_pair r).
Proof.
  intros [_ Hwf]. unfold RedoxReaction_generate.
  destruct (for_each_invariant all_redox
              (generate_formula mol_free_energy GM_is_isomorphic GM_mapping)
              entries ([], []))
    as ([reactions families] & Hrun & Hall & Hfam).
  - split; simpl.
    + by intros r ?%elem_of_nil.
    + by intros f d c l r ?%elem_of_nil.
  - intros st [f by_bonds] Hin Hinv.
    apply generate_formula_ok; [by apply Hwf|done].
  - by exists reactions, families.
Qed.

End RedoxFacts.

(** ** Theorems about reaction energies *)

Section EnergyFacts.
Import MolEntry Reactions.
Context {Graph : Type}.
Variable mol_free_energy : option R → option R → option R → R → option R.

(** The two directions carry opposite values (or both carry none). *)
Definition opposite (a b : option R) : Prop :=
  match a, b with
  | Some x, Some y => x = (- y)%R
  | None, None => True
  | _, _ => False
  end.

(** C3 (as the code behaves): [ConcertedReaction.energy] tests whether
    the stored energies are all [None] instead of all present. For a
    concerted reaction with one reactant and one product, whose energies
    are present, the constructor leaves [energy_A] and [energy_B] at
    [None], so [energy_A == -energy_B] does not hold of it. *)
Theorem ConcertedReaction_energy_None
    (reactant product : MoleculeEntry Graph) (efe : option R) :
  ∃ b rct pro rc pc,
    ConcertedReaction_init [reactant] [product] efe
      = Ok (ConcertedReaction b rct pro rc pc efe)
    ∧ th_energy <$> rct = [Some (energy reactant)]
    ∧ th_energy <$> pro = [Some (energy product)]
    ∧ energy_A b = None ∧ energy_B b = None.
Proof. by eexists _, _, _, _, _. Qed.

Lemma energy_1_1_opposite rct pro :
  opposite (energy_1_1 rct pro).1 (energy_1_1 rct pro).2.
Proof.
  unfold energy_1_1. destruct (th_energy pro), (th_energy rct); simpl; try done.
  lra.
Qed.

Lemma energy_1_2_opposite rct pro0 pro1 :
  opposite (energy_1_2 rct pro0 pro1).1 (energy_1_2 rct pro0 pro1).2.
Proof.
  unfold energy_1_2.
  destruct (th_energy pro1), (th_energy pro0), (th_energy rct); simpl;
    try done. lra.
Qed.

Lemma free_energy_1_1_opposite rct pro T :
  opposite (free_energy_1_1 mol_free_energy rct pro T).1
           (free_energy_1_1 mol_free_energy rct pro T).2.
Proof.
  unfold free_energy_1_1.
  destruct (thermo_free_energy mol_free_energy rct T), (thermo_free_energy mol_free_energy pro T);
    simpl; try done. lra.
Qed.

Lemma free_energy_1_2_opposite rct pro0 pro1 T :
  opposite (free_energy_1_2 mol_free_energy rct pro0 pro1 T).1
           (free_energy_1_2 mol_free_energy rct pro0 pro1 T).2.
Proof.
  unfold free_energy_1_2.
  destruct (thermo_free_energy mol_free_energy rct T), (thermo_free_energy mol_free_energy pro0 T),
    (thermo_free_energy mol_free_energy pro1 T); simpl; try done. lra.
Qed.

Lemma free_energy_redox_opposite ty rct pro efe T ab :
  free_energy_redox mol_free_energy ty rct pro efe T = Ok ab →
  opposite ab.1 ab.2.
Proof.
  unfold free_energy_redox.
  pose proof (free_energy_1_1_opposite rct pro T) as Hopp.
  destruct (free_energy_1_1 mol_free_energy rct pro T) as [[a|] [b|]];
    simpl in Hopp; try done; try (by intros [= <-]).
  destruct efe as [e|]; cbn; [|done].
  case_decide; intros [= <-]; simpl; lra.
Qed.

Lemma free_energy_concerted_opposite rct pro rc pc efe T ab :
  free_energy_concerted mol_free_energy rct pro rc pc efe T = Ok ab →
  opposite ab.1 ab.2.
Proof.
  unfold free_energy_concerted.
  destruct (_ && _); [|by intros [= <-]].
  intros (x & _ & (y & _ & [= <-])%bind_Ok)%bind_Ok. simpl. lra.
Qed.

(** The memoised pair is kept consistent by the [free_energy] frame, and
    the values it leaves in [free_energy_A/B] are opposite. *)
Lemma free_energy_frame_opposite rc T compute (b b' : Base Graph) :
  opposite (base_free_energy_A b) (base_free_energy_B b) →
  (∀ ab, compute = Ok ab → opposite ab.1 ab.2) →
  free_energy_frame rc T compute b = Ok b' →
  opposite (free_energy_A b') (free_energy_B b')
  ∧ opposite (base_free_energy_A b') (base_free_energy_B b').
Proof.
  intros Hbase Hcompute. unfold free_energy_frame.
  destruct (bool_decide (T = 298.15%R)), (base_free_energy_A b) as [x|] eqn:HA,
    (base_free_energy_B b) as [y|] eqn:HB, rc; simpl in *; try done;
    try (intros [= <-]; simpl; by rewrite ?HA, ?HB);
    destruct compute as [ab| |]; cbn; try done;
    intros [= <-]; simpl; rewrite ?HA, ?HB; by auto.
Qed.

(** The part of the energy claim that holds: for every archetype the
    [free_energy] method leaves opposite values in [free_energy_A] and
    [free_energy_B], at every temperature, provided the memoised pair it
    starts from is consistent (as it is after construction). *)
Lemma free_energy_method_opposite T (r r' : Reaction Graph) :
  opposite (base_free_energy_A (base_of r)) (base_free_energy_B (base_of r)) →
  free_energy_method mol_free_energy T r = Ok r' →
  opposite (free_energy_A (base_of r')) (free_energy_B (base_of r'))
  ∧ opposite (base_free_energy_A (base_of r'))
             (base_free_energy_B (base_of r')).
Proof.
  intros Hbase.
  destruct r as [b rct pro efe|b rct pro|b rct pro0 pro1|b rct pro0 pro1
                |b rct pro rc pc efe]; simpl in *;
    intros (b' & Hframe & [= <-])%bind_Ok; simpl;
    eapply free_energy_frame_opposite; try done.
  - intros ab. apply free_energy_redox_opposite.
  - intros ab [= <-]. apply free_energy_1_1_opposite.
  - intros ab [= <-]. apply free_energy_1_2_opposite.
  - intros ab [= <-]. apply free_energy_1_2_opposite.
  - intros ab. apply free_energy_concerted_opposite.
Qed.

(** The energies of the archetypes other than [ConcertedReaction] are
    opposite once [energy()] has run. *)
Lemma energy_method_opposite (r r' : Reaction Graph) :
  (∀ b rct pro rc pc efe, r ≠ ConcertedReaction b rct pro rc pc efe) →
  energy_method r = Ok r' →
  opposite (energy_A (base_of r')) (energy_B (base_of r')).
Proof.
  intros Hr.
  destruct r as [b rct pro efe|b rct pro|b rct pro0 pro1|b rct pro0 pro1
                |b rct pro rc pc efe]; simpl; try (intros [= <-]; simpl).
  - apply energy_1_1_opposite.
  - apply energy_1_1_opposite.
  - apply energy_1_2_opposite.
  - apply energy_1_2_opposite.
  - by destruct (Hr b rct pro rc pc efe).
Qed.

End EnergyFacts.

(** *** The redox scenario of the specification *)

Section RedoxExamples.
Import MolEntry Bucket Reactions.

(** An entry without thermochemistry over a trivial bonding graph. *)
Definition plain_entry (id f : string) (c n i : Z) : MoleculeEntry unit :=
  mkEntry id f c n 0 0 None None i tt.

Lemma RedoxReaction_generate_witness :
  ∃ reactions families,
    RedoxReaction_generate (λ _ _ _ _, None) (λ _ _, true) (λ _ _, [])
      (bucket_mol_entries
         [plain_entry "A" "X1" 0 0 0; plain_entry "B" "X1" 1 0 1])
      = Ok (reactions, families)
    ∧ (∀ r, r ∈ reactions → redox_pair (λ _ _, true) r)
    ∧ (∀ f d c l r, (f, d) ∈ families → (c, l) ∈ d → r ∈ l →
         redox_pair (λ _ _, true) r).
Proof.
  apply (RedoxReaction_generate_spec (λ _ _ _ _, None) (λ _ _, true)
           (λ _ _, [])
           (bucket_mol_entries
              [plain_entry "A" "X1" 0 0 0; plain_entry "B" "X1" 1 0 1])).
  apply bucket_mol_entries_wf.
Defined.

End RedoxExamples.


(** ** Python sequences used by the graph builder *)

Module Py.

(** [str(i)] for an integer. *)
Definition str (i : Z) : string := pretty i.

(** [sep.join(l)] *)
Fixpoint join (sep : string) (l : list string) : string :=
  match l with
  | [] => ""
  | [x] => x
  | x :: l' => x +:+ sep +:+ join sep l'
  end.

(** Insertion of [x] after the items that are not larger: the step of a
    stable sort on keys. *)
Fixpoint insert_by {A} (key : A → Z) (x : A) (l : list A) : list A :=
  match l with
  | [] => [x]
  | y :: l' =>
      if bool_decide (key x < key y)%Z then x :: y :: l'
      else y :: insert_by key x l'
  end.

Definition sort_by {A} (key : A → Z) (l : list A) : list A :=
  foldl (λ acc x, insert_by key x acc) [] l.

(** [np.sort(l)] *)
Definition np_sort (l : list Z) : list Z := sort_by (λ x, x) l.

(** [np.argsort(l)]: the positions of the items in sorted order, ties in
    input order. *)
Definition np_argsort (l : list Z) : list nat :=
  (sort_by snd (imap (λ i x, (i, x)) l)).*1.

(** The choices of one item of a list together with the remaining items,
    in input order. *)
Fixpoint picks {A} (l : list A) : list (A * list A) :=
  match l with
  | [] => []
  | x :: l' => (x, l') :: ((λ yr, (yr.1, x :: yr.2)) <$> picks l')
  end.

Fixpoint permutations_upto {A} (n : nat) (l : list A) : list (list A) :=
  match n with
  | O => [[]]
  | S n' =>
      xr ← picks l; (λ p, xr.1 :: p) <$> permutations_upto n' xr.2
  end.

(** [itertools.permutations(l)]: all orderings, in lexicographic order of
    positions. *)
Definition permutations {A} (l : list A) : list (list A) :=
  permutations_upto (length l) l.

End Py.

(** ** The bipartite graph ([networkx.DiGraph]) *)

Module DiGraph.

(** Species nodes are integers, composite reaction nodes are strings. *)
Inductive node :=
  | Species (i : Z)
  | Composite (name : string).

#[global] Instance node_eq_dec : EqDecision node.
Proof. solve_decision. Defined.

#[global] Instance node_countable : Countable node :=
  inj_countable'
    (λ n, match n with Species i => inl i | Composite s => inr s end)
    (λ x, match x with inl i => Species i | inr s => Composite s end)
    (λ n, match n with Species _ => eq_refl | Composite _ => eq_refl end).

(** Attribute values. *)
Inductive value :=
  | VNone
  | VFloat (x : R)
  | VInt (z : Z)
  | VStr (s : string).

Definition of_float (o : option R) : value :=
  match o with Some x => VFloat x | None => VNone end.

(** The keyword attributes of a node or an edge. *)
Abbreviation attrs := (gmap string value).

Record t := mk {
  node_data : gmap node attrs;
  edge_data : gmap (node * node) attrs
}.

Definition empty : t := mk ∅ ∅.

(** [attr_dict.update(attr)] on the dictionary stored under [k], created
    empty when missing. *)
Definition update_attrs {K} `{Countable K} (k : K) (a : attrs)
    (m : gmap K attrs) : gmap K attrs :=
  <[k := a ∪ default ∅ (m !! k)]> m.

(** [graph.add_node(n, **a)] *)
Definition add_node (n : node) (a : attrs) (g : t) : t :=
  mk (update_attrs n a (node_data g)) (edge_data g).

(** [graph.add_edge(u, v, **a)]: missing end points are added. *)
Definition add_edge (u v : node) (a : attrs) (g : t) : t :=
  mk (update_attrs v ∅ (update_attrs u ∅ (node_data g)))
     (update_attrs (u, v) a (edge_data g)).

(** The composite reaction nodes of a graph. *)
Definition is_composite (n : node) : Prop :=
  match n with Composite _ => True | Species _ => False end.

#[global] Instance is_composite_dec n : Decision (is_composite n).
Proof. destruct n; apply _. Defined.

Definition composite_nodes (g : t) : gset node :=
  filter is_composite (dom (node_data g)).

Definition in_edges (g : t) (n : node) : gset (node * node) :=
  filter (λ e, e.2 = n) (dom (edge_data g)).

Definition out_edges (g : t) (n : node) : gset (node * node) :=
  filter (λ e, e.1 = n) (dom (edge_data g)).

End DiGraph.

(** ** Graph embedding of reactions ([graph_rep_*], [reactions.py]) *)

Module GraphRep.
Import MolEntry Reactions DiGraph.

(** [softplus(free_energy)] *)
Definition softplus (free_energy : R) : R :=
  ln (1 + (273.0 / 500.0) * exp free_energy).

(** [exponent(free_energy)] *)
Definition exponent (free_energy : R) : R := exp free_energy.

(** [rexp(free_energy)] *)
Definition rexp (free_energy : R) : R :=
  if decide (free_energy <= 0)%R then exp free_energy
  else exp (38.94 * free_energy).

(** The keyword arguments of the [add_edge] calls. A free energy of
    [None] makes the weight functions raise. *)
Definition entry_weights (free_energy free_energy_rexp : option R)
    : outcome attrs :=
  fe ← lookup_or TypeError free_energy;
  fe_rexp ← lookup_or TypeError free_energy_rexp;
  Ok ({[ "softplus" := VFloat (softplus fe);
         "exponent" := VFloat (exponent fe);
         "rexp" := VFloat (rexp fe_rexp);
         "weight" := VFloat 1.0 ]} : attrs).

(** [softplus=0.0, exponent=0.0, rexp=0.0, weight=1.0] *)
Definition zero_weights : attrs :=
  {[ "softplus" := VFloat 0.0; "exponent" := VFloat 0.0;
     "rexp" := VFloat 0.0; "weight" := VFloat 1.0 ]}.

(** [softplus=0.0, exponent=0.0, weight=1.0] *)
Definition zero_weights_3_2 : attrs :=
  {[ "softplus" := VFloat 0.0; "exponent" := VFloat 0.0;
     "weight" := VFloat 1.0 ]}.

(** The keyword arguments of the [add_node] calls. *)
Definition node_attrs (rxn_type : string) (energy free_energy : option R)
    (entry_ids : string) : attrs :=
  {[ "rxn_type" := VStr rxn_type; "bipartite" := VInt 1;
     "energy" := of_float energy; "free_energy" := of_float free_energy;
     "entry_ids" := VStr entry_ids ]}.

Section GraphRep.
Context {Graph : Type}.
Variable mol_free_energy : option R → option R → option R → R → option R.
Abbreviation Rxn := (Reaction Graph).

(** [reaction.free_energy()] with the default temperature. *)
Definition call_free_energy (reaction : Rxn) : outcome Rxn :=
  free_energy_method mol_free_energy 298.15 reaction.

(** [l[i]] *)
Definition item {A} (l : list A) (i : nat) : outcome A :=
  lookup_or IndexError (l !! i).

(** *** [graph_rep_1_1] *)

Definition graph_rep_1_1 (reaction : Rxn) : outcome (Rxn * DiGraph.t) :=
  let b := base_of reaction in
  if bool_decide (length (rct_indices b) ≠ 1 ∨ length (pro_indices b) ≠ 1)
  then Raise (ValueError
         "Must provide reaction with 1 reactant and productfor graph_rep_1_1")
  else
    rct_ind ← item (rct_indices b) 0;
    pro0_ind ← item (pro_indices b) 0;
    let node_name_A := Py.str rct_ind +:+ "," +:+ Py.str pro0_ind in
    let node_name_B := Py.str pro0_ind +:+ "," +:+ Py.str rct_ind in
    let rxn_type_A := rxn_type_A b in
    let rxn_type_B := rxn_type_B b in
    let energy_A := energy_A b in
    let energy_B := energy_B b in
    reaction ← call_free_energy reaction;
    let b := base_of reaction in
    let free_energy_A := free_energy_A b in
    let free_energy_B := free_energy_B b in
    rct_id ← item (rct_ids b) 0;
    pro_id ← item (pro_ids b) 0;
    let entry_ids_A := rct_id +:+ "," +:+ pro_id in
    let entry_ids_B := pro_id +:+ "," +:+ rct_id in
    let graph := DiGraph.empty in
    let graph :=
      add_node (Composite node_name_A)
        (node_attrs rxn_type_A energy_A free_energy_A entry_ids_A) graph in
    w ← entry_weights free_energy_A free_energy_A;
    let graph := add_edge (Species rct_ind) (Composite node_name_A) w graph in
    let graph :=
      add_edge (Composite node_name_A) (Species pro0_ind) zero_weights graph in
    let graph :=
      add_node (Composite node_name_B)
        (node_attrs rxn_type_B energy_B free_energy_B entry_ids_B) graph in
    w ← entry_weights free_energy_B free_energy_B;
    let graph := add_edge (Species pro0_ind) (Composite node_name_B) w graph in
    let graph :=
      add_edge (Composite node_name_B) (Species rct_ind) zero_weights graph in
    Ok (reaction, graph).

(** *** [graph_rep_1_2] *)

(** The body of [for node_ind in range(len(product_node_names))]. *)
Definition add_product_node_1_2 (b : Base Graph) (rct_ind : Z)
    (product_node_names product_entry_ids_name : list string)
    (graph : DiGraph.t) (node_ind : nat) : outcome DiGraph.t :=
  name ← item product_node_names node_ind;
  eids ← item product_entry_ids_name node_ind;
  let graph :=
    add_node (Composite name)
      (node_attrs (rxn_type_B b) (energy_B b) (free_energy_B b) eids)
      graph in
  let graph := add_edge (Composite name) (Species rct_ind) zero_weights graph in
  pro_ind ← item (pro_indices b) node_ind;
  w ← entry_weights (free_energy_B b) (free_energy_B b);
  Ok (add_edge (Species pro_ind) (Composite name) w graph).

Definition graph_rep_1_2 (reaction : Rxn) : outcome (Rxn * DiGraph.t) :=
  let b := base_of reaction in
  if bool_decide (length (rct_ids b) ≠ 1 ∨ length (pro_ids b) ≠ 2)
  then Raise (ValueError
         "Must provide reaction with 1 reactant and 2 productsfor graph_rep_1_2")
  else
    rct_ind ← item (rct_indices b) 0;
    pro0_ind ← item (pro_indices b) 0;
    pro1_ind ← item (pro_indices b) 1;
    rct_id ← item (rct_ids b) 0;
    let pro_sorted_indices := Py.np_argsort (pro_indices b) in
    sorted_inds ← mapM (item (pro_indices b)) pro_sorted_indices;
    sorted_ids ← mapM (item (pro_ids b)) pro_sorted_indices;
    let two_mol_name := Py.join "+" (Py.str <$> sorted_inds) in
    let two_mol_name_entry_ids := Py.join "+" sorted_ids in
    let two_mol_names :=
      (λ permutation, Py.join "+PR_" (Py.str <$> permutation))
        <$> Py.permutations (pro_indices b) in
    let product_node_names :=
      (λ name, Py.join "," [name; Py.str rct_ind]) <$> two_mol_names in
    let node_name_A := Py.str rct_ind +:+ "," +:+ two_mol_name in
    let two_mol_entry_ids :=
      (λ permutation, Py.join "+PR_" permutation)
        <$> Py.permutations (pro_ids b) in
    let product_entry_ids_name :=
      (λ eid, Py.join "," [eid; rct_id]) <$> two_mol_entry_ids in
    let entry_ids_name_A := rct_id +:+ "," +:+ two_mol_name_entry_ids in
    let rxn_type_A := rxn_type_A b in
    let energy_A := energy_A b in
    reaction ← call_free_energy reaction;
    let b := base_of reaction in
    let graph :=
      add_node (Composite node_name_A)
        (node_attrs rxn_type_A energy_A (free_energy_A b) entry_ids_name_A)
        DiGraph.empty in
    w ← entry_weights (free_energy_A b) (free_energy_A b);
    let graph := add_edge (Species rct_ind) (Composite node_name_A) w graph in
    let graph :=
      add_edge (Composite node_name_A) (Species pro0_ind) zero_weights graph in
    let graph :=
      add_edge (Composite node_name_A) (Species pro1_ind) zero_weights graph in
    graph ← for_each
              (add_product_node_1_2 b rct_ind product_node_names
                 product_entry_ids_name)
              graph (seq 0 (length product_node_names));
    Ok (reaction, graph).

(** *** [graph_rep_2_2] *)

(** The body of the two [for node_ind in range(len(...))] loops: a
    composite node for the participant at [node_ind] of the [near] side,
    entered from that participant, leaving to every member of the [far]
    side. *)
Definition add_side_node_2_2 (rxn_type : string)
    (energy free_energy : option R)
    (near_indices far_indices : list Z) (node_names node_eids : list string)
    (graph : DiGraph.t) (node_ind : nat) : outcome DiGraph.t :=
  name ← item node_names node_ind;
  eids ← item node_eids node_ind;
  let graph :=
    add_node (Composite name)
      (node_attrs rxn_type energy free_energy eids) graph in
  near_ind ← item near_indices node_ind;
  w ← entry_weights free_energy free_energy;
  let graph := add_edge (Species near_ind) (Composite name) w graph in
  Ok (foldl (λ graph far_ind,
               add_edge (Composite name) (Species far_ind) zero_weights graph)
            graph far_indices).

Definition graph_rep_2_2 (reaction : Rxn) : outcome (Rxn * DiGraph.t) :=
  let b := base_of reaction in
  if bool_decide (length (rct_ids b) ≠ 2 ∨ length (pro_ids b) ≠ 2)
  then Raise (ValueError
         "Must provide reaction with 2 reactants and 2 products for graph_rep_2_2")
  else
    let rxn_type_A := rxn_type_A b in
    let rxn_type_B := rxn_type_B b in
    let energy_A := energy_A b in
    let energy_B := energy_B b in
    reaction ← call_free_energy reaction;
    let b := base_of reaction in
    let free_energy_A := free_energy_A b in
    let free_energy_B := free_energy_B b in
    let pro_sorted_indices := Py.np_argsort (pro_indices b) in
    let rct_sorted_indices := Py.np_argsort (rct_indices b) in
    pro_sorted ← mapM (item (pro_indices b)) pro_sorted_indices;
    pro_sorted_ids ← mapM (item (pro_ids b)) pro_sorted_indices;
    rct_sorted ← mapM (item (rct_indices b)) rct_sorted_indices;
    rct_sorted_ids ← mapM (item (rct_ids b)) rct_sorted_indices;
    let base_pro_name := Py.join "+" (Py.str <$> pro_sorted) in
    let base_pro_eids := Py.join "+" pro_sorted_ids in
    let base_rct_name := Py.join "+" (Py.str <$> rct_sorted) in
    let base_rct_eids := Py.join "+" rct_sorted_ids in
    let pro_names_PR :=
      (λ permutation, Py.join "+PR_" (Py.str <$> permutation))
        <$> Py.permutations (pro_indices b) in
    let rct_names_PR :=
      (λ permutation, Py.join "+PR_" (Py.str <$> permutation))
        <$> Py.permutations (rct_indices b) in
    let rct_node_names :=
      (λ name, Py.join "," [name; base_pro_name]) <$> rct_names_PR in
    let pro_node_names :=
      (λ name, Py.join "," [name; base_rct_name]) <$> pro_names_PR in
    let pro_eids_PR :=
      (λ permutation, Py.join "+PR_" permutation)
        <$> Py.permutations (pro_ids b) in
    let rct_eids_PR :=
      (λ permutation, Py.join "+PR_" permutation)
        <$> Py.permutations (rct_ids b) in
    let rct_node_eids :=
      (λ name, Py.join "," [name; base_pro_eids]) <$> rct_eids_PR in
    let pro_node_eids :=
      (λ name, Py.join "," [name; base_rct_eids]) <$> pro_eids_PR in
    graph ← for_each
              (add_side_node_2_2 rxn_type_A energy_A free_energy_A
                 (rct_indices b) (pro_indices b) rct_node_names rct_node_eids)
              DiGraph.empty (seq 0 (length rct_node_names));
    graph ← for_each
              (add_side_node_2_2 rxn_type_B energy_B free_energy_B
                 (pro_indices b) (rct_indices b) pro_node_names pro_node_eids)
              graph (seq 0 (length pro_node_names));
    Ok (reaction, graph).

(** *** [graph_rep_3_2] *)

Definition graph_rep_3_2 (reaction : Rxn) : outcome (Rxn * DiGraph.t) :=
  let b := base_of reaction in
  if bool_decide (length (rct_ids b) ≠ 3 ∨ length (pro_ids b) ≠ 2)
  then Raise (ValueError
         "Must provide reaction with 3 reactants and 2 products for graph_rep_3_2")
  else
    rct0_ind ← item (rct_indices b) 0;
    rct1_ind ← item (rct_indices b) 1;
    rct2_ind ← item (rct_indices b) 2;
    pro0_ind ← item (pro_indices b) 0;
    pro1_ind ← item (pro_indices b) 1;
    rct0_id ← item (rct_ids b) 0;
    rct1_id ← item (rct_ids b) 1;
    rct2_id ← item (rct_ids b) 2;
    pro0_id ← item (pro_ids b) 0;
    pro1_id ← item (pro_ids b) 1;
    let '(two_prod_name, two_prod_name_entry_ids) :=
      if bool_decide (pro0_ind ≤ pro1_ind)%Z
      then (Py.str pro0_ind +:+ "+" +:+ Py.str pro1_ind,
            pro0_id +:+ "+" +:+ pro1_id)
      else (Py.str pro1_ind +:+ "+" +:+ Py.str pro0_ind,
            pro1_id +:+ "+" +:+ pro0_id) in
    let reactants_ind_list := take 3 (rct_indices b) in
    let reactant_inds := Py.np_argsort reactants_ind_list in
    let reactants_ind_list := Py.np_sort reactants_ind_list in
    s0 ← item reactants_ind_list 0;
    s1 ← item reactants_ind_list 1;
    s2 ← item reactants_ind_list 2;
    let reactants_name :=
      Py.str s0 +:+ "+" +:+ Py.str s1 +:+ "+" +:+ Py.str s2 in
    i0 ← item reactant_inds 0;
    i1 ← item reactant_inds 1;
    i2 ← item reactant_inds 2;
    e0 ← item reactants_ind_list i0;
    e1 ← item reactants_ind_list i1;
    e2 ← item reactants_ind_list i2;
    let reactants_name_entry_ids :=
      Py.str e0 +:+ "+" +:+ Py.str e1 +:+ "+" +:+ Py.str e2 in
    let two_prod_name0 := Py.str pro0_ind +:+ "+PR_" +:+ Py.str pro1_ind in
    let two_prod_name1 := Py.str pro1_ind +:+ "+PR_" +:+ Py.str pro0_ind in
    let '(three_reac_name0, three_reac_entry_ids0) :=
      if bool_decide (rct1_ind ≤ rct2_ind)%Z
      then (Py.str rct0_ind +:+ "+PR_" +:+ Py.str rct1_ind
              +:+ "+PR_" +:+ Py.str rct2_ind,
            rct0_id +:+ "+PR_" +:+ rct1_id +:+ "+PR_" +:+ rct2_id)
      else (Py.str rct0_ind +:+ "+PR_" +:+ Py.str rct2_ind
              +:+ "+PR_" +:+ Py.str rct1_ind,
            rct0_id +:+ "+PR_" +:+ rct2_id +:+ "+PR_" +:+ rct1_id) in
    let '(three_reac_name1, three_reac_entry_ids1) :=
      if bool_decide (rct0_ind ≤ rct2_ind)%Z
      then (Py.str rct1_ind +:+ "+PR_" +:+ Py.str rct0_ind
              +:+ "+PR_" +:+ Py.str rct2_ind,
            rct1_id +:+ "+PR_" +:+ rct0_id +:+ "+PR_" +:+ rct2_id)
      else (Py.str rct1_ind +:+ "+PR_" +:+ Py.str rct2_ind
              +:+ "+PR_" +:+ Py.str rct0_ind,
            rct1_id +:+ "+PR_" +:+ rct2_id +:+ "+PR_" +:+ rct0_id) in
    let '(three_reac_name2, three_reac_entry_ids2) :=
      if bool_decide (rct0_ind ≤ rct1_ind)%Z
      then (Py.str rct2_ind +:+ "+PR_" +:+ Py.str rct0_ind
              +:+ "+PR_" +:+ Py.str rct1_ind,
            rct2_id +:+ "+PR_" +:+ rct0_id +:+ "+PR_" +:+ rct1_id)
      else (Py.str rct2_ind +:+ "+PR_" +:+ Py.str rct1_ind
              +:+ "+PR_" +:+ Py.str rct0_ind,
            rct2_id +:+ "+PR_" +:+ rct1_id +:+ "+PR_" +:+ rct0_id) in
    let node_name_A0 := three_reac_name0 +:+ "," +:+ two_prod_name in
    let node_name_A1 := three_reac_name1 +:+ "," +:+ two_prod_name in
    let node_name_A2 := three_reac_name2 +:+ "," +:+ two_prod_name in
    let node_name_B0 := two_prod_name0 +:+ "," +:+ reactants_name in
    let node_name_B1 := two_prod_name1 +:+ "," +:+ reactants_name in
    let two_prod_entry_ids0 := pro0_id +:+ "+PR_" +:+ pro1_id in
    let two_prod_entry_ids1 := pro1_id +:+ "+PR_" +:+ pro0_id in
    let entry_ids_name_A0 :=
      three_reac_entry_ids0 +:+ "," +:+ two_prod_name_entry_ids in
    let entry_ids_name_A1 :=
      three_reac_entry_ids1 +:+ "," +:+ two_prod_name_entry_ids in
    let entry_ids_name_A2 :=
      three_reac_entry_ids2 +:+ "," +:+ two_prod_name_entry_ids in
    let entry_ids_name_B0 :=
      two_prod_entry_ids0 +:+ "," +:+ reactants_name_entry_ids in
    let entry_ids_name_B1 :=
      two_prod_entry_ids1 +:+ "," +:+ reactants_name_entry_ids in
    let rxn_type_A := rxn_type_A b in
    let rxn_type_B := rxn_type_B b in
    let energy_A := energy_A b in
    let energy_B := energy_B b in
    reaction ← call_free_energy reaction;
    let b := base_of reaction in
    let free_energy_A := free_energy_A b in
    let free_energy_B := free_energy_B b in
    let attrs_A := node_attrs rxn_type_A energy_A free_energy_A in
    let attrs_B := node_attrs rxn_type_B energy_B free_energy_B in
    let A0 := Composite node_name_A0 in
    let A1 := Composite node_name_A1 in
    let A2 := Composite node_name_A2 in
    let B0 := Composite node_name_B0 in
    let B1 := Composite node_name_B1 in
    let out := zero_weights_3_2 in
    let graph := add_node A0 (attrs_A entry_ids_name_A0) DiGraph.empty in
    w ← entry_weights free_energy_A free_energy_A;
    let graph := add_edge (Species rct0_ind) A0 w graph in
    let graph := add_edge A0 (Species pro0_ind) out graph in
    let graph := add_edge A0 (Species pro1_ind) out graph in
    let graph := add_node A1 (attrs_A entry_ids_name_A1) graph in
    let graph := add_edge (Species rct1_ind) A1 w graph in
    let graph := add_edge A1 (Species pro0_ind) out graph in
    let graph := add_edge A1 (Species pro1_ind) out graph in
    let graph := add_node A2 (attrs_A entry_ids_name_A2) graph in
    let graph := add_edge (Species rct2_ind) A2 w graph in
    let graph := add_edge A1 (Species pro0_ind) out graph in
    let graph := add_edge A1 (Species pro1_ind) out graph in
    let graph := add_node B0 (attrs_B entry_ids_name_B0) graph in
    w ← entry_weights free_energy_B free_energy_A;
    let graph := add_edge (Species pro0_ind) B0 w graph in
    let graph := add_edge B0 (Species rct0_ind) out graph in
    let graph := add_edge B0 (Species rct1_ind) out graph in
    let graph := add_edge B0 (Species rct2_ind) out graph in
    let graph := add_node B1 (attrs_B entry_ids_name_B1) graph in
    let graph := add_edge (Species pro1_ind) B1 w graph in
    let graph := add_edge B1 (Species rct0_ind) out graph in
    let graph := add_edge B1 (Species rct1_ind) out graph in
    let graph := add_edge B1 (Species rct2_ind) out graph in
    Ok (reaction, graph).

(** *** [graph_representation] *)

(** The method of the classes with a fixed shape. *)
Definition graph_representation (reaction : Rxn)
    : outcome (Rxn * option DiGraph.t) :=
  match reaction with
  | RedoxReaction _ _ _ _ | IntramolSingleBondChangeReaction _ _ _ =>
      '(r, g) ← graph_rep_1_1 reaction; Ok (r, Some g)
  | IntermolecularReaction _ _ _ _ | CoordinationBondChangeReaction _ _ _ _ =>
      '(r, g) ← graph_rep_1_2 reaction; Ok (r, Some g)
  | ConcertedReaction b _ _ _ _ _ =>
      let n_rct := length (reactants b) in
      let n_pro := length (products b) in
      if bool_decide (n_rct = n_pro ∧ n_pro = 1) then
        '(r, g) ← graph_rep_1_1 reaction; Ok (r, Some g)
      else if bool_decide (n_rct = 1 ∧ n_pro = 2) then
        '(r, g) ← graph_rep_1_2 reaction; Ok (r, Some g)
      else if bool_decide (n_rct = 2 ∧ n_pro = 1) then
        '(r, g) ← graph_rep_1_2 (swap_elements reaction); Ok (r, Some g)
      else if bool_decide (n_rct = n_pro ∧ n_pro = 2) then
        '(r, g) ← graph_rep_2_2 reaction; Ok (r, Some g)
      else Ok (reaction, None)
  end.

End GraphRep.

End GraphRep.


(** ** Facts about node names *)

Section NameFacts.

(** The characters of a string. *)
Fixpoint chars (s : string) : list ascii :=
  match s with
  | EmptyString => []
  | String c s' => c :: chars s'
  end.

Lemma chars_app s1 s2 : chars (s1 +:+ s2) = chars s1 ++ chars s2.
Proof. induction s1 as [|c s1 IH]; simpl; [done|by rewrite IH]. Qed.

Lemma chars_inj s1 s2 : chars s1 = chars s2 → s1 = s2.
Proof.
  revert s2. induction s1 as [|c s1 IH]; intros [|c' s2]; simpl; try done.
  intros [= -> ?]. f_equal. by apply IH.
Qed.

Lemma pretty_N_char_not_comma x : pretty_N_char x ≠ ","%char.
Proof. unfold pretty_N_char. by repeat case_match. Qed.

Lemma pretty_N_go_chars (x : N) : ∀ s,
  ","%char ∉ chars s → ","%char ∉ chars (pretty_N_go x s).
Proof.
  induction (N.lt_wf_0 x) as [x _ IH]; intros s Hs.
  destruct (decide (x = 0)%N) as [->|Hx]; [by rewrite pretty_N_go_0|].
  rewrite pretty_N_go_step by lia. apply IH.
  - apply N.div_lt; lia.
  - simpl. rewrite not_elem_of_cons. split; [|done].
    intros Heq. by apply (pretty_N_char_not_comma (x `mod` 10)%N).
Qed.

Lemma pretty_N_chars (x : N) : ","%char ∉ chars (pretty x).
Proof.
  unfold pretty, pretty_N. case_decide.
  - simpl. by intros [?|?%elem_of_nil]%elem_of_cons.
  - apply pretty_N_go_chars. simpl. apply not_elem_of_nil.
Qed.

(** The decimal form of an integer holds no comma. *)
Lemma str_no_comma (i : Z) : ","%char ∉ chars (Py.str i).
Proof.
  unfold Py.str, pretty, pretty_Z. destruct i as [|p|p].
  - simpl. by intros [?|?%elem_of_nil]%elem_of_cons.
  - apply pretty_N_chars.
  - rewrite chars_app. simpl. rewrite not_elem_of_cons. split; [done|].
    apply pretty_N_chars.
Qed.

(** A name is split at its first comma in one way only. *)
Lemma comma_split (l1 l2 t1 t2 : list ascii) :
  ","%char ∉ l1 → ","%char ∉ l2 →
  l1 ++ ","%char :: t1 = l2 ++ ","%char :: t2 → l1 = l2 ∧ t1 = t2.
Proof.
  revert l2. induction l1 as [|c l1 IH]; intros [|c' l2] H1 H2; simpl.
  - by intros [= ->].
  - intros [= <- _]. exfalso. apply H2. by left.
  - intros [= -> _]. exfalso. apply H1. by left.
  - intros [= -> Heq]. apply not_elem_of_cons in H1 as [_ H1].
    apply not_elem_of_cons in H2 as [_ H2].
    destruct (IH l2 H1 H2 Heq) as [-> ->]. done.
Qed.

Lemma str_inj (i j : Z) : Py.str i = Py.str j → i = j.
Proof. unfold Py.str. apply (inj pretty). Qed.

(** The names of the two composite nodes of a 1-1 reaction differ when
    the species differ. *)
Lemma node_name_1_1_ne (i j : Z) :
  i ≠ j →
  Py.str i +:+ "," +:+ Py.str j ≠ Py.str j +:+ "," +:+ Py.str i.
Proof.
  intros Hne Heq. apply Hne, str_inj, chars_inj.
  apply (f_equal chars) in Heq. rewrite !chars_app in Heq. simpl in Heq.
  by destruct (comma_split _ _ _ _ (str_no_comma i) (str_no_comma j) Heq).
Qed.

End NameFacts.

(** ** Facts about the graph operations *)

Section DiGraphFacts.
Import DiGraph.
Context {K : Type} `{Countable K}.
Implicit Types (k : K) (a : attrs) (m : gmap K attrs).

Lemma dom_update_attrs k a m :
  dom (update_attrs k a m) = {[k]} ∪ dom m.
Proof. unfold update_attrs. by rewrite dom_insert_L. Qed.

Lemma lookup_update_attrs_eq k a m :
  update_attrs k a m !! k = Some (a ∪ default ∅ (m !! k)).
Proof. unfold update_attrs. by rewrite lookup_insert_eq. Qed.

Lemma lookup_update_attrs_ne k k' a m :
  k ≠ k' → update_attrs k a m !! k' = m !! k'.
Proof. intros. unfold update_attrs. by rewrite lookup_insert_ne. Qed.

End DiGraphFacts.

(** ** Facts about the [free_energy] method *)

Section FreeEnergyFacts.
Import MolEntry Reactions.
Context {Graph : Type}.
Variable mol_free_energy : option R → option R → option R → R → option R.

(** The method only assigns the free-energy attributes. *)
Definition same_reaction_data (b b' : Base Graph) : Prop :=
  reactants b' = reactants b ∧ products b' = products b
  ∧ rxn_type_A b' = rxn_type_A b ∧ rxn_type_B b' = rxn_type_B b
  ∧ energy_A b' = energy_A b ∧ energy_B b' = energy_B b.

Lemma free_energy_frame_data rc T compute (b b' : Base Graph) :
  free_energy_frame rc T compute b = Ok b' → same_reaction_data b b'.
Proof.
  unfold free_energy_frame.
  destruct (bool_decide _ && _ && rc).
  - intros [= <-]. by destruct (_ && _).
  - intros (ab & _ & [= <-])%bind_Ok.
    by destruct (bool_decide _ && negb _), (bool_decide _ && (_ && _)).
Qed.

Lemma free_energy_method_data T (r r' : Reaction Graph) :
  free_energy_method mol_free_energy T r = Ok r' →
  same_reaction_data (base_of r) (base_of r').
Proof.
  destruct r; simpl; intros (b' & Hframe & [= <-])%bind_Ok; simpl;
    by eapply free_energy_frame_data.
Qed.

(** Both directions get a value, or neither does. *)
Lemma free_energy_frame_both rc T compute (b b' : Base Graph) :
  (∀ ab, compute = Ok ab → is_None ab.1 = is_None ab.2) →
  free_energy_frame rc T compute b = Ok b' →
  is_None (free_energy_A b') = is_None (free_energy_B b').
Proof.
  intros Hcompute. unfold free_energy_frame.
  destruct (bool_decide (T = 298.15%R)),
    (base_free_energy_A b) as [x|] eqn:HA,
    (base_free_energy_B b) as [y|] eqn:HB, rc; simpl;
    try (intros [= <-]; simpl; by rewrite ?HA, ?HB);
    intros (ab & Hab & [= <-])%bind_Ok; simpl; by apply Hcompute.
Qed.

Lemma opposite_both (a b : option R) :
  opposite a b → is_None a = is_None b.
Proof. by destruct a, b. Qed.

Lemma free_energy_method_both T (r r' : Reaction Graph) :
  free_energy_method mol_free_energy T r = Ok r' →
  is_None (free_energy_A (base_of r')) = is_None (free_energy_B (base_of r')).
Proof.
  destruct r as [b rct pro efe|b rct pro|b rct pro0 pro1|b rct pro0 pro1
                |b rct pro rc pc efe]; simpl;
    intros (b' & Hframe & [= <-])%bind_Ok; simpl;
    eapply free_energy_frame_both; try done.
  - intros ab ?. by eapply opposite_both, free_energy_redox_opposite.
  - intros ab [= <-]. apply opposite_both, free_energy_1_1_opposite.
  - intros ab [= <-]. apply opposite_both, free_energy_1_2_opposite.
  - intros ab [= <-]. apply opposite_both, free_energy_1_2_opposite.
  - intros ab ?. by eapply opposite_both, free_energy_concerted_opposite.
Qed.

End FreeEnergyFacts.

(** ** Theorems about the graph embedding *)

Section GraphRepFacts.
Import MolEntry Reactions DiGraph GraphRep.
Context {Graph : Type}.
Variable mol_free_energy : option R → option R → option R → R → option R.

(** C2: for a reaction with one reactant and one product of distinct
    indices whose forward free energy is [dG_A], [graph_rep_1_1] returns
    a graph with exactly two composite nodes and four edges, one entering
    and one leaving each composite node; the edge entering the forward
    composite node carries softplus [ln(1 + (273/500) exp dG_A)],
    exponent [exp dG_A], rexp [exp dG_A] if [dG_A <= 0] and
    [exp(38.94 dG_A)] otherwise, and weight 1. *)
Theorem graph_rep_1_1_spec (reaction reaction' : Reaction Graph)
    (reactant product : MoleculeEntry Graph) (dG_A : R) :
  reactants (base_of reaction) = [reactant] →
  products (base_of reaction) = [product] →
  ind reactant ≠ ind product →
  call_free_energy mol_free_energy reaction = Ok reaction' →
  free_energy_A (base_of reaction') = Some dG_A →
  let rct := Species (ind reactant) in
  let pro := Species (ind product) in
  let A := Composite (Py.str (ind reactant) +:+ "," +:+ Py.str (ind product)) in
  let B := Composite (Py.str (ind product) +:+ "," +:+ Py.str (ind reactant)) in
  ∃ graph,
    graph_rep_1_1 mol_free_energy reaction = Ok (reaction', graph)
    ∧ composite_nodes graph = {[A; B]}
    ∧ size (composite_nodes graph) = 2
    ∧ size (edge_data graph) = 4
    ∧ in_edges graph A = {[(rct, A)]} ∧ out_edges graph A = {[(A, pro)]}
    ∧ in_edges graph B = {[(pro, B)]} ∧ out_edges graph B = {[(B, rct)]}
    ∧ edge_data graph !! (rct, A) =
        Some {[ "softplus" := VFloat (ln (1 + (273 / 500) * exp dG_A));
                "exponent" := VFloat (exp dG_A);
                "rexp" := VFloat (if decide (dG_A <= 0)%R then exp dG_A
                                  else exp (38.94 * dG_A));
                "weight" := VFloat 1 ]}.
Proof.
  intros Hrct Hpro Hne Hfe HA rct pro A B.
  pose proof (free_energy_method_both _ _ _ _ Hfe) as Hboth.
  rewrite HA in Hboth. simpl in Hboth.
  destruct (free_energy_B (base_of reaction')) as [dG_B|] eqn:HB; [|done].
  destruct (free_energy_method_data _ _ _ _ Hfe)
    as (Hrct' & Hpro' & _).
  assert (A ≠ B) as HAB.
  { intros [= Heq]. by apply (node_name_1_1_ne _ _ Hne). }
  assert (rct ≠ pro) as Hrp by (by intros [= ?]).
  unfold graph_rep_1_1, rct_indices, pro_indices, rct_ids, pro_ids.
  rewrite Hrct, Hpro. simpl length.
  rewrite bool_decide_eq_false_2 by (by intros [?|?]).
  cbn [item lookup_or mbind outcome_bind fmap list_fmap lookup list_lookup].
  fold (call_free_energy mol_free_energy reaction). rewrite Hfe.
  cbn [mbind outcome_bind]. rewrite Hrct', Hpro', Hrct, Hpro, HA, HB.
  cbn [item lookup_or mbind outcome_bind fmap list_fmap lookup list_lookup
       entry_weights].
  fold rct pro A B.
  eexists. split; [done|].
  assert (∀ (a : attrs), a ∪ default ∅ ((∅ : gmap (node * node) attrs) !! (rct, A)) = a)
    as Hfresh.
  { intros a. rewrite lookup_empty. simpl. by rewrite (right_id_L ∅ (∪)). }
  match goal with |- context [composite_nodes ?g] => set (graph := g) end.
  assert (composite_nodes graph = {[A; B]}) as Hcomposite.
  { unfold composite_nodes, graph, add_edge, add_node, DiGraph.empty; simpl.
    rewrite !dom_update_attrs, dom_empty_L.
    apply set_eq. intros x. rewrite elem_of_filter.
    destruct x as [i|name]; simpl; [set_solver|].
    rewrite !elem_of_union, !elem_of_singleton, elem_of_empty.
    unfold rct, pro. split; [|intros [?|?]; by eauto 10].
    intros [_ Hx]. by repeat destruct Hx as [Hx|Hx]; eauto. }
  rewrite Hcomposite. subst graph.
  split_and!.
  - done.
  - rewrite size_union by (by apply disjoint_singleton_l, not_elem_of_singleton).
    by rewrite !size_singleton.
  - unfold add_edge, add_node, DiGraph.empty; simpl.
    unfold update_attrs.
    rewrite !map_size_insert_None, map_size_empty; [done|..];
      by rewrite ?lookup_insert_ne, ?lookup_empty by congruence.
  - unfold in_edges, add_edge, add_node, DiGraph.empty; simpl.
    rewrite !dom_update_attrs, dom_empty_L.
    apply set_eq. intros [u v]. rewrite elem_of_filter. simpl. set_solver.
  - unfold out_edges, add_edge, add_node, DiGraph.empty; simpl.
    rewrite !dom_update_attrs, dom_empty_L.
    apply set_eq. intros [u v]. rewrite elem_of_filter. simpl. set_solver.
  - unfold in_edges, add_edge, add_node, DiGraph.empty; simpl.
    rewrite !dom_update_attrs, dom_empty_L.
    apply set_eq. intros [u v]. rewrite elem_of_filter. simpl. set_solver.
  - unfold out_edges, add_edge, add_node, DiGraph.empty; simpl.
    rewrite !dom_update_attrs, dom_empty_L.
    apply set_eq. intros [u v]. rewrite elem_of_filter. simpl. set_solver.
  - unfold add_edge, add_node, DiGraph.empty; simpl.
    rewrite !lookup_update_attrs_ne by congruence.
    rewrite lookup_update_attrs_eq, Hfresh.
    unfold softplus, exponent, rexp.
    replace (273.0 / 500.0)%R with (273 / 500)%R by lra.
    by replace 1.0%R with 1%R by lra.
Qed.

End GraphRepFacts.

Section GraphRepDefects.
Import MolEntry Reactions DiGraph GraphRep.
Context {Graph : Type}.
Variable mol_free_energy : option R → option R → option R → R → option R.

(** C4 (as the code behaves): on a 3-to-2 reaction of species 0, 1, 2
    into species 3, 4, [graph_rep_3_2] gives the edges that leave a
    composite node the fields softplus, exponent and weight only (no
    rexp field), and the third forward composite node, entered from
    species 2, has no leaving edge at all: the code adds the leaving
    edges of the second forward node twice. *)
Theorem graph_rep_3_2_outward_edges (reaction reaction' : Reaction Graph)
    (dG_A dG_B : R) :
  rct_indices (base_of reaction) = [0; 1; 2]%Z →
  pro_indices (base_of reaction) = [3; 4]%Z →
  call_free_energy mol_free_energy reaction = Ok reaction' →
  free_energy_A (base_of reaction') = Some dG_A →
  free_energy_B (base_of reaction') = Some dG_B →
  let A0 := Composite "0+PR_1+PR_2,3+4" in
  let A2 := Composite "2+PR_0+PR_1,3+4" in
  ∃ graph,
    graph_rep_3_2 mol_free_energy reaction = Ok (reaction', graph)
    ∧ edge_data graph !! (A0, Species 3) = Some zero_weights_3_2
    ∧ zero_weights_3_2 !! "rexp" = None
    ∧ is_Some (edge_data graph !! (Species 2, A2))
    ∧ edge_data graph !! (A2, Species 3) = None
    ∧ edge_data graph !! (A2, Species 4) = None.
Proof.
  intros Hr Hp Hfe HA HB A0 A2.
  assert (length (rct_ids (base_of reaction)) = 3) as Hlr.
  { apply (f_equal length) in Hr. unfold rct_ids, rct_indices in *.
    rewrite length_fmap. rewrite length_fmap in Hr. exact Hr. }
  assert (length (pro_ids (base_of reaction)) = 2) as Hlp.
  { apply (f_equal length) in Hp. unfold pro_ids, pro_indices in *.
    rewrite length_fmap. rewrite length_fmap in Hp. exact Hp. }
  destruct (rct_ids (base_of reaction)) as [|id0 [|id1 [|id2 [|]]]] eqn:Hids;
    try done.
  destruct (pro_ids (base_of reaction)) as [|id3 [|id4 [|]]] eqn:Hpids;
    try done.
  assert (match graph_rep_3_2 mol_free_energy reaction with
          | Ok (r, graph) =>
              r = reaction'
              ∧ edge_data graph !! (A0, Species 3) = Some zero_weights_3_2
              ∧ zero_weights_3_2 !! "rexp" = None
              ∧ is_Some (edge_data graph !! (Species 2, A2))
              ∧ edge_data graph !! (A2, Species 3) = None
              ∧ edge_data graph !! (A2, Species 4) = None
          | _ => False
          end) as Hrun.
  { unfold graph_rep_3_2. rewrite Hids, Hpids, Hr, Hp, Hfe.
    rewrite bool_decide_eq_false_2 by (by intros [?|?]).
    cbn [item lookup_or mbind outcome_bind lookup list_lookup].
    rewrite HA, HB.
    cbn [entry_weights lookup_or mbind outcome_bind].
    unfold zero_weights_3_2, A0, A2.
    generalize (VFloat (softplus dG_A)) (VFloat (exponent dG_A))
      (VFloat (rexp dG_A)) (VFloat (softplus dG_B)) (VFloat (exponent dG_B))
      (VFloat 0.0) (VFloat 1.0).
    intros v1 v2 v3 v4 v5 v6 v7.
    vm_compute.
    exact (conj eq_refl (conj eq_refl (conj eq_refl
             (conj (ex_intro _ _ eq_refl) (conj eq_refl eq_refl))))). }
  destruct (graph_rep_3_2 mol_free_energy reaction) as [[r graph]| |];
    [|done..].
  destruct Hrun as (-> & Hrest). by exists graph.
Qed.

End GraphRepDefects.

(** *** Examples of graph embeddings *)

Section GraphRepExamples.
Import MolEntry Reactions DiGraph GraphRep.

(** Species [i] with zero energy, enthalpy and entropy. *)
Definition demo_entry (i : Z) : MoleculeEntry unit :=
  mkEntry (Py.str i) "X1" 0 0 0 0 (Some 0%R) (Some 0%R) i tt.

Definition demo_mol_free_energy (e h s : option R) (T : R) : option R :=
  match e, h, s with
  | Some e, Some h, Some s =>
      Some (e * 27.21139 + 0.0433641 * h - T * s * 0.0000433641)%R
  | _, _, _ => None
  end.

(** A reaction object whose free energies have been computed at 298.15 K
    and memoised. *)
Definition demo_base (rcts pros : list Z) (dG_A dG_B : R) : Base unit :=
  mkBase (demo_entry <$> rcts) (demo_entry <$> pros) None None
    "Concerted" "Concerted" None None
    (Some dG_A) (Some dG_B) (Some dG_A) (Some dG_B).

Definition demo_intramol : Reaction unit :=
  IntramolSingleBondChangeReaction (demo_base [0%Z] [1%Z] 0 0)
    (thermo_of (demo_entry 0)) (thermo_of (demo_entry 1)).

Definition demo_concerted_3_2 : Reaction unit :=
  ConcertedReaction (demo_base [0; 1; 2]%Z [3; 4]%Z 0 (-0))
    (thermo_of <$> (demo_entry <$> [0; 1; 2]%Z))
    (thermo_of <$> (demo_entry <$> [3; 4]%Z)) 0 0 None.

Lemma demo_intramol_free_energy :
  call_free_energy demo_mol_free_energy demo_intramol = Ok demo_intramol.
Proof.
  unfold call_free_energy, demo_intramol; simpl.
  unfold free_energy_frame. by rewrite bool_decide_eq_true_2 by done.
Qed.

Lemma graph_rep_1_1_witness :
  ∃ graph,
    graph_rep_1_1 demo_mol_free_energy demo_intramol
      = Ok (demo_intramol, graph)
    ∧ size (composite_nodes graph) = 2 ∧ size (edge_data graph) = 4.
Proof.
  destruct (graph_rep_1_1_spec demo_mol_free_energy
              demo_intramol demo_intramol (demo_entry 0) (demo_entry 1) 0
              eq_refl eq_refl ltac:(done) demo_intramol_free_energy eq_refl)
    as (graph & Hrun & _ & Hnodes & Hedges & _).
  exists graph. by split_and!.
Defined.

Lemma demo_concerted_3_2_free_energy :
  ∃ reaction',
    call_free_energy demo_mol_free_energy demo_concerted_3_2 = Ok reaction'
    ∧ is_Some (free_energy_A (base_of reaction'))
    ∧ is_Some (free_energy_B (base_of reaction')).
Proof.
  unfold call_free_energy, demo_concerted_3_2; simpl.
  unfold free_energy_frame. rewrite bool_decide_eq_true_2 by done.
  cbn. eexists. split; [done|]. simpl. by eauto.
Qed.

Lemma graph_rep_3_2_outward_edges_witness :
  ∃ reaction' graph,
    graph_rep_3_2 demo_mol_free_energy demo_concerted_3_2
      = Ok (reaction', graph)
    ∧ edge_data graph !! (Composite "2+PR_0+PR_1,3+4", Species 3) = None.
Proof.
  destruct demo_concerted_3_2_free_energy
    as (reaction' & Hfe & [dG_A HA] & [dG_B HB]).
  destruct (graph_rep_3_2_outward_edges demo_mol_free_energy
              demo_concerted_3_2 reaction' dG_A dG_B
              eq_refl eq_refl Hfe HA HB)
    as (graph & Hrun & _ & _ & _ & Hnone & _).
  by exists reaction', graph.
Defined.

End GraphRepExamples.

(** *** The one-to-one embedding on reactions without a free energy *)

Section GraphRepUnconditional.
Import MolEntry Reactions DiGraph GraphRep.

(** The reading of the statement about [graph_rep_1_1] without a
    condition on the free energy: every reaction with one reactant and
    one product of distinct indices is embedded as a graph with two
    composite nodes and four edges. *)
Definition graph_rep_1_1_always_builds : Prop :=
  ∀ (Graph : Type)
    (mol_free_energy : option R → option R → option R → R → option R)
    (reaction : Reaction Graph) (reactant product : MoleculeEntry Graph),
    reactants (base_of reaction) = [reactant] →
    products (base_of reaction) = [product] →
    ind reactant ≠ ind product →
    ∃ reaction' graph,
      graph_rep_1_1 mol_free_energy reaction = Ok (reaction', graph)
      ∧ size (composite_nodes graph) = 2
      ∧ size (edge_data graph) = 4.

(** A redox reaction constructed without [electron_free_energy], as
    [RedoxReaction.generate] constructs it, is never embedded: either the
    molecules have free energies and [free_energy()] fails on the missing
    electron free energy, or they have none and the weight functions
    fail on [None]. *)
Lemma generated_redox_graph_rep_1_1 {Graph : Type}
    (mol_free_energy : option R → option R → option R → R → option R)
    (entry0 entry1 : MoleculeEntry Graph)
    (rct_mp prdt_mp : option Atom_Mapping_Dict) (r : Reaction Graph) :
  RedoxReaction_init mol_free_energy entry0 entry1 None rct_mp prdt_mp = Ok r →
  reactants (base_of r) = [entry0] ∧ products (base_of r) = [entry1]
  ∧ graph_rep_1_1 mol_free_energy r = Raise TypeError.
Proof.
  unfold RedoxReaction_init. cbn. intros [= <-]. split_and!; [done..|].
  unfold graph_rep_1_1, rct_indices, pro_indices, rct_ids, pro_ids.
  cbn [base_of with_base set_energy set_rxn_type Reaction_init
       Reactions.reactants Reactions.products fmap list_fmap length].
  rewrite bool_decide_eq_false_2 by (by intros [?|?]).
  cbn [item lookup_or mbind outcome_bind lookup list_lookup].
  unfold call_free_energy, free_energy_method, free_energy_frame.
  cbn [base_of with_base set_energy set_rxn_type Reaction_init
       Reactions.base_free_energy_A Reactions.base_free_energy_B
       is_None negb andb].
  rewrite bool_decide_eq_true_2 by done.
  cbn [andb negb]. unfold free_energy_redox.
  destruct (free_energy_1_1 _ _ _ _) as [[a|] [b|]];
    cbn [lookup_or mbind outcome_bind]; done.
Qed.

Lemma graph_rep_1_1_raises_on_generated_redox :
  ¬ graph_rep_1_1_always_builds.
Proof.
  intros Hclaim.
  destruct (generated_redox_graph_rep_1_1 (λ _ _ _ _, None)
              (plain_entry "A" "X1" 0 0 0) (plain_entry "B" "X1" 1 0 1)
              None None _ eq_refl) as (Hr & Hp & Hraise).
  destruct (Hclaim unit (λ _ _ _ _, None) _ _ _ Hr Hp ltac:(done))
    as (reaction' & graph & Hrun & _).
  rewrite Hraise in Hrun. discriminate.
Qed.

End GraphRepUnconditional.


(** ** Further facts about the stoichiometry update *)

Section UpdateStateFacts.
Import Analyze.

Lemma bump_Some d state i c :
  state !! i = Some c → bump d state i = Ok (<[i := (c + d)%Z]> state).
Proof. intros Hc. unfold bump. by rewrite Hc. Qed.

Lemma bump_None d state i :
  state !! i = None → bump d state i = Raise IndexError.
Proof. intros Hc. unfold bump. by rewrite Hc. Qed.

Lemma for_each_bump_total d l : ∀ state,
  Forall (λ i, i < length state) l →
  ∃ state', for_each (bump d) state l = Ok state'.
Proof.
  induction l as [|i l IH]; intros state Hl; simpl; [by eauto|].
  apply Forall_cons in Hl as [Hi Hl].
  destruct (lookup_lt_is_Some_2 state i Hi) as [c Hc].
  rewrite (bump_Some _ _ _ _ Hc). cbn.
  apply IH. by rewrite length_insert.
Qed.

Lemma for_each_bump_raise d l : ∀ state,
  Exists (λ i, length state ≤ i) l →
  for_each (bump d) state l = Raise IndexError.
Proof.
  induction l as [|i l IH]; intros state Hl; simpl.
  - by apply Exists_nil in Hl.
  - destruct (state !! i) as [c|] eqn:Hc;
      [rewrite (bump_Some _ _ _ _ Hc)|by rewrite (bump_None _ _ _ Hc)].
    cbn. apply IH. rewrite length_insert.
    apply Exists_cons in Hl as [Hi|Hl]; [|done].
    apply lookup_lt_Some in Hc. lia.
Qed.

(** The reaction run backwards. *)
Definition reverse_reaction (reaction : Reaction) : Reaction :=
  mkReaction (products reaction) (reactants reaction).

Lemma update_state_cases (state : list Z) (reaction : Reaction) :
  (Forall (λ i, i < length state) (reactants reaction ++ products reaction) →
   ∃ state', update_state state reaction = Ok state'
     ∧ length state' = length state
     ∧ ∀ i c, state !! i = Some c →
         state' !! i = Some (c - occurrences i (reactants reaction)
                             + occurrences i (products reaction))%Z)
  ∧ (Exists (λ i, length state ≤ i) (reactants reaction ++ products reaction) →
     update_state state reaction = Raise IndexError).
Proof.
  split.
  - intros [Hr Hp]%Forall_app.
    destruct (for_each_bump_total (-1) _ _ Hr) as [state1 H1].
    pose proof (for_each_bump _ _ _ _ H1) as [Hlen1 _].
    rewrite <-Hlen1 in Hp.
    destruct (for_each_bump_total 1 _ _ Hp) as [state' H2].
    assert (update_state state reaction = Ok state') as Hrun.
    { unfold update_state. rewrite H1. cbn. done. }
    exists state'. split; [done|]. by apply update_state_lookup.
  - intros [Hr|Hp]%Exists_app; unfold update_state.
    + by rewrite for_each_bump_raise.
    + destruct (for_each (bump (-1)) state (reactants reaction))
        as [state1| |] eqn:H1; cbn.
      * apply for_each_bump in H1 as [Hlen1 _].
        apply for_each_bump_raise. by rewrite Hlen1.
      * destruct (decide (Forall (λ i, i < length state) (reactants reaction)))
          as [Hall|Hsome].
        -- destruct (for_each_bump_total (-1) _ _ Hall). congruence.
        -- apply not_Forall_Exists in Hsome; [|apply _].
           rewrite for_each_bump_raise in H1; [done|].
           eapply Exists_impl; [done|]. simpl. lia.
      * destruct (decide (Forall (λ i, i < length state) (reactants reaction)))
          as [Hall|Hsome].
        -- destruct (for_each_bump_total (-1) _ _ Hall). congruence.
        -- apply not_Forall_Exists in Hsome; [|apply _].
           rewrite for_each_bump_raise in H1; [done|].
           eapply Exists_impl; [done|]. simpl. lia.
Qed.

(** X1: [update_state] succeeds exactly when every listed species index
    lies inside the state array: it then keeps the length of the array
    and moves each count by the number of listings among the products
    minus the number among the reactants; an index past the end makes it
    raise [IndexError]. *)
Theorem update_state_outcome (state : list Z) (reaction : Reaction) :
  (Forall (λ i, i < length state) (reactants reaction ++ products reaction) →
   ∃ state', update_state state reaction = Ok state'
     ∧ length state' = length state
     ∧ ∀ i c, state !! i = Some c →
         state' !! i = Some (c - occurrences i (reactants reaction)
                             + occurrences i (products reaction))%Z)
  ∧ (Exists (λ i, length state ≤ i) (reactants reaction ++ products reaction) →
     update_state state reaction = Raise IndexError).
Proof. apply update_state_cases. Qed.

Lemma update_state_in_range state reaction state' :
  update_state state reaction = Ok state' →
  Forall (λ i, i < length state) (reactants reaction ++ products reaction).
Proof.
  intros Hrun.
  destruct (decide (Forall (λ i, i < length state)
                      (reactants reaction ++ products reaction)))
    as [?|Hsome]; [done|].
  apply not_Forall_Exists in Hsome; [|apply _].
  destruct (update_state_cases state reaction) as [_ Hraise].
  rewrite Hraise in Hrun; [done|].
  eapply Exists_impl; [done|]. simpl. lia.
Qed.

(** X2: applying a reaction and then the same reaction run backwards
    gives the state array back. *)
Theorem update_state_reverse (state state' : list Z) (reaction : Reaction) :
  update_state state reaction = Ok state' →
  update_state state' (reverse_reaction reaction) = Ok state.
Proof.
  intros Hrun.
  pose proof (update_state_in_range _ _ _ Hrun) as Hrange.
  pose proof (update_state_lookup _ _ _ Hrun) as [Hlen Hget].
  destruct (update_state_cases state' (reverse_reaction reaction))
    as [Hok _].
  destruct Hok as (state2 & Hrun2 & Hlen2 & Hget2).
  { rewrite Hlen. simpl. apply Forall_app. apply Forall_app in Hrange.
    by destruct Hrange. }
  rewrite Hrun2. f_equal. apply list_eq_same_length with (length state);
    [done|congruence|].
  intros i x y Hi Hx Hy.
  destruct (lookup_lt_is_Some_2 state i Hi) as [c Hc].
  rewrite (Hget2 _ _ (Hget _ _ Hc)) in Hx. simpl in Hx.
  rewrite Hc in Hy. injection Hx as <-. injection Hy as <-. lia.
Qed.

Lemma update_state_reverse_witness :
  update_state [0; 0; 1]%Z (reverse_reaction (mkReaction [0] [1; 2]))
  = Ok [1; -1; 0]%Z.
Proof.
  apply (update_state_reverse [1; -1; 0]%Z [0; 0; 1]%Z (mkReaction [0] [1; 2])).
  reflexivity.
Defined.

End UpdateStateFacts.

(** ** Further facts about pathway reconstruction *)

Section PathwayMoreFacts.
Import Analyze.
Variable index_to_reaction : Z → option Reaction.

Lemma first_producing_elem history s idx :
  first_producing index_to_reaction history s = Ok (Some idx) →
  idx ∈ history.
Proof.
  induction history as [|i history IH]; simpl; [done|].
  intros (reaction & Hr & Hrun)%bind_Ok.
  case_bool_decide; [injection Hrun as <-; by left|right; by apply IH].
Qed.

(** A resolution pass over a list of species only prepends indices of
    the history to the pathway. *)
Lemma resolve_pass_pathway history species : ∀ st st',
  for_each (resolve_species index_to_reaction history) st species = Ok st' →
  ∃ pre, st'.2 = pre ++ st.2 ∧ Forall (λ i, i ∈ history) pre.
Proof.
  induction species as [|s species IH]; intros [state pw] st'; simpl.
  - intros [= <-]. by exists [].
  - intros ([state1 pw1] & Hstep & Hrest)%bind_Ok.
    destruct (IH _ _ Hrest) as (pre & -> & Hpre). simpl.
    apply resolve_species_Ok in Hstep
      as [(_ & _ & ->)|(idx & r & Hfound & _ & _ & _ & ->)].
    + by exists pre.
    + exists (pre ++ [idx]). rewrite <-(assoc_L (++)). split; [done|].
      apply Forall_app. split; [done|]. apply Forall_singleton.
      by eapply first_producing_elem.
Qed.

Lemma resolve_loop_pathway fuel history : ∀ st pw',
  resolve_loop index_to_reaction fuel history st = Ok pw' →
  ∃ pre, pw' = pre ++ st.2 ∧ Forall (λ i, i ∈ history) pre.
Proof.
  induction fuel as [|fuel IH]; intros st pw'; simpl.
  - destruct (negative_species st.1); [|done].
    intros [= <-]. by exists [].
  - destruct (negative_species st.1) as [|s species] eqn:Hneg.
    { intros [= <-]. by exists []. }
    intros (st1 & Hpass & Hloop)%bind_Ok.
    destruct (IH _ _ Hloop) as (pre1 & -> & Hpre1).
    destruct (resolve_pass_pathway history (s :: species) st st1 Hpass)
      as (pre0 & -> & Hpre0).
    exists (pre1 ++ pre0). rewrite <-(assoc_L (++)). split; [done|].
    by apply Forall_app.
Qed.

(** X3: a pathway reconstructed from a history ends with the first
    reaction of the history that produces the target species, and every
    reaction index in it occurs in the history. *)
Theorem pathway_of_history_sound (fuel : nat) (initial_state : list Z)
    (target_species_index : nat) (reaction_history pw : list Z) :
  pathway_of_history index_to_reaction fuel initial_state
    target_species_index reaction_history = Ok (Some pw) →
  ∃ pre last reaction,
    pw = pre ++ [last]
    ∧ first_producing index_to_reaction reaction_history
        target_species_index = Ok (Some last)
    ∧ index_to_reaction last = Some reaction
    ∧ target_species_index ∈ products reaction
    ∧ Forall (λ i, i ∈ reaction_history) pw.
Proof.
  unfold pathway_of_history.
  intros (found & Hfound & Hrun)%bind_Ok.
  destruct found as [last|]; cbn [from_option] in Hrun; [|done].
  unfold Datatypes.id in Hrun.
  case_bool_decide; [done|].
  apply bind_Ok in Hrun as (final_reaction & Hfinal & Hrun).
  apply bind_Ok in Hrun as (partial_state & Hupd & Hrun).
  apply bind_Ok in Hrun as (pw' & Hloop & [= <-]).
  apply resolve_loop_pathway in Hloop as (pre & -> & Hpre). simpl.
  destruct (first_producing_Some _ _ _ _ Hfound) as (reaction & Hr & Hprod).
  exists pre, last, reaction. split_and!; try done.
  apply Forall_app. split; [done|]. apply Forall_singleton.
  by eapply first_producing_elem.
Qed.

(** X4: when some species has a negative count and the history holds no
    reaction producing any of the negative-count species, a pass of the
    resolution loop changes nothing, so the loop never ends: it exhausts
    every step budget. *)
Theorem resolve_loop_diverges (fuel : nat) (reaction_history : list Z)
    (st : list Z * list Z) :
  negative_species st.1 ≠ [] →
  Forall (λ s, first_producing index_to_reaction reaction_history s = Ok None)
    (negative_species st.1) →
  resolve_loop index_to_reaction fuel reaction_history st = OutOfFuel.
Proof.
  intros Hneg Hnone.
  assert (∀ species,
            Forall (λ s, first_producing index_to_reaction reaction_history s
                         = Ok None) species →
            for_each (resolve_species index_to_reaction reaction_history)
              st species = Ok st) as Hpass.
  { induction species as [|s species IH]; intros Hall; simpl; [done|].
    apply Forall_cons in Hall as [Hs Hall].
    assert (resolve_species index_to_reaction reaction_history st s = Ok st)
      as ->; [|cbn; by apply IH].
    unfold resolve_species. by rewrite Hs. }
  specialize (Hpass _ Hnone).
  induction fuel as [|fuel IH]; cbn [resolve_loop].
  - by destruct (negative_species st.1).
  - destruct (negative_species st.1) as [|s species]; [done|].
    rewrite Hpass. cbn. apply IH.
Qed.

End PathwayMoreFacts.

Section PathwayMoreExamples.
Import Analyze.

Lemma pathway_of_history_sound_witness :
  ∃ pre last reaction,
    [0; 1]%Z = pre ++ [last]
    ∧ first_producing chain_reactions [0; 1]%Z 2 = Ok (Some last)
    ∧ chain_reactions last = Some reaction
    ∧ 2 ∈ products reaction
    ∧ Forall (λ i, i ∈ [0; 1]%Z) [0; 1]%Z.
Proof.
  apply (pathway_of_history_sound chain_reactions 1 [1; 0; 0]%Z 2).
  reflexivity.
Defined.

(** With nothing of species 0 at the start, the chain [0 -> 1 -> 2]
    cannot be resolved: species 0 stays negative for ever. *)
Lemma resolve_loop_diverges_witness :
  resolve_loop chain_reactions 1000 [0; 1]%Z ([-1; 0; 1]%Z, [0; 1]%Z)
  = OutOfFuel.
Proof.
  apply (resolve_loop_diverges chain_reactions).
  - simpl. discriminate.
  - simpl. by repeat constructor.
Defined.

End PathwayMoreExamples.

(** *** Replaying a reconstructed pathway *)

Section ReplayFacts.
Import Analyze.
Variable index_to_reaction : Z → option Reaction.

(** The reactions of a pathway applied in order to a state array. *)
Definition apply_pathway (state : list Z) (pw : list Z) : outcome (list Z) :=
  for_each (λ st reaction_index,
              reaction ← lookup_or KeyError (index_to_reaction reaction_index);
              update_state st reaction)
           state pw.

(** The net change of the count of species [j] over a pathway. *)
Fixpoint net_change (pw : list Z) (j : nat) : Z :=
  match pw with
  | [] => 0
  | i :: pw' =>
      match index_to_reaction i with
      | Some r =>
          (occurrences j (products r) - occurrences j (reactants r)
           + net_change pw' j)%Z
      | None => net_change pw' j
      end
  end.

(** [st] is [init] moved by the net change of [pw], all of whose
    reactions are known and stay inside the array. *)
Definition explains (init st pw : list Z) : Prop :=
  length st = length init
  ∧ Forall (λ i, ∃ r, index_to_reaction i = Some r
                      ∧ Forall (λ x, x < length init)
                          (reactants r ++ products r)) pw
  ∧ ∀ j c, init !! j = Some c → st !! j = Some (c + net_change pw j)%Z.

Lemma explains_step init st pw idx r st' :
  explains init st pw →
  index_to_reaction idx = Some r →
  update_state st r = Ok st' →
  explains init st' (idx :: pw).
Proof.
  intros (Hlen & Hall & Hget) Hr Hupd.
  pose proof (update_state_in_range _ _ _ Hupd) as Hrange.
  apply update_state_lookup in Hupd as [Hlen' Hget'].
  split_and!.
  - congruence.
  - apply Forall_cons. split; [|done]. exists r. by rewrite <-Hlen.
  - intros j c Hc. rewrite (Hget' _ _ (Hget _ _ Hc)). simpl. rewrite Hr.
    f_equal. lia.
Qed.

Lemma explains_pass init history species : ∀ st st',
  explains init st.1 st.2 →
  for_each (resolve_species index_to_reaction history) st species = Ok st' →
  explains init st'.1 st'.2.
Proof.
  induction species as [|s species IH]; intros [state pw] st' Hinv; simpl.
  - by intros [= <-].
  - intros ([state1 pw1] & Hstep & Hrest)%bind_Ok.
    apply (IH _ _) in Hrest; [done|]. simpl.
    apply resolve_species_Ok in Hstep
      as [(_ & -> & ->)|(idx & r & _ & Hr & _ & Hupd & ->)]; [done|].
    by eapply explains_step.
Qed.

Lemma explains_loop init fuel history : ∀ st pw',
  explains init st.1 st.2 →
  resolve_loop index_to_reaction fuel history st = Ok pw' →
  ∃ final, explains init final pw' ∧ negative_species final = [].
Proof.
  induction fuel as [|fuel IH]; intros st pw' Hinv; cbn [resolve_loop].
  - destruct (negative_species st.1) eqn:Hneg; [|done].
    intros [= <-]. by exists st.1.
  - destruct (negative_species st.1) as [|s species] eqn:Hneg.
    { intros [= <-]. by exists st.1. }
    intros (st1 & Hpass & Hloop)%bind_Ok.
    apply (IH st1); [|done]. by eapply explains_pass.
Qed.

Lemma apply_pathway_cons state i pw r :
  index_to_reaction i = Some r →
  apply_pathway state (i :: pw) =
    state' ← update_state state r; apply_pathway state' pw.
Proof. intros Hr. unfold apply_pathway. simpl. by rewrite Hr. Qed.

Lemma apply_pathway_net (init : list Z) pw : ∀ state : list Z,
  length state = length init →
  Forall (λ i, ∃ r, index_to_reaction i = Some r
                    ∧ Forall (λ x, x < length init)
                        (reactants r ++ products r)) pw →
  ∃ state', apply_pathway state pw = Ok state'
    ∧ length state' = length init
    ∧ ∀ j c, state !! j = Some c →
        state' !! j = Some (c + net_change pw j)%Z.
Proof.
  induction pw as [|i pw IH]; intros state Hlen Hall.
  - exists state. split_and!; [done..|].
    intros j c ->. simpl. f_equal. lia.
  - apply Forall_cons in Hall as [(r & Hr & Hrange) Hall].
    rewrite (apply_pathway_cons _ _ _ _ Hr).
    destruct (update_state_cases state r) as [Hok _].
    destruct Hok as (state1 & Hupd & Hlen1 & Hget1); [by rewrite Hlen|].
    rewrite Hupd. cbn.
    destruct (IH state1) as (state' & Hrun & Hlen' & Hget'); [congruence|done|].
    exists state'. split_and!; [done..|].
    intros j c Hc. rewrite (Hget' _ _ (Hget1 _ _ Hc)). simpl. rewrite Hr.
    f_equal. lia.
Qed.

(** X5: when the reconstruction of a pathway finishes, replaying the
    reactions of the pathway in order on the initial state succeeds and
    ends in a state in which no species has a negative count. *)
Theorem pathway_of_history_replay (fuel : nat) (initial_state : list Z)
    (target_species_index : nat) (reaction_history pw : list Z) :
  pathway_of_history index_to_reaction fuel initial_state
    target_species_index reaction_history = Ok (Some pw) →
  ∃ final,
    apply_pathway initial_state pw = Ok final
    ∧ negative_species final = [].
Proof.
  unfold pathway_of_history.
  intros (found & Hfound & Hrun)%bind_Ok.
  destruct found as [last|]; cbn [from_option] in Hrun; [|done].
  unfold Datatypes.id in Hrun.
  case_bool_decide; [done|].
  apply bind_Ok in Hrun as (final_reaction & Hfinal & Hrun).
  apply bind_Ok in Hrun as (partial_state & Hupd & Hrun).
  apply bind_Ok in Hrun as (pw' & Hloop & [= <-]).
  destruct (index_to_reaction last) as [r|] eqn:Hr; [|done].
  injection Hfinal as <-.
  assert (explains initial_state initial_state []) as Hinit.
  { split_and!; [done|constructor|]. intros j c ->. simpl. f_equal. lia. }
  pose proof (explains_step _ _ _ _ _ _ Hinit Hr Hupd) as Hstart.
  destruct (explains_loop initial_state _ _ (partial_state, [last]) pw'
              Hstart Hloop) as (final & (Hlen & Hall & Hget) & Hneg).
  destruct (apply_pathway_net initial_state pw' initial_state eq_refl Hall)
    as (final' & Hrun & Hlen' & Hget').
  exists final'. split; [done|].
  assert (final' = final) as ->; [|done].
  apply list_eq_same_length with (length initial_state); [done..|].
  intros j x y Hj Hx Hy.
  destruct (lookup_lt_is_Some_2 initial_state j Hj) as [c Hc].
  rewrite (Hget' _ _ Hc) in Hx. rewrite (Hget _ _ Hc) in Hy. congruence.
Qed.

End ReplayFacts.

Section ReplayExamples.
Import Analyze.

Lemma pathway_of_history_replay_witness :
  ∃ final,
    apply_pathway chain_reactions [1; 0; 0]%Z [0; 1]%Z = Ok final
    ∧ negative_species final = [].
Proof.
  apply (pathway_of_history_replay chain_reactions 1 [1; 0; 0]%Z 2 [0; 1]%Z).
  reflexivity.
Defined.

End ReplayExamples.

(** ** Tallies of trajectory events ([analyze.py]) *)

Module Tally.
Import Analyze.

(** [if i in d: d[i] += 1 else: d[i] = 1] on a dictionary of counts. *)
Definition count_step (d : gmap Z nat) (i : Z) : gmap Z nat :=
  match d !! i with
  | Some n => <[i := n + 1]> d
  | None => <[i := 1]> d
  end.

(** The tally loop of [generate_reaction_tally_report]:
    [observed_reactions]. *)
Definition observed_reactions (reaction_histories : list (list Z))
    : gmap Z nat :=
  foldl (foldl count_step) ∅ reaction_histories.

(** The state of the loops of [extract_species_consumption_info]. *)
Record Consumption := mkConsumption {
  running_count : Z;
  producing_reactions : gmap Z nat;
  consuming_reactions : gmap Z nat
}.

Section Consumption.
Variable index_to_reaction : Z → option Reaction.

(** The body of [for reactant_index in reaction["reactants"]]. *)
Definition consume_step (target_species_index : nat) (reaction_index : Z)
    (st : Consumption) (reactant_index : nat) : Consumption :=
  if bool_decide (target_species_index = reactant_index) then
    mkConsumption (running_count st - 1) (producing_reactions st)
      (count_step (consuming_reactions st) reaction_index)
  else st.

(** The body of [for product_index in reaction["products"]]. *)
Definition produce_step (target_species_index : nat) (reaction_index : Z)
    (st : Consumption) (product_index : nat) : Consumption :=
  if bool_decide (target_species_index = product_index) then
    mkConsumption (running_count st + 1)
      (count_step (producing_reactions st) reaction_index)
      (consuming_reactions st)
  else st.

(** The body of [for reaction_index in reaction_history]. *)
Definition event_step (target_species_index : nat) (st : Consumption)
    (reaction_index : Z) : outcome Consumption :=
  reaction ← lookup_or KeyError (index_to_reaction reaction_index);
  let st :=
    foldl (consume_step target_species_index reaction_index) st
      (reactants reaction) in
  Ok (foldl (produce_step target_species_index reaction_index) st
        (products reaction)).

(** The body of [for reaction_history in self.reaction_histories], on
    [(producing_reactions, consuming_reactions, final_counts)]. *)
Definition history_step (initial_state : list Z) (target_species_index : nat)
    (acc : gmap Z nat * gmap Z nat * list Z) (reaction_history : list Z)
    : outcome (gmap Z nat * gmap Z nat * list Z) :=
  let '(producing, consuming, final_counts) := acc in
  initial_count ←
    lookup_or IndexError (initial_state !! target_species_index);
  st ← for_each (event_step target_species_index)
         (mkConsumption initial_count producing consuming) reaction_history;
  Ok (producing_reactions st, consuming_reactions st,
      final_counts ++ [running_count st]).

(** [extract_species_consumption_info(target_species_index)] *)
Definition extract_species_consumption_info (initial_state : list Z)
    (reaction_histories : list (list Z)) (target_species_index : nat)
    : outcome (gmap Z nat * gmap Z nat * list Z) :=
  for_each (history_step initial_state target_species_index)
    (∅, ∅, []) reaction_histories.

End Consumption.

End Tally.

(** ** Theorems about the tallies *)

Section SumFacts.
Context {K : Type} `{Countable K}.

(** The sum of the counts stored in a dictionary. *)
Definition sum_counts (d : gmap K nat) : nat :=
  map_fold (λ _ n acc, n + acc) 0 d.

Lemma sum_counts_empty : sum_counts ∅ = 0.
Proof. unfold sum_counts. by rewrite map_fold_empty. Qed.

Lemma sum_counts_insert_None (d : gmap K nat) k n :
  d !! k = None → sum_counts (<[k := n]> d) = n + sum_counts d.
Proof.
  intros Hk. unfold sum_counts.
  rewrite map_fold_insert_L; [done| |done]. intros; lia.
Qed.

Lemma sum_counts_insert_Some (d : gmap K nat) k n m :
  d !! k = Some m → sum_counts (<[k := n]> d) + m = n + sum_counts d.
Proof.
  intros Hk.
  rewrite <-(insert_delete_eq d k n).
  rewrite <-(insert_delete_id d k m) at 2 by done.
  rewrite !sum_counts_insert_None by apply lookup_delete_eq. lia.
Qed.

End SumFacts.

Section TallyFacts.
Import Analyze Tally.

Lemma sum_counts_count_step (d : gmap Z nat) i :
  sum_counts (count_step d i) = S (sum_counts d).
Proof.
  unfold count_step. destruct (d !! i) as [n|] eqn:Hi.
  - pose proof (sum_counts_insert_Some d i (n + 1) n Hi). lia.
  - by rewrite sum_counts_insert_None.
Qed.

Lemma count_step_lookup (d : gmap Z nat) i j :
  count_step d i !! j =
    if decide (i = j) then Some (S (default 0 (d !! j))) else d !! j.
Proof.
  unfold count_step. case_decide as Hij.
  - subst j. destruct (d !! i) as [n|]; rewrite lookup_insert_eq; simpl;
      f_equal; lia.
  - destruct (d !! i); by rewrite lookup_insert_ne.
Qed.

(** Number of events with index [i] in a history. *)
Definition events (i : Z) (history : list Z) : nat :=
  length (filter (λ j, j = i) history).

Lemma foldl_count_step_lookup history : ∀ (d : gmap Z nat) i,
  default 0 (foldl count_step d history !! i)
  = default 0 (d !! i) + events i history
  ∧ (foldl count_step d history !! i = None →
     d !! i = None ∧ events i history = 0).
Proof.
  unfold events.
  induction history as [|j history IH]; intros d i; simpl.
  - split; [lia|done].
  - destruct (IH (count_step d j) i) as [IH1 IH2].
    rewrite filter_cons, count_step_lookup in *.
    case_decide; subst; simpl in *.
    + split; [lia|]. intros Hnone. by destruct (IH2 Hnone).
    + split; [lia|]. intros Hnone. by destruct (IH2 Hnone).
Qed.

(** X6: the tally of [generate_reaction_tally_report] maps every
    reaction index to the number of events with that index over all
    histories, and holds no entry for an index that never occurs. *)
Theorem observed_reactions_spec (reaction_histories : list (list Z)) (i : Z) :
  observed_reactions reaction_histories !! i =
    match events i (concat reaction_histories) with
    | O => None
    | S n => Some (S n)
    end.
Proof.
  unfold observed_reactions.
  assert (∀ d : gmap Z nat,
            foldl (foldl count_step) d reaction_histories
            = foldl count_step d (concat reaction_histories)) as ->.
  { induction reaction_histories as [|h hs IH]; intros d; simpl; [done|].
    by rewrite IH, foldl_app. }
  destruct (foldl_count_step_lookup (concat reaction_histories) ∅ i)
    as [Hsum Hnone].
  rewrite lookup_empty in Hsum. simpl in Hsum.
  destruct (foldl count_step ∅ (concat reaction_histories) !! i) as [n|]
    eqn:Hi; simpl in Hsum.
  - rewrite <-Hsum. destruct n; [|done].
    exfalso. clear -Hi.
    assert (∀ history (d : gmap Z nat),
              (∀ j, d !! j ≠ Some 0) →
              ∀ j, foldl count_step d history !! j ≠ Some 0) as Hpos.
    { induction history as [|k history IH]; intros d Hd; simpl; [done|].
      apply IH. intros j. rewrite count_step_lookup. by case_decide. }
    eapply (Hpos _ ∅); [|done]. intros j. by rewrite lookup_empty.
  - by destruct (Hnone eq_refl) as [_ ->].
Qed.

End TallyFacts.


Section ConsumptionFacts.
Import Analyze Tally.
Variable index_to_reaction : Z → option Reaction.

(** The quantity the event loop keeps: the running count minus what was
    tallied as produced plus what was tallied as consumed. *)
Definition balance (st : Consumption) : Z :=
  (running_count st - Z.of_nat (sum_counts (producing_reactions st))
   + Z.of_nat (sum_counts (consuming_reactions st)))%Z.

Lemma consume_step_balance target idx st x :
  balance (consume_step target idx st x) = balance st.
Proof.
  unfold consume_step, balance. case_bool_decide; [|done]. simpl.
  rewrite sum_counts_count_step. lia.
Qed.

Lemma produce_step_balance target idx st x :
  balance (produce_step target idx st x) = balance st.
Proof.
  unfold produce_step, balance. case_bool_decide; [|done]. simpl.
  rewrite sum_counts_count_step. lia.
Qed.

Lemma event_step_balance target st idx st' :
  event_step index_to_reaction target st idx = Ok st' →
  balance st' = balance st.
Proof.
  unfold event_step. intros (r & _ & [= <-])%bind_Ok.
  assert (∀ l s, balance (foldl (produce_step target idx) s l) = balance s)
    as Hp.
  { induction l as [|x l IH]; intros s; simpl; [done|].
    by rewrite IH, produce_step_balance. }
  assert (∀ l s, balance (foldl (consume_step target idx) s l) = balance s)
    as Hc.
  { induction l as [|x l IH]; intros s; simpl; [done|].
    by rewrite IH, consume_step_balance. }
  by rewrite Hp, Hc.
Qed.

Lemma events_balance target history : ∀ st st',
  for_each (event_step index_to_reaction target) st history = Ok st' →
  balance st' = balance st.
Proof.
  induction history as [|idx history IH]; intros st st'; simpl.
  - by intros [= <-].
  - intros (st1 & Hstep & Hrest)%bind_Ok.
    rewrite (IH _ _ Hrest). by eapply event_step_balance.
Qed.

(** The sum of a list of counts. *)
Definition sum_Z (l : list Z) : Z := foldr Z.add 0%Z l.

Lemma sum_Z_app l1 l2 : sum_Z (l1 ++ l2) = (sum_Z l1 + sum_Z l2)%Z.
Proof. induction l1 as [|x l1 IH]; simpl; [done|]. rewrite IH. lia. Qed.

(** X7: [extract_species_consumption_info] returns one final count per
    history, and the final counts add up to the initial count of the
    target species taken once per history, plus the total of the
    producing tallies, minus the total of the consuming tallies. *)
Theorem extract_species_consumption_info_balance
    (initial_state : list Z) (reaction_histories : list (list Z))
    (target_species_index : nat)
    (producing consuming : gmap Z nat) (final_counts : list Z) (c0 : Z) :
  initial_state !! target_species_index = Some c0 →
  extract_species_consumption_info index_to_reaction initial_state
    reaction_histories target_species_index
    = Ok (producing, consuming, final_counts) →
  length final_counts = length reaction_histories
  ∧ sum_Z final_counts
    = (Z.of_nat (length reaction_histories) * c0
       + Z.of_nat (sum_counts producing)
       - Z.of_nat (sum_counts consuming))%Z.
Proof.
  intros Hc0. unfold extract_species_consumption_info.
  assert (∀ histories acc acc',
            for_each (history_step index_to_reaction initial_state
                        target_species_index) acc histories = Ok acc' →
            length acc'.2 = length acc.2 + length histories
            ∧ (sum_Z acc'.2 - Z.of_nat (sum_counts acc'.1.1)
               + Z.of_nat (sum_counts acc'.1.2)
               = sum_Z acc.2 - Z.of_nat (sum_counts acc.1.1)
                 + Z.of_nat (sum_counts acc.1.2)
                 + Z.of_nat (length histories) * c0)%Z) as Hloop.
  { induction histories as [|h histories IH]; intros acc acc'; simpl.
    - intros [= <-]. split; lia.
    - intros (acc1 & Hstep & Hrest)%bind_Ok.
      destruct (IH _ _ Hrest) as [Hlen Hsum]. rewrite Hlen, Hsum.
      destruct acc as [[P C] F]. unfold history_step in Hstep.
      rewrite Hc0 in Hstep. cbn in Hstep.
      apply bind_Ok in Hstep as (st & Hevents & [= <-]).
      apply events_balance in Hevents. unfold balance in Hevents.
      simpl in *. rewrite length_app, sum_Z_app. simpl. split; lia. }
  intros Hrun. destruct (Hloop _ _ _ Hrun) as [Hlen Hsum]. simpl in *.
  rewrite sum_counts_empty in Hsum. split; lia.
Qed.

End ConsumptionFacts.

Section ConsumptionExamples.
Import Analyze Tally.

Lemma extract_species_consumption_info_balance_witness :
  length [0%Z] = length [[0; 1]%Z]
  ∧ sum_Z [0%Z]
    = (Z.of_nat (length [[0; 1]%Z]) * 0
       + Z.of_nat (sum_counts ({[0%Z := 1%nat]} : gmap Z nat))
       - Z.of_nat (sum_counts ({[1%Z := 1%nat]} : gmap Z nat)))%Z.
Proof.
  apply (extract_species_consumption_info_balance chain_reactions
           [1; 0; 0]%Z [[0; 1]%Z] 1%nat {[0%Z := 1%nat]} {[1%Z := 1%nat]} [0%Z] 0%Z).
  - reflexivity.
  - reflexivity.
Defined.

End ConsumptionExamples.

(** ** Further facts about pathway collection *)

Section FrequencyFacts.
Import Analyze.
Variable index_to_reaction : Z → option Reaction.

(** The sum of the frequencies recorded in a pathway dictionary. *)
Definition total_frequency (d : gmap (gset Z) PathRecord) : nat :=
  sum_counts (frequency <$> d).

Lemma total_frequency_collect_step d p :
  total_frequency (collect_step d p) = S (total_frequency d).
Proof.
  unfold total_frequency, collect_step.
  destruct (d !! list_to_set p) as [rec|] eqn:Hk; rewrite fmap_insert; simpl.
  - pose proof (sum_counts_insert_Some (frequency <$> d) (list_to_set p)
                  (frequency rec + 1) (frequency rec)) as Hs.
    rewrite lookup_fmap, Hk in Hs. specialize (Hs eq_refl). lia.
  - rewrite sum_counts_insert_None; [done|]. by rewrite lookup_fmap, Hk.
Qed.

Lemma total_frequency_collect pathways :
  total_frequency (collect_duplicate_pathways pathways) = length pathways.
Proof.
  unfold collect_duplicate_pathways.
  assert (∀ d, total_frequency (foldl collect_step d pathways)
               = total_frequency d + length pathways) as Hloop.
  { induction pathways as [|p pathways IH]; intros d; simpl; [lia|].
    rewrite IH, total_frequency_collect_step. lia. }
  rewrite Hloop. unfold total_frequency.
  by rewrite fmap_empty, sum_counts_empty.
Qed.

(** A history yields a pathway when one of its reactions produces the
    target; the index [-1] is the loop's "not found" mark, so a first
    producer with that index counts as none. *)
Definition produces_target (target_species_index : nat)
    (reaction_history : list Z) : bool :=
  match first_producing index_to_reaction reaction_history
          target_species_index with
  | Ok (Some reaction_index) => bool_decide (reaction_index ≠ (-1)%Z)
  | _ => false
  end.

Lemma pathway_of_history_is_Some fuel initial_state target history p :
  pathway_of_history index_to_reaction fuel initial_state target history
    = Ok p →
  is_Some p ↔ produces_target target history = true.
Proof.
  unfold pathway_of_history, produces_target.
  intros (found & -> & Hrest)%bind_Ok.
  destruct found as [i|]; simpl in Hrest.
  - unfold Datatypes.id in Hrest. case_bool_decide as Hi.
    + injection Hrest as <-. rewrite bool_decide_eq_false_2 by tauto.
      split; [by intros [? ?]|done].
    + rewrite bool_decide_eq_true_2 by done.
      apply bind_Ok in Hrest as (r & _ & Hrest).
      apply bind_Ok in Hrest as (st & _ & Hrest).
      apply bind_Ok in Hrest as (pw & _ & [= <-]). by split; [|eexists].
  - injection Hrest as <-.
    split; [by intros [? ?]|done].
Qed.


End FrequencyFacts.

Section FrequencyExamples.
Import Analyze.


End FrequencyExamples.

(** ** Further facts about loading *)

Section LoaderMoreFacts.
Import Loader.

(** Splitting yields one more piece than there are separators. *)
Lemma split_on_length sep s :
  length (split_on sep s) = S (length (filter (λ c, c = sep) (chars s))).
Proof.
  induction s as [|c s IH]; simpl; [done|].
  rewrite filter_cons. destruct (Ascii.eqb_spec c sep) as [->|Hne].
  - rewrite decide_True by done. simpl. by rewrite IH.
  - rewrite decide_False by done.
    destruct (split_on sep s) as [|piece rest]; [done|]. by rewrite <-IH.
Qed.

Lemma seed_of_Ok x : "_"%char ∈ chars x → ∃ seed, seed_of x = Ok seed.
Proof.
  intros Hin. unfold seed_of.
  destruct (split_on "_" x !! 1) as [seed|] eqn:Hseed; [by exists seed|].
  apply lookup_ge_None in Hseed. rewrite split_on_length in Hseed.
  assert ("_"%char ∈ filter (λ c, c = "_"%char) (chars x)) as Hf.
  { by apply list_elem_of_filter. }
  destruct (filter _ (chars x)); [by apply elem_of_nil in Hf|simpl in *; lia].
Qed.

Lemma seed_of_IndexError x : "_"%char ∉ chars x → seed_of x = Raise IndexError.
Proof.
  intros Hnotin. unfold seed_of.
  destruct (split_on "_" x !! 1) as [seed|] eqn:Hseed; [|done].
  apply lookup_lt_Some in Hseed. rewrite split_on_length in Hseed.
  destruct (filter _ (chars x)) as [|c l] eqn:Hf; [simpl in *; lia|].
  assert (c ∈ filter (λ c, c = "_"%char) (chars x)) as Hc.
  { rewrite Hf. by left. }
  apply list_elem_of_filter in Hc as [-> Hc]. done.
Qed.

Lemma mapM_seed_of_Ok l :
  Forall (λ x, "_"%char ∈ chars x) l → ∃ seeds, mapM seed_of l = Ok seeds.
Proof.
  induction 1 as [|x l Hx _ [seeds IH]]; [by exists []|].
  destruct (seed_of_Ok x Hx) as [seed Hseed].
  exists (seed :: seeds). cbn. rewrite Hseed. cbn. by rewrite IH.
Qed.

Lemma mapM_seed_of_IndexError l :
  Exists (λ x, "_"%char ∉ chars x) l → mapM seed_of l = Raise IndexError.
Proof.
  induction 1 as [x l Hx|x l _ IH]; cbn.
  - by rewrite (seed_of_IndexError x Hx).
  - destruct (seed_of x) as [seed|e|] eqn:Hseed; cbn.
    + by rewrite IH.
    + by apply seed_of_Raise in Hseed as ->.
    + unfold seed_of, lookup_or in Hseed. by destruct (_ !! 1).
Qed.


End LoaderMoreFacts.

(** ** Further facts about bucketing *)

Section DictUpdateFacts.
Context {K V : Type} `{EqDecision K}.

Lemma get_update (k k' : K) (dflt : V) (f : V → V) (d : list (K * V)) :
  Dict.get k' (Dict.update k dflt f d) =
    if decide (k = k') then Some (f (default dflt (Dict.get k d)))
    else Dict.get k' d.
Proof.
  induction d as [|[k0 v] d IH]; simpl.
  - by repeat case_decide.
  - destruct (decide (k0 = k)) as [->|Hk0]; simpl.
    + destruct (decide (k = k')); [|done]. done.
    + rewrite IH. destruct (decide (k0 = k')) as [->|]; [|done].
      by rewrite decide_False by congruence.
Qed.

End DictUpdateFacts.

Section BucketLookupFacts.
Import MolEntry Bucket.
Context {Graph : Type}.
Implicit Types (m : MoleculeEntry Graph) (xs : list (MoleculeEntry Graph)).
Implicit Types (b : @MappingDict Graph).

(** [buckets[formula][num_bonds][charge]], [None] standing for a
    [KeyError] at any level. *)
Definition bucket_lookup (b : @MappingDict Graph) (key : string * Z * Z)
    : option (list (MoleculeEntry Graph)) :=
  by_bonds ← Dict.get key.1.1 b;
  by_charge ← Dict.get key.1.2 by_bonds;
  Dict.get key.2 by_charge.

Lemma bucket_insert_lookup b m key :
  bucket_lookup (bucket_insert b m) key =
    if decide (bucket_key m = key)
    then Some (default [] (bucket_lookup b key) ++ [m])
    else bucket_lookup b key.
Proof.
  destruct key as [[f n] c].
  unfold bucket_lookup, bucket_insert, bucket_key. simpl.
  rewrite get_update.
  destruct (decide (formula m = f)) as [<-|Hf]; simpl.
  2:{ rewrite decide_False by congruence. done. }
  rewrite get_update.
  destruct (decide (num_bonds m = n)) as [<-|Hn]; simpl.
  2:{ rewrite decide_False by congruence.
      by destruct (Dict.get (formula m) b). }
  rewrite get_update.
  destruct (decide (charge m = c)) as [<-|Hc]; simpl.
  2:{ rewrite decide_False by congruence.
      destruct (Dict.get (formula m) b) as [by_bonds|]; simpl; [|done].
      by destruct (Dict.get (num_bonds m) by_bonds). }
  rewrite decide_True by done.
  destruct (Dict.get (formula m) b) as [by_bonds|]; simpl; [|done].
  by destruct (Dict.get (num_bonds m) by_bonds).
Qed.


End BucketLookupFacts.

(** ** Further facts about the [free_energy] method *)

Section FreeEnergyMoreFacts.
Import MolEntry Reactions.
Context {Graph : Type}.
Variable mol_free_energy : option R → option R → option R → R → option R.

(** Each [free_energy] body assigns both directions a number or both
    [None]. *)
Lemma free_energy_1_1_paired rct pro T :
  is_None (free_energy_1_1 mol_free_energy rct pro T).1
  = is_None (free_energy_1_1 mol_free_energy rct pro T).2.
Proof.
  unfold free_energy_1_1.
  by destruct (thermo_free_energy mol_free_energy rct T),
    (thermo_free_energy mol_free_energy pro T).
Qed.

Lemma free_energy_1_2_paired rct pro0 pro1 T :
  is_None (free_energy_1_2 mol_free_energy rct pro0 pro1 T).1
  = is_None (free_energy_1_2 mol_free_energy rct pro0 pro1 T).2.
Proof.
  unfold free_energy_1_2.
  by destruct (thermo_free_energy mol_free_energy rct T),
    (thermo_free_energy mol_free_energy pro0 T),
    (thermo_free_energy mol_free_energy pro1 T).
Qed.

Lemma free_energy_redox_paired ty rct pro efe T ab :
  free_energy_redox mol_free_energy ty rct pro efe T = Ok ab →
  is_None ab.1 = is_None ab.2.
Proof.
  unfold free_energy_redox.
  destruct (free_energy_1_1 mol_free_energy rct pro T) as [[a|] [b|]];
    try (by intros [= <-]).
  destruct efe as [e|]; cbn; [|done]. by case_decide; intros [= <-].
Qed.

Lemma free_energy_concerted_paired rct pro rc pc efe T ab :
  free_energy_concerted mol_free_energy rct pro rc pc efe T = Ok ab →
  is_None ab.1 = is_None ab.2.
Proof.
  unfold free_energy_concerted.
  destruct (_ && _); [|by intros [= <-]].
  by intros (x & _ & (y & _ & [= <-])%bind_Ok)%bind_Ok.
Qed.

Lemma free_energy_frame_idempotent rc T compute (b b1 : Base Graph) :
  (∀ ab, compute = Ok ab → is_None ab.1 = is_None ab.2) →
  free_energy_frame rc T compute b = Ok b1 →
  free_energy_frame rc T compute b1 = Ok b1.
Proof.
  intros Hboth. unfold free_energy_frame.
  destruct b as [rs ps rm pm tA tB eA eB bA bB fA fB]; simpl.
  destruct (bool_decide (T = 298.15%R)), bA as [x|], bB as [y|], rc; simpl;
    try (by intros [= <-]);
    destruct compute as [[[a1|] [a2|]]| |] eqn:Hc; cbn;
    try (by intros [= <-]); try done;
    by specialize (Hboth _ eq_refl).
Qed.


Lemma free_energy_method_paired T (r r' : Reaction Graph) :
  free_energy_method mol_free_energy T r = Ok r' →
  is_None (free_energy_A (base_of r')) = is_None (free_energy_B (base_of r')).
Proof.
  destruct r as [b rct pro efe|b rct pro|b rct pro0 pro1|b rct pro0 pro1
                |b rct pro rc pc efe]; simpl;
    intros (b' & Hframe & [= <-])%bind_Ok; simpl;
    eapply free_energy_frame_both; try done.
  - intros ab. apply free_energy_redox_paired.
  - intros ab [= <-]. apply free_energy_1_1_paired.
  - intros ab [= <-]. apply free_energy_1_2_paired.
  - intros ab [= <-]. apply free_energy_1_2_paired.
  - intros ab. apply free_energy_concerted_paired.
Qed.

Lemma free_energy_frame_memo rc T compute (b b1 : Base Graph) :
  free_energy_frame rc T compute b = Ok b1 →
  (T ≠ 298.15%R
   ∨ (is_Some (base_free_energy_A b) ∧ is_Some (base_free_energy_B b)) →
   base_free_energy_A b1 = base_free_energy_A b
   ∧ base_free_energy_B b1 = base_free_energy_B b)
  ∧ (T = 298.15%R → rc = true →
     is_Some (base_free_energy_A b) → is_Some (base_free_energy_B b) →
     free_energy_A b1 = base_free_energy_A b
     ∧ free_energy_B b1 = base_free_energy_B b)
  ∧ (T = 298.15%R →
     ¬ (is_Some (base_free_energy_A b) ∧ is_Some (base_free_energy_B b)) →
     base_free_energy_A b1 = free_energy_A b1
     ∧ base_free_energy_B b1 = free_energy_B b1).
Proof.
  unfold free_energy_frame.
  destruct b as [rs ps rm pm tA tB eA eB bA bB fA fB]; simpl.
  case_bool_decide as HT;
    destruct bA as [x|], bB as [y|], rc; simpl;
    try (intros [= <-]; simpl);
    try (intros (ab & _ & [= <-])%bind_Ok; simpl);
    split_and!; try done; try tauto;
    try (by intros [?|[[? ?] [? ?]]]);
    try (by intros _ []; split; eexists);
    try (by intros ? _ [? ?]);
    try (by intros ? _ _ [? ?]).
Qed.


Lemma np_sum_Ok (l : list (option R)) :
  forallb (λ el, negb (is_None el)) l = true → ∃ x, np_sum l = Ok x.
Proof.
  unfold np_sum. generalize 0%R.
  induction l as [|[v|] l IH]; intros acc; simpl; [by eexists| |done].
  intros Hl. apply IH, Hl.
Qed.


End FreeEnergyMoreFacts.

Section FreeEnergyExamples.
Import MolEntry Reactions GraphRep.

(** A bond-change reaction as its constructor leaves it before
    [free_energy] has run: no memo, no free energies. *)
Definition demo_fresh_intramol : Reaction unit :=
  IntramolSingleBondChangeReaction
    (Reaction_init [demo_entry 0] [demo_entry 1] None None)
    (thermo_of (demo_entry 0)) (thermo_of (demo_entry 1)).

Lemma demo_fresh_intramol_free_energy :
  ∃ r1,
    free_energy_method demo_mol_free_energy 298.15 demo_fresh_intramol = Ok r1
    ∧ is_Some (free_energy_A (base_of r1))
    ∧ base_free_energy_A (base_of demo_fresh_intramol) = None.
Proof.
  unfold demo_fresh_intramol; simpl.
  unfold free_energy_frame. rewrite bool_decide_eq_true_2 by done.
  cbn. eexists. split; [done|]. simpl. by split; [eexists|].
Qed.



End FreeEnergyExamples.

(** ** Invariants of the graph embedding *)

Section GraphInvariants.
Import MolEntry Reactions DiGraph GraphRep.
Context {Graph : Type}.
Variable mol_free_energy : option R → option R → option R → R → option R.

Lemma for_each_preserves {A S} (Inv : S → Prop) (body : S → A → outcome S)
    (l : list A) : ∀ s s',
  Inv s →
  (∀ s x s', Inv s → body s x = Ok s' → Inv s') →
  for_each body s l = Ok s' → Inv s'.
Proof.
  induction l as [|x l IH]; intros s s' Hs Hbody; simpl.
  - by intros [= <-].
  - intros (s1 & Hx & Hrest)%bind_Ok. eapply IH; [|done|done]. by eapply Hbody.
Qed.

(** The weights of an edge that enters a composite node of a reaction
    with free energies [fA] (forward) and [fB] (backward). *)
Definition entering (fA fB : option R) (a : attrs) : Prop :=
  entry_weights fA fA = Ok a ∨ entry_weights fB fB = Ok a.

(** The shape every embedding has: edges join a species and a composite
    node, edges leaving a composite node carry the zero weights, edges
    entering one carry the weights of a free energy of the reaction;
    species nodes carry no attribute, composite nodes are marked
    [bipartite=1]. *)
Definition bipartite_graph (fA fB : option R) (g : DiGraph.t) : Prop :=
  (∀ u v a, edge_data g !! (u, v) = Some a →
     match u, v with
     | Composite _, Species _ => a = zero_weights
     | Species _, Composite _ => entering fA fB a
     | _, _ => False
     end)
  ∧ (∀ n a, node_data g !! n = Some a →
       match n with
       | Species _ => a = ∅
       | Composite _ => a !! "bipartite" = Some (VInt 1)
       end).

(** The invariant together with the presence of the composite node under
    construction. *)
Definition building (fA fB : option R) (name : string) (g : DiGraph.t)
    : Prop :=
  bipartite_graph fA fB g ∧ is_Some (node_data g !! Composite name).

Lemma entry_weights_union fe1 fe1' fe2 fe2' w1 w2 :
  entry_weights fe1 fe1' = Ok w1 → entry_weights fe2 fe2' = Ok w2 →
  w1 ∪ w2 = w1.
Proof.
  unfold entry_weights.
  intros (x1 & _ & (y1 & _ & [= <-])%bind_Ok)%bind_Ok.
  intros (x2 & _ & (y2 & _ & [= <-])%bind_Ok)%bind_Ok.
  apply map_eq. intros k. rewrite lookup_union.
  destruct (decide (k = "softplus")) as [->|]; [done|].
  destruct (decide (k = "exponent")) as [->|]; [done|].
  destruct (decide (k = "rexp")) as [->|]; [done|].
  destruct (decide (k = "weight")) as [->|]; [done|].
  by rewrite !lookup_insert_ne, !lookup_singleton_ne by done.
Qed.

Lemma entering_union fA fB a old :
  entering fA fB a → entering fA fB old → a ∪ old = a.
Proof. intros [?|?] [?|?]; by eapply entry_weights_union. Qed.

Lemma bipartite_empty fA fB : bipartite_graph fA fB DiGraph.empty.
Proof. split; intros *; simpl; by rewrite lookup_empty. Qed.

Lemma building_forget fA fB name g :
  building fA fB name g → bipartite_graph fA fB g.
Proof. by intros [? _]. Qed.

Lemma building_add_node fA fB name rxn_type energy free_energy eids g :
  bipartite_graph fA fB g →
  building fA fB name
    (add_node (Composite name)
       (node_attrs rxn_type energy free_energy eids) g).
Proof.
  intros [Hedges Hnodes]. split; [split|]; simpl.
  - done.
  - intros n a. destruct (decide (n = Composite name)) as [->|Hne].
    + rewrite lookup_update_attrs_eq. intros [= <-].
      by apply lookup_union_Some_l.
    + rewrite lookup_update_attrs_ne by done. apply Hnodes.
  - rewrite lookup_update_attrs_eq. by eexists.
Qed.

Lemma update_empty_attrs (n : node) (m : gmap node attrs) n' a :
  update_attrs n ∅ m !! n' = Some a →
  m !! n' = Some a ∨ (n' = n ∧ m !! n = None ∧ a = ∅).
Proof.
  destruct (decide (n = n')) as [<-|Hne].
  - rewrite lookup_update_attrs_eq, (left_id_L ∅ (∪)).
    destruct (m !! n); simpl; intros [= <-]; by auto.
  - rewrite lookup_update_attrs_ne by done. by auto.
Qed.

Lemma update_empty_attrs_Some (n n' : node) (m : gmap node attrs) :
  is_Some (m !! n') → is_Some (update_attrs n ∅ m !! n').
Proof.
  intros [a Ha]. destruct (decide (n = n')) as [<-|Hne].
  - rewrite lookup_update_attrs_eq. by eexists.
  - rewrite lookup_update_attrs_ne by done. by eexists.
Qed.

Lemma add_edge_nodes fA fB name i u v a g :
  (u = Composite name ∧ v = Species i) ∨ (u = Species i ∧ v = Composite name) →
  building fA fB name g →
  ∀ n a', node_data (add_edge u v a g) !! n = Some a' →
    match n with
    | Species _ => a' = ∅
    | Composite _ => a' !! "bipartite" = Some (VInt 1)
    end.
Proof.
  intros Huv [[_ Hnodes] [a0 Hname]] n a'. simpl.
  intros [[Hn|(-> & Hn & ->)]%update_empty_attrs|(-> & Hn & ->)]
    %update_empty_attrs.
  - by apply Hnodes.
  - destruct Huv as [[-> ->]|[-> ->]]; [by rewrite Hname in Hn|done].
  - destruct Huv as [[-> ->]|[-> ->]]; [done|].
    assert (is_Some (update_attrs (Species i) ∅ (node_data g)
                       !! Composite name)) as [? Hsome].
    { apply update_empty_attrs_Some. by eexists. }
    by rewrite Hsome in Hn.
Qed.

Lemma building_add_edge_out fA fB name i g :
  building fA fB name g →
  building fA fB name (add_edge (Composite name) (Species i) zero_weights g).
Proof.
  intros Hg. pose proof Hg as [[Hedges Hnodes] Hname].
  split; [split|].
  - intros u v a. simpl.
    destruct (decide ((Composite name, Species i) = (u, v))) as [[= <- <-]|Hne].
    + rewrite lookup_update_attrs_eq. intros [= <-].
      destruct (edge_data g !! _) as [old|] eqn:Hold; simpl.
      * rewrite (Hedges _ _ _ Hold). by rewrite (idemp_L (∪)).
      * by rewrite (right_id_L ∅ (∪)).
    + rewrite lookup_update_attrs_ne by done. apply Hedges.
  - eapply add_edge_nodes; [by left|done].
  - simpl. by do 2 apply update_empty_attrs_Some.
Qed.

Lemma building_add_edge_in fA fB name i w g :
  entering fA fB w →
  building fA fB name g →
  building fA fB name (add_edge (Species i) (Composite name) w g).
Proof.
  intros Hw Hg. pose proof Hg as [[Hedges Hnodes] Hname].
  split; [split|].
  - intros u v a. simpl.
    destruct (decide ((Species i, Composite name) = (u, v))) as [[= <- <-]|Hne].
    + rewrite lookup_update_attrs_eq. intros [= <-].
      destruct (edge_data g !! _) as [old|] eqn:Hold; simpl.
      * by rewrite (entering_union _ _ _ _ Hw (Hedges _ _ _ Hold)).
      * by rewrite (right_id_L ∅ (∪)).
    + rewrite lookup_update_attrs_ne by done. apply Hedges.
  - eapply add_edge_nodes; [by right|done].
  - simpl. by do 2 apply update_empty_attrs_Some.
Qed.

Lemma building_add_edges_out fA fB name (far : list Z) : ∀ g,
  building fA fB name g →
  building fA fB name
    (foldl (λ graph far_ind,
              add_edge (Composite name) (Species far_ind) zero_weights graph)
           g far).
Proof.
  induction far as [|i far IH]; intros g Hg; simpl; [done|].
  by apply IH, building_add_edge_out.
Qed.

Lemma graph_rep_1_1_bipartite (reaction reaction' : Reaction Graph) g :
  graph_rep_1_1 mol_free_energy reaction = Ok (reaction', g) →
  bipartite_graph (free_energy_A (base_of reaction'))
    (free_energy_B (base_of reaction')) g.
Proof.
  unfold graph_rep_1_1. case_bool_decide as Hshape; [done|]. cbv zeta.
  intros (rct_ind & _ & H)%bind_Ok.
  apply bind_Ok in H as (pro0_ind & _ & H).
  apply bind_Ok in H as (r1 & _ & H).
  apply bind_Ok in H as (rct_id & _ & H).
  apply bind_Ok in H as (pro_id & _ & H).
  apply bind_Ok in H as (wA & HwA & H).
  apply bind_Ok in H as (wB & HwB & H).
  injection H as <- <-.
  eapply building_forget, building_add_edge_out.
  apply building_add_edge_in; [by right|].
  apply building_add_node.
  eapply building_forget, building_add_edge_out.
  apply building_add_edge_in; [by left|].
  apply building_add_node, bipartite_empty.
Qed.

Lemma add_product_node_1_2_bipartite (b : Base Graph) rct_ind names eids
    g i g' :
  bipartite_graph (free_energy_A b) (free_energy_B b) g →
  add_product_node_1_2 b rct_ind names eids g i = Ok g' →
  bipartite_graph (free_energy_A b) (free_energy_B b) g'.
Proof.
  intros Hg. unfold add_product_node_1_2.
  intros (name & _ & H)%bind_Ok.
  apply bind_Ok in H as (eid & _ & H). cbv zeta in H.
  apply bind_Ok in H as (pro_ind & _ & H).
  apply bind_Ok in H as (w & Hw & H).
  injection H as <-.
  eapply building_forget, building_add_edge_in; [by right|].
  by apply building_add_edge_out, building_add_node.
Qed.

Lemma graph_rep_1_2_bipartite (reaction reaction' : Reaction Graph) g :
  graph_rep_1_2 mol_free_energy reaction = Ok (reaction', g) →
  bipartite_graph (free_energy_A (base_of reaction'))
    (free_energy_B (base_of reaction')) g.
Proof.
  unfold graph_rep_1_2. case_bool_decide as Hshape; [done|]. cbv zeta.
  intros (rct_ind & _ & H)%bind_Ok.
  apply bind_Ok in H as (pro0_ind & _ & H).
  apply bind_Ok in H as (pro1_ind & _ & H).
  apply bind_Ok in H as (rct_id & _ & H).
  apply bind_Ok in H as (sorted_inds & _ & H).
  apply bind_Ok in H as (sorted_ids & _ & H).
  apply bind_Ok in H as (r1 & _ & H).
  apply bind_Ok in H as (wA & HwA & H).
  apply bind_Ok in H as (g1 & Hloop & H).
  injection H as <- <-.
  eapply for_each_preserves; [|apply add_product_node_1_2_bipartite|done].
  eapply building_forget, building_add_edge_out, building_add_edge_out.
  apply building_add_edge_in; [by left|].
  apply building_add_node, bipartite_empty.
Qed.

Lemma add_side_node_2_2_bipartite fA fB rxn_type energy free_energy
    near far names eids g i g' :
  free_energy = fA ∨ free_energy = fB →
  bipartite_graph fA fB g →
  add_side_node_2_2 rxn_type energy free_energy near far names eids g i
    = Ok g' →
  bipartite_graph fA fB g'.
Proof.
  intros Hfe Hg. unfold add_side_node_2_2.
  intros (name & _ & H)%bind_Ok.
  apply bind_Ok in H as (eid & _ & H). cbv zeta in H.
  apply bind_Ok in H as (near_ind & _ & H).
  apply bind_Ok in H as (w & Hw & H).
  injection H as <-.
  eapply building_forget, building_add_edges_out.
  apply building_add_edge_in.
  { destruct Hfe as [->| ->]; [by left|by right]. }
  by apply building_add_node.
Qed.

Lemma graph_rep_2_2_bipartite (reaction reaction' : Reaction Graph) g :
  graph_rep_2_2 mol_free_energy reaction = Ok (reaction', g) →
  bipartite_graph (free_energy_A (base_of reaction'))
    (free_energy_B (base_of reaction')) g.
Proof.
  unfold graph_rep_2_2. case_bool_decide as Hshape; [done|]. cbv zeta.
  intros (r1 & _ & H)%bind_Ok.
  apply bind_Ok in H as (pro_sorted & _ & H).
  apply bind_Ok in H as (pro_sorted_ids & _ & H).
  apply bind_Ok in H as (rct_sorted & _ & H).
  apply bind_Ok in H as (rct_sorted_ids & _ & H).
  apply bind_Ok in H as (g1 & Hloop1 & H).
  apply bind_Ok in H as (g2 & Hloop2 & H).
  injection H as <- <-.
  eapply for_each_preserves; [| |exact Hloop2].
  - eapply for_each_preserves; [apply bipartite_empty| |exact Hloop1].
    intros s x s' Hs. apply add_side_node_2_2_bipartite; [by left|done].
  - intros s x s' Hs. apply add_side_node_2_2_bipartite; [by right|done].
Qed.


End GraphInvariants.

Section GraphInvariantExamples.
Import MolEntry Reactions DiGraph GraphRep.

Lemma demo_intramol_graph_representation :
  ∃ g, graph_representation demo_mol_free_energy demo_intramol
       = Ok (demo_intramol, Some g).
Proof.
  change (graph_representation demo_mol_free_energy demo_intramol)
    with ('(r, g) ← graph_rep_1_1 demo_mol_free_energy demo_intramol;
          Ok (r, Some g)).
  unfold graph_rep_1_1.
  rewrite bool_decide_eq_false_2 by (by intros [?|?]).
  cbn [item lookup_or mbind outcome_bind fmap list_fmap lookup list_lookup
       base_of demo_intramol demo_base rct_indices pro_indices
       Reactions.reactants Reactions.products].
  fold demo_intramol. rewrite demo_intramol_free_energy.
  cbn [item lookup_or mbind outcome_bind fmap list_fmap lookup list_lookup
       base_of demo_intramol demo_base rct_ids pro_ids entry_weights
       Reactions.reactants Reactions.products
       Reactions.free_energy_A Reactions.free_energy_B].
  by eexists.
Qed.


End GraphInvariantExamples.

(** ** Outcomes of the graph embedding *)

Section GraphOutcomes.
Import MolEntry Reactions DiGraph GraphRep.
Context {Graph : Type}.
Variable mol_free_energy : option R → option R → option R → R → option R.

Lemma np_argsort_2 (x y : Z) :
  Py.np_argsort [x; y] = if bool_decide (y < x)%Z then [1; 0] else [0; 1].
Proof.
  unfold Py.np_argsort, Py.sort_by. simpl. by case_bool_decide.
Qed.

(** What the reaction looks like once [free_energy()] has run. *)
Lemma call_free_energy_shape (reaction reaction' : Reaction Graph) :
  call_free_energy mol_free_energy reaction = Ok reaction' →
  reactants (base_of reaction') = reactants (base_of reaction)
  ∧ products (base_of reaction') = products (base_of reaction)
  ∧ is_None (free_energy_A (base_of reaction'))
    = is_None (free_energy_B (base_of reaction')).
Proof.
  intros Hfe. destruct (free_energy_method_data _ _ _ _ Hfe) as (? & ? & _).
  by pose proof (free_energy_method_paired _ _ _ _ Hfe).
Qed.

Lemma graph_rep_1_1_outcome (reaction reaction' : Reaction Graph) :
  length (reactants (base_of reaction)) = 1 →
  length (products (base_of reaction)) = 1 →
  call_free_energy mol_free_energy reaction = Ok reaction' →
  match free_energy_A (base_of reaction') with
  | Some _ =>
      ∃ g, graph_rep_1_1 mol_free_energy reaction = Ok (reaction', g)
  | None => graph_rep_1_1 mol_free_energy reaction = Raise TypeError
  end.
Proof.
  intros Hr Hp Hfe.
  destruct (call_free_energy_shape _ _ Hfe) as (Hr' & Hp' & Hboth).
  unfold graph_rep_1_1, rct_indices, pro_indices, rct_ids, pro_ids.
  rewrite !length_fmap, Hr, Hp.
  rewrite bool_decide_eq_false_2 by (by intros [?|?]).
  rewrite Hfe. cbn [mbind outcome_bind]. rewrite Hr', Hp'.
  destruct (reactants (base_of reaction)) as [|r0 [|]]; try done.
  destruct (products (base_of reaction)) as [|p0 [|]]; try done.
  cbn [item lookup_or mbind outcome_bind fmap list_fmap lookup list_lookup].
  destruct (free_energy_A (base_of reaction')) as [x|],
    (free_energy_B (base_of reaction')) as [y|]; try done;
    cbn [entry_weights lookup_or mbind outcome_bind]; by eauto.
Qed.

Lemma graph_rep_1_2_outcome (reaction reaction' : Reaction Graph) :
  length (reactants (base_of reaction)) = 1 →
  length (products (base_of reaction)) = 2 →
  call_free_energy mol_free_energy reaction = Ok reaction' →
  match free_energy_A (base_of reaction') with
  | Some _ =>
      ∃ g, graph_rep_1_2 mol_free_energy reaction = Ok (reaction', g)
  | None => graph_rep_1_2 mol_free_energy reaction = Raise TypeError
  end.
Proof.
  intros Hr Hp Hfe.
  destruct (call_free_energy_shape _ _ Hfe) as (Hr' & Hp' & Hboth).
  unfold graph_rep_1_2, add_product_node_1_2,
    rct_indices, pro_indices, rct_ids, pro_ids.
  rewrite !length_fmap, Hr, Hp.
  rewrite bool_decide_eq_false_2 by (by intros [?|?]).
  rewrite Hfe. cbn [mbind outcome_bind]. rewrite Hp'.
  destruct (reactants (base_of reaction)) as [|r0 [|]]; try done.
  destruct (products (base_of reaction)) as [|p0 [|p1 [|]]]; try done.
  cbn [fmap list_fmap]. rewrite np_argsort_2.
  destruct (free_energy_A (base_of reaction')) as [x|],
    (free_energy_B (base_of reaction')) as [y|]; try done;
    case_bool_decide;
    cbn [item lookup_or mbind outcome_bind fmap list_fmap lookup list_lookup
         mapM mret outcome_ret entry_weights
         Py.permutations Py.permutations_upto Py.picks length seq for_each
         mbind list_bind app fst snd];
    by eauto.
Qed.

Lemma graph_rep_2_2_outcome (reaction reaction' : Reaction Graph) :
  length (reactants (base_of reaction)) = 2 →
  length (products (base_of reaction)) = 2 →
  call_free_energy mol_free_energy reaction = Ok reaction' →
  match free_energy_A (base_of reaction') with
  | Some _ =>
      ∃ g, graph_rep_2_2 mol_free_energy reaction = Ok (reaction', g)
  | None => graph_rep_2_2 mol_free_energy reaction = Raise TypeError
  end.
Proof.
  intros Hr Hp Hfe.
  destruct (call_free_energy_shape _ _ Hfe) as (Hr' & Hp' & Hboth).
  unfold graph_rep_2_2, add_side_node_2_2,
    rct_indices, pro_indices, rct_ids, pro_ids.
  rewrite !length_fmap, Hr, Hp.
  rewrite bool_decide_eq_false_2 by (by intros [?|?]).
  rewrite Hfe. cbn [mbind outcome_bind]. rewrite Hr', Hp'.
  destruct (reactants (base_of reaction)) as [|r0 [|r1 [|]]]; try done.
  destruct (products (base_of reaction)) as [|p0 [|p1 [|]]]; try done.
  cbn [fmap list_fmap]. rewrite !np_argsort_2.
  destruct (free_energy_A (base_of reaction')) as [x|],
    (free_energy_B (base_of reaction')) as [y|]; try done;
    do 2 case_bool_decide;
    cbn [item lookup_or mbind outcome_bind fmap list_fmap lookup list_lookup
         mapM mret outcome_ret entry_weights
         Py.permutations Py.permutations_upto Py.picks length seq for_each
         mbind list_bind app fst snd];
    by eauto.
Qed.

Lemma ConcertedReaction_free_energy_total T (b : Base Graph) rct pro rc pc efe :
  ∃ r1, free_energy_method mol_free_energy T
          (ConcertedReaction b rct pro rc pc efe) = Ok r1.
Proof.
  simpl. unfold free_energy_frame, free_energy_concerted.
  rewrite !andb_false_r.
  destruct (forallb _ _) eqn:Hr; [|by eexists].
  destruct (forallb _ (_ <$> pro)) eqn:Hp; [|by eexists].
  destruct (np_sum_Ok _ Hr) as [x ->], (np_sum_Ok _ Hp) as [y ->].
  by eexists.
Qed.


End GraphOutcomes.

(** ** Classification of reactions into families ([categorize]) *)

Module Categorize.

Section Categorize.
(** [Env]: the bonding environments ([nx.Graph]); [Rxn]: the reaction
    objects, which [categorize] only stores. *)
Context {Env Rxn : Type}.
(** [nx.is_isomorphic(environment, template, node_match=nm)] *)
Variable nx_is_isomorphic : Env → Env → bool.

(** [families[charge][label] = [reactions]] *)
Definition FamilyDict : Type := list (Z * list (nat * list Rxn)).

(** The scan [for e, template in enumerate(templates)] up to its
    [break]: the position of the first template isomorphic to the
    environment, counting from [e]. *)
Fixpoint first_match (environment : Env) (templates : list Env) (e : nat)
    : option nat :=
  match templates with
  | [] => None
  | template :: rest =>
      if nx_is_isomorphic environment template then Some e
      else first_match environment rest (S e)
  end.

(** [categorize(reaction, families, templates, environment, charge)] *)
Definition categorize (reaction : Rxn) (families : FamilyDict)
    (templates : list Env) (environment : Env) (charge : Z)
    : FamilyDict * list Env :=
  match first_match environment templates 0 with
  | Some label =>
      match Dict.get charge families with
      | Some by_label =>
          match Dict.get label by_label with
          | Some l =>
              (Dict.set charge (Dict.set label (l ++ [reaction]) by_label)
                 families, templates)
          | None =>
              (Dict.set charge (Dict.set label [reaction] by_label) families,
               templates)
          end
      | None => (Dict.set charge [(label, [reaction])] families, templates)
      end
  | None =>
      let label := length templates in
      (match Dict.get charge families with
       | Some by_label =>
           Dict.set charge (Dict.set label [reaction] by_label) families
       | None => Dict.set charge [(label, [reaction])] families
       end, templates ++ [environment])
  end.

(** [families[charge][label]], [None] standing for a [KeyError]. *)
Definition family (families : FamilyDict) (charge : Z) (label : nat)
    : option (list Rxn) :=
  by_label ← Dict.get charge families; Dict.get label by_label.

End Categorize.

End Categorize.

Section CategorizeFacts.
Import Categorize.
Context {Env Rxn : Type}.
Variable nx_is_isomorphic : Env → Env → bool.

Lemma first_match_Some environment templates : ∀ e label,
  first_match nx_is_isomorphic environment templates e = Some label →
  e ≤ label
  ∧ (∃ template, templates !! (label - e) = Some template
       ∧ nx_is_isomorphic environment template = true)
  ∧ ∀ j template, j < label - e → templates !! j = Some template →
      nx_is_isomorphic environment template = false.
Proof.
  induction templates as [|t templates IH]; intros e label; simpl; [done|].
  destruct (nx_is_isomorphic environment t) eqn:Ht.
  - intros [= <-]. rewrite Nat.sub_diag. split_and!; [lia|by eauto|].
    intros j template Hj. lia.
  - intros (Hle & (template & Hl & Hiso) & Hbefore)%IH.
    replace (label - e) with (S (label - S e)) by lia.
    split_and!; [lia|by eauto|].
    intros [|j] t' Hj; simpl; [by intros [= <-]|].
    apply Hbefore. lia.
Qed.

Lemma first_match_None environment templates : ∀ e,
  first_match nx_is_isomorphic environment templates e = None →
  ∀ template, template ∈ templates →
    nx_is_isomorphic environment template = false.
Proof.
  induction templates as [|t templates IH]; intros e; simpl.
  - by intros _ template ?%elem_of_nil.
  - destruct (nx_is_isomorphic environment t) eqn:Ht; [done|].
    intros Hrest template [->|Hin]%elem_of_cons; [done|]. by eapply IH.
Qed.

Lemma family_set (families : @FamilyDict Rxn) charge label l by_label c j :
  Dict.get charge families = Some by_label ∨
    (Dict.get charge families = None ∧ by_label = []) →
  family (Dict.set charge (Dict.set label l by_label) families) c j =
    if decide (c = charge ∧ j = label) then Some l else family families c j.
Proof.
  intros Hget. unfold family.
  destruct (decide (c = charge)) as [->|Hc].
  - rewrite get_set_eq. simpl.
    destruct (decide (j = label)) as [->|Hj].
    + rewrite get_set_eq. by rewrite decide_True.
    + rewrite get_set_ne by done. rewrite decide_False by tauto.
      by destruct Hget as [->|[-> ->]].
  - rewrite get_set_ne by done. by rewrite decide_False by tauto.
Qed.


End CategorizeFacts.

(** ** Atom mappings of one-to-one reactions *)

Section AtomMappingFacts.
Import Reactions.
Context {A : Type}.
Variables (key_of val_of : A → Z).

(** Filling a dictionary from a sequence of items, as a dict
    comprehension does. *)
Definition fill (l : list A) : list (Z * Z) :=
  foldl (λ d x, Dict.set (key_of x) (val_of x) d) [] l.

Lemma fill_snoc l x :
  fill (l ++ [x]) = Dict.set (key_of x) (val_of x) (fill l).
Proof. unfold fill. by rewrite foldl_app. Qed.

Lemma fill_lookup l x :
  NoDup (key_of <$> l) → x ∈ l →
  Dict.get (key_of x) (fill l) = Some (val_of x).
Proof.
  induction l as [|y l IH] using rev_ind; [by intros _ ?%elem_of_nil|].
  rewrite fmap_app, fill_snoc. simpl.
  intros [Hl [Hy _]]%NoDup_app [Hx| ->%list_elem_of_singleton]%elem_of_app.
  - rewrite get_set_ne; [by apply IH|].
    intros Heq. apply (Hy (key_of x)).
    + by apply list_elem_of_fmap_2.
    + rewrite Heq. by left.
  - by rewrite get_set_eq.
Qed.

Lemma fill_lookup_inv l k v :
  Dict.get k (fill l) = Some v → ∃ x, x ∈ l ∧ key_of x = k ∧ val_of x = v.
Proof.
  induction l as [|y l IH] using rev_ind; [done|].
  rewrite fill_snoc. destruct (decide (key_of y = k)) as [<-|Hne].
  - rewrite get_set_eq. intros [= <-]. exists y. split; [|done].
    apply elem_of_app. right. by left.
  - rewrite get_set_ne by done. intros (x & Hx & Hk & Hv)%IH.
    exists x. split; [|done]. apply elem_of_app. by left.
Qed.

End AtomMappingFacts.

Section AtomMappingSpec.
Import Reactions.



End AtomMappingSpec.

(** ** Isomorphic bonds ([MoleculeEntry.get_isomorphic_bonds]) *)

Module IsoBonds.

Section IsoBonds.
(** [Frag]: the fragments ([MoleculeGraph]) obtained by breaking a
    bond. *)
Context {Frag : Type}.
(** [MoleculeGraph.isomorphic_to] *)
Variable isomorphic_to : Frag → Frag → bool.

(** A bond is the pair of the atom indices it joins. *)
Definition Bond : Type := Z * Z.

(** The test made on the fragments of the current bond and those of the
    first bond of a group. *)
Definition same_fragments (current_frags existing_frags : list Frag)
    : outcome bool :=
  if bool_decide (length current_frags = length existing_frags
                  ∧ length existing_frags = 1) then
    c0 ← lookup_or IndexError (current_frags !! 0);
    e0 ← lookup_or IndexError (existing_frags !! 0);
    Ok (isomorphic_to c0 e0)
  else if bool_decide (length current_frags = length existing_frags
                       ∧ length existing_frags = 2) then
    c0 ← lookup_or IndexError (current_frags !! 0);
    e0 ← lookup_or IndexError (existing_frags !! 0);
    c1 ← lookup_or IndexError (current_frags !! 1);
    e1 ← lookup_or IndexError (existing_frags !! 1);
    Ok (isomorphic_to c0 e0 && isomorphic_to c1 e1
        || isomorphic_to c0 e1 && isomorphic_to c1 e0)
  else Ok false.

(** The [for group in iso_bonds: ... break / else: ...] loop: the
    current bond joins the first group whose first bond gives the same
    fragments, or starts a new group at the end. *)
Fixpoint place (fragments : list (Bond * list Frag)) (current_bond : Bond)
    (current_frags : list Frag) (iso_bonds : list (list Bond))
    : outcome (list (list Bond)) :=
  match iso_bonds with
  | [] => Ok [[current_bond]]
  | group :: rest =>
      existing_bond ← lookup_or IndexError (group !! 0);
      exsiting_frags ← lookup_or KeyError (Dict.get existing_bond fragments);
      same ← same_fragments current_frags exsiting_frags;
      if (same : bool) then Ok ((group ++ [current_bond]) :: rest)
      else
        rest' ← place fragments current_bond current_frags rest;
        Ok (group :: rest')
  end.

(** [get_isomorphic_bonds(fragments)] for a given fragments
    dictionary. *)
Definition get_isomorphic_bonds (fragments : list (Bond * list Frag))
    : outcome (list (list Bond)) :=
  for_each (λ iso_bonds (item : Bond * list Frag),
              place fragments item.1 item.2 iso_bonds)
    [] fragments.

End IsoBonds.

End IsoBonds.

Section IsoBondsFacts.
Import IsoBonds.
Context {Frag : Type}.
Variable isomorphic_to : Frag → Frag → bool.
Variable fragments : list (Bond * list Frag).

Lemma same_fragments_total (current_frags existing_frags : list Frag) :
  ∃ same, same_fragments isomorphic_to current_frags existing_frags = Ok same.
Proof.
  unfold same_fragments. repeat case_bool_decide.
  - destruct current_frags as [|c0 [|]], existing_frags as [|e0 [|]];
      simpl in *; try lia. by eexists.
  - destruct current_frags as [|c0 [|c1 [|]]],
      existing_frags as [|e0 [|e1 [|]]]; simpl in *; try lia. by eexists.
  - by eexists.
Qed.

(** A bond may sit in the group led by [first]: it is [first] itself, or
    breaking it gives the same fragments as breaking [first]. *)
Definition member_of (first bond : Bond) : Prop :=
  bond = first
  ∨ ∃ bond_frags first_frags,
      (bond, bond_frags) ∈ fragments
      ∧ Dict.get first fragments = Some first_frags
      ∧ same_fragments isomorphic_to bond_frags first_frags = Ok true.

(** What the groups built so far satisfy. *)
Definition grouped (iso_bonds : list (list Bond)) : Prop :=
  Forall (λ group,
            ∃ first, head group = Some first ∧ first ∈ fragments.*1
                     ∧ Forall (member_of first) group) iso_bonds.

Lemma place_grouped current_bond current_frags : ∀ iso_bonds,
  (current_bond, current_frags) ∈ fragments →
  grouped iso_bonds →
  ∃ iso_bonds',
    place isomorphic_to fragments current_bond current_frags iso_bonds
      = Ok iso_bonds'
    ∧ grouped iso_bonds'
    ∧ concat iso_bonds' ≡ₚ concat iso_bonds ++ [current_bond].
Proof.
  intros iso_bonds Hin.
  induction iso_bonds as [|group rest IH]; intros Hgrouped; simpl.
  - eexists. split; [done|]. split; [|done].
    apply Forall_singleton. exists current_bond. split_and!; [done| |].
    + by apply (list_elem_of_fmap_2 fst _ (current_bond, current_frags)).
    + apply Forall_singleton. by left.
  - apply Forall_cons in Hgrouped
      as [(first & Hhead & Hfirst & Hmembers) Hrest].
    destruct group as [|b group]; [done|]. injection Hhead as ->.
    destruct (get_is_Some first fragments Hfirst) as [first_frags Hget].
    simpl. rewrite Hget. cbn [lookup_or mbind outcome_bind].
    destruct (same_fragments_total current_frags first_frags)
      as [[|] Hsame]; rewrite Hsame; cbn [mbind outcome_bind].
    + eexists. split; [done|]. split.
      * apply Forall_cons. split; [|done].
        exists first. split_and!; [done..|].
        apply (Forall_app _ (first :: group) [current_bond]).
        split; [done|]. apply Forall_singleton. right. by eauto.
      * simpl. rewrite <-!(assoc_L (++)). do 2 f_equiv.
        apply Permutation_app_comm.
    + destruct (IH Hrest) as (rest' & -> & Hrest' & Hperm).
      cbn [mbind outcome_bind]. eexists. split; [done|]. split.
      * apply Forall_cons. split; [|done]. exists first. by split_and!.
      * simpl. rewrite Hperm. by rewrite <-!(assoc_L (++)).
Qed.


End IsoBondsFacts.
